(** * End-to-end CI orchestration script: [scripts/run-ci-e2e-tests.js]

    A shallow embedding of the script and of the retry helper it imports,
    with the properties of the pipeline stated over the trace of external
    effects (commands run, messages echoed, processes spawned) and over the
    exit status of the process.

    The script is sequential JavaScript with three module-level variables
    ([SERVER_PID], [APPIUM_PID], [exitCode]), one [try]/[finally] and
    [throw] used for early exit.  It is modelled in a state-and-exception
    monad; every call into shelljs or [child_process] appends one event to
    the trace, and its result is read from an environment that may depend on
    everything that happened before. *)

From Stdlib Require Import ZArith List String Ascii Bool Arith Lia DecimalString.
Import ListNotations.
Open Scope string_scope.
Open Scope list_scope.
Open Scope Z_scope.

Set Implicit Arguments.

(* ================================================================= *)
(** ** JavaScript values that reach the script *)

(** An exception value: [Error(exitCode)] builds an [Error] whose message
    is the decimal rendering of the number. *)
Inductive Exn : Type :=
| JsError (message : string).

(** Rendering inside a template literal: [`${x}`] for a variable that is
    either [undefined] or an integer. *)
Definition show_Z (z : Z) : string := NilZero.string_of_int (Z.to_int z).

Definition show_js (v : option Z) : string :=
  match v with
  | None => "undefined"
  | Some z => show_Z z
  end.

(** Truthiness of a number ([if (exec(...).code)]) and of a variable that
    is [undefined] or a number ([if (SERVER_PID)]). *)
Definition truthy (z : Z) : bool := negb (z =? 0).

Definition truthy_opt (v : option Z) : bool :=
  match v with
  | None => false
  | Some z => truthy z
  end.

(** [String.prototype.trim], for the ASCII white space and line
    terminators (tab, LF, VT, FF, CR, space). *)
Definition is_space (a : ascii) : bool :=
  match nat_of_ascii a with
  | 9%nat | 10%nat | 11%nat | 12%nat | 13%nat | 32%nat => true
  | _ => false
  end.

Fixpoint trim_start (s : string) : string :=
  match s with
  | EmptyString => EmptyString
  | String a s' => if is_space a then trim_start s' else s
  end.

Fixpoint trim_end (s : string) : string :=
  match s with
  | EmptyString => EmptyString
  | String a s' =>
      match trim_end s' with
      | EmptyString => if is_space a then EmptyString else String a EmptyString
      | t => String a t
      end
  end.

Definition trim (s : string) : string := trim_end (trim_start s).

Definition nl : string := String "010" EmptyString.

(* ================================================================= *)
(** ** The monad: state, and exceptions for [throw] *)

Inductive Result (A : Type) : Type :=
| Normal (a : A)
| Thrown (e : Exn).

Arguments Normal {A} a.
Arguments Thrown {A} e.

Definition M (S A : Type) : Type := S -> Result A * S.

Definition ret {S A} (a : A) : M S A := fun s => (Normal a, s).

Definition bind {S A B} (m : M S A) (f : A -> M S B) : M S B :=
  fun s =>
    match m s with
    | (Normal a, s') => f a s'
    | (Thrown e, s') => (Thrown e, s')
    end.

Definition throw {S A} (e : Exn) : M S A := fun s => (Thrown e, s).

Definition get {S} : M S S := fun s => (Normal s, s).

Definition modify {S} (f : S -> S) : M S unit := fun s => (Normal tt, f s).

(** [try { body } finally { fin }]: [fin] runs on the state [body] left,
    whatever [body] did; the completion of [body] is kept unless [fin]
    itself throws. *)
Definition try_finally {S A} (body : M S A) (fin : M S unit) : M S A :=
  fun s =>
    match body s with
    | (r, s1) =>
        match fin s1 with
        | (Normal _, s2) => (r, s2)
        | (Thrown e, s2) => (Thrown e, s2)
        end
    end.

(** [if (b) { m }] *)
Definition when {S} (b : bool) (m : M S unit) : M S unit :=
  if b then m else ret tt.

Declare Scope monad_scope.
Delimit Scope monad_scope with monad.
Notation "x <- m ;; k" := (bind m (fun x => k))
  (at level 61, m at next level, right associativity) : monad_scope.
Notation "m ;; k" := (bind m (fun _ => k))
  (at level 61, right associativity) : monad_scope.
Open Scope monad_scope.

(* ================================================================= *)
(** ** The Retrier: [tryExecNTimes] of [./try-n-times] *)

Section Retrier.
Context {S : Type}.

(** An optional callback, called when there is one. *)
Definition call_opt (f : option (M S unit)) : M S unit :=
  match f with
  | Some g => g
  | None => ret tt
  end.

(** One attempt and, on failure, while attempts remain, the recovery
    action followed by the next attempt; [remaining] is the number of
    attempts still allowed after this one. *)
Fixpoint retry_loop (operation : M S Z) (recovery : option (M S unit))
         (remaining : nat) : M S Z :=
  c <- operation ;;
  if c =? 0 then ret c
  else match remaining with
       | O => ret c
       | Datatypes.S k =>
           call_opt recovery ;; retry_loop operation recovery k
       end.

(** Modelled from the spec: the module [./try-n-times] that the script
    requires at line 31 is missing from the sources at hand.  The Retrier
    is given an operation that produces a success/failure signal (zero is
    success, as the callers test it), a maximum attempt count and an
    optional recovery action.  It invokes the operation; on failure, if
    attempts remain, it invokes the recovery action and re-invokes the
    operation; it returns the signal of the final attempt.  The contract is
    stated for counts of at least one; the first attempt is made before the
    count is looked at. *)
Definition tryExecNTimes (operation : M S Z) (maxAttempts : nat)
           (recovery : option (M S unit)) : M S Z :=
  retry_loop operation recovery (Nat.pred maxAttempts).
End Retrier.

(* ================================================================= *)
(** ** External effects *)

(** What the script does to the outside world, in order.  [EvExec] carries
    the exit code the command returned, [EvSpawn] the [pid] field of the
    child ([undefined] when no process could be started).  Options passed
    to [exec] and [spawn] ([silent], [stdio], [env]) are not recorded. *)
Inductive Event : Type :=
| EvExec (cmd : string) (status : Z)
| EvEcho (msg : string)
| EvCd (dir : string)
| EvCp (src dst : string)
| EvRm (opts path : string)
| EvSpawn (cmd : string) (args : list string) (pid : option Z).

(** The object shelljs's [exec] returns. *)
Record ExecResult : Type := mkExecResult {
  code : Z;
  stdout : string
}.

(** The environment of one run: where the script lives, and how every
    external command and spawn answers given the events so far.
    [__dirname] is always absolute; it is kept as its list of segments. *)
Record Env : Type := mkEnv {
  dirname : list string;
  exec_result : list Event -> string -> ExecResult;
  spawn_pid : list Event -> string -> list string -> option Z
}.

(** The command-line flags read through [argv].  A flag that is absent is
    [undefined], hence falsy.  [--retries] is absent or carries a
    non-negative integer. *)
Record Argv : Type := mkArgv {
  android : bool;
  ios : bool;
  tvos : bool;
  js : bool;
  skip_cli_install : bool;
  retries : option nat
}.

(** The module-level variables, and the trace of effects. *)
Record State : Type := mkState {
  trace : list Event;
  SERVER_PID : option Z;
  APPIUM_PID : option Z;
  exitCode : option Z
}.

Definition initial_state : State :=
  {| trace := []; SERVER_PID := None; APPIUM_PID := None; exitCode := None |}.

Definition emit (e : Event) (st : State) : State :=
  {| trace := trace st ++ [e];
     SERVER_PID := SERVER_PID st;
     APPIUM_PID := APPIUM_PID st;
     exitCode := exitCode st |}.

Definition with_SERVER_PID (v : option Z) (st : State) : State :=
  {| trace := trace st; SERVER_PID := v;
     APPIUM_PID := APPIUM_PID st; exitCode := exitCode st |}.

Definition with_APPIUM_PID (v : option Z) (st : State) : State :=
  {| trace := trace st; SERVER_PID := SERVER_PID st;
     APPIUM_PID := v; exitCode := exitCode st |}.

Definition with_exitCode (v : Z) (st : State) : State :=
  {| trace := trace st; SERVER_PID := SERVER_PID st;
     APPIUM_PID := APPIUM_PID st; exitCode := Some v |}.

(** Assignments to the module-level variables. *)
Definition set_SERVER_PID (v : option Z) : M State unit :=
  modify (with_SERVER_PID v).

Definition set_APPIUM_PID (v : option Z) : M State unit :=
  modify (with_APPIUM_PID v).

Definition set_exitCode (v : Z) : M State unit :=
  modify (with_exitCode v).

(** Absolute paths, as [path.join] and [path.normalize] print them. *)
Definition render (segments : list string) : string :=
  String "/" (String.concat "/" segments).

Section Script.
Variable env : Env.
Variable argv : Argv.

(** *** shelljs and [child_process] *)

Definition exec (cmd : string) : M State ExecResult :=
  fun st =>
    let r := exec_result env (trace st) cmd in
    (Normal r, emit (EvExec cmd (code r)) st).

(** [exec(cmd).code] *)
Definition exec_code (cmd : string) : M State Z :=
  r <- exec cmd ;; ret (code r).

(** [exec(cmd)] as a statement, the result dropped. *)
Definition exec_ (cmd : string) : M State unit :=
  _ <- exec cmd ;; ret tt.

Definition echo (msg : string) : M State unit :=
  modify (emit (EvEcho msg)).

Definition cd (dir : string) : M State unit :=
  modify (emit (EvCd dir)).

Definition cp (src dst : string) : M State unit :=
  modify (emit (EvCp src dst)).

Definition rm (opts path : string) : M State unit :=
  modify (emit (EvRm opts path)).

(** [spawn(cmd, args, ...).pid] *)
Definition spawn (cmd : string) (args : list string) : M State (option Z) :=
  fun st =>
    let p := spawn_pid env (trace st) cmd args in
    (Normal p, emit (EvSpawn cmd args p) st).

(** *** Module-level constants (lines 29-34) *)

Definition SCRIPTS : string := render (dirname env).

(** [path.normalize(path.join(__dirname, '..'))] *)
Definition ROOT : list string := removelast (dirname env).

Definition mktemp_cmd : string := "mktemp -d /tmp/react-native-XXXXXXXX".

(** [argv.retries || 1] *)
Definition numberOfRetries : nat :=
  match retries argv with
  | Some n => if Nat.eqb n 0 then 1%nat else n
  | None => 1%nat
  end.

Definition describe (message : string) : M State unit :=
  echo (nl ++ nl ++ ">>>>> " ++ message ++ nl ++ nl ++ nl).

(** Every failure branch: its messages, then
    [exitCode = 1; throw Error(exitCode);]. *)
Fixpoint echo_all (msgs : list string) : M State unit :=
  match msgs with
  | [] => ret tt
  | m :: ms => echo m ;; echo_all ms
  end.

Definition fatal (msgs : list string) : M State unit :=
  echo_all msgs ;;
  set_exitCode 1 ;;
  st <- get ;;
  throw (JsError (show_js (exitCode st))).

(** The shape of every inspected step:
    [if (<exit code>) { echo(...); exitCode = 1; throw Error(exitCode); }]. *)
Definition check (m : M State Z) (msgs : list string) : M State unit :=
  c <- m ;; when (truthy c) (fatal msgs).

(** *** The commands *)

(** A double quote, and a text between double quotes. *)
Definition dquote : string := String "034" EmptyString.
Definition quoted (s : string) : string := dquote ++ s ++ dquote.

Definition CLI_PACKAGE : string := "react-native-cli".
Definition cli_install_cmd : string := "yarn global add " ++ CLI_PACKAGE.
Definition install_archives_cmd : string :=
  "./gradlew :ReactAndroid:installArchives -Pjobs=1 -Dorg.gradle.jvmargs=" ++
  quoted "-Xmx512m -XX:+HeapDumpOnOutOfMemoryError".
Definition flow_install_cmd : string := "npm install --save-dev flow-bin".
Definition sleep10 : string := "sleep 10s".
Definition sleep15 : string := "sleep 15s".
Definition pack_cmd : string := "npm pack".
Definition PACKAGE : string := render (ROOT ++ ["react-native-*.tgz"]).
Definition init_cmd : string :=
  "react-native init EndToEndTest --version " ++ PACKAGE ++ " --npm".
Definition METRO_CONFIG : string := render (ROOT ++ ["metro.config.js"]).
Definition RN_POLYFILLS : string := render (ROOT ++ ["rn-get-polyfills.js"]).
Definition install_package_cmd : string := "npm install " ++ PACKAGE.
Definition npm_install_cmd : string := "npm install".
Definition appium_install_cmd : string :=
  "yarn add --dev appium@1.11.1 mocha@2.4.5 wd@1.11.1 colors@1.0.3 pretty-data2@0.40.1".
Definition maven_deps_cmd : string := "./gradlew :app:copyDownloadableDepsToLibs".
Definition rm_keystore_cmd : string := "rm android/app/debug.keystore".
Definition keytool_cmd : string :=
  "keytool -genkey -v -keystore android/app/debug.keystore -storepass android -alias androiddebugkey -keypass android -keyalg RSA -keysize 2048 -validity 10000 -dname " ++
  quoted "CN=Android Debug,O=Android,C=US".
Definition run_android_cmd : string := "react-native run-android".
Definition mocha_cmd : string := "node node_modules/.bin/_mocha android-e2e-test.js".
Definition curl_cmd : string :=
  "response=$(curl --write-out %{http_code} --silent --output /dev/null localhost:8081/index.bundle?platform=ios&dev=true)".
Definition pod_install_cmd : string := "pod install".
Definition android_bundle_cmd : string :=
  "react-native bundle --max-workers 1 --platform android --dev true --entry-file index.js --bundle-output android-bundle.js".
Definition ios_bundle_cmd : string :=
  "react-native --max-workers 1 bundle --platform ios --dev true --entry-file index.js --bundle-output ios-bundle.js".
Definition flow_check_cmd : string :=
  render (ROOT ++ ["node_modules"; ".bin"; "flow"]) ++ " check".
Definition kill_cmd (pid : option Z) : string := "kill -9 " ++ show_js pid.
Definition sweep_cmd : string :=
  "lsof -i tcp:8081 | awk 'NR!=1 {print $2}' | xargs kill".

(** Lines 232-264: the test command of the iOS/tvOS branch, for the
    parameters the closure picks from [argv.tvos]. *)
Definition xcodebuild_cmd (is_tvos : bool) (iosTestType : string) : string :=
  let destination :=
    if is_tvos then "platform=tvOS Simulator,name=Apple TV,OS=11.4"
    else "platform=iOS Simulator,name=iPhone 6s,OS=12.2" in
  let sdk := if is_tvos then "appletvsimulator" else "iphonesimulator" in
  let scheme := if is_tvos then "EndToEndTest-tvOS" else "EndToEndTest" in
  String.concat " "
    ["xcodebuild"; "-workspace"; quoted "EndToEndTest.xcworkspace";
     "-destination"; quoted destination;
     "-scheme"; quoted scheme;
     "-sdk"; sdk; "-UseModernBuildSystem=NO"; "test"]
  ++ " | " ++
  String.concat " "
    ["xcpretty"; "--report"; "junit"; "--output";
     quoted ("~/react-native/reports/junit/" ++ iosTestType ++ "-e2e/results.xml")]
  ++ " && exit ${PIPESTATUS[0]}".

(** *** The stages of the [try] block, in source order *)

(** Lines 44-53. *)
Definition setup : M State unit :=
  when (negb (skip_cli_install argv))
    (check (exec_code cli_install_cmd)
       ["Could not install react-native-cli globally.";
        "Run with --skip-cli-install to skip this step"]).

(** Lines 55-65. *)
Definition android_prebuild : M State unit :=
  when (android argv)
    (check (exec_code install_archives_cmd)
       ["Failed to compile Android binaries"]).

(** Lines 67-82. *)
Definition js_prebuild : M State unit :=
  when (js argv)
    (check (tryExecNTimes (exec_code flow_install_cmd) numberOfRetries
              (Some (exec_ sleep10)))
       ["Failed to install Flow";
        "Most common reason is npm registry connectivity, try again"]).

(** Lines 84-88. *)
Definition packaging : M State unit :=
  check (exec_code pack_cmd) ["Failed to pack react-native"].

(** Lines 90-111. *)
Definition scaffold (TEMP : string) : M State unit :=
  cd TEMP ;;
  echo "Creating EndToEndTest React Native app" ;;
  check (tryExecNTimes (exec_code init_cmd) numberOfRetries
           (Some (rm "-rf" "EndToEndTest" ;; exec_ sleep10)))
    ["Failed to execute react-native init";
     "Most common reason is npm registry connectivity, try again"].

(** Lines 113-116. *)
Definition copy_config : M State unit :=
  cp METRO_CONFIG "EndToEndTest/." ;;
  cp RN_POLYFILLS "EndToEndTest/.".

(** Lines 118-135. *)
Definition dependency_installation : M State unit :=
  cd "EndToEndTest" ;;
  echo "Installing React Native package" ;;
  exec_ install_package_cmd ;;
  echo "Installing node_modules" ;;
  check (tryExecNTimes (exec_code npm_install_cmd) numberOfRetries
           (Some (exec_ sleep10)))
    ["Failed to execute npm install";
     "Most common reason is npm registry connectivity, try again"].

(** Lines 137-206. *)
Definition android_branch : M State unit :=
  when (android argv)
    (describe "Executing Android end-to-end tests" ;;
     echo "Installing end-to-end framework" ;;
     check (tryExecNTimes (exec_code appium_install_cmd) numberOfRetries None)
       ["Failed to install appium";
        "Most common reason is npm registry connectivity, try again"] ;;
     cp (SCRIPTS ++ "/android-e2e-test.js") "android-e2e-test.js" ;;
     cd "android" ;;
     echo "Downloading Maven deps" ;;
     exec_ maven_deps_cmd ;;
     cd ".." ;;
     exec_ rm_keystore_cmd ;;
     check (exec_code keytool_cmd) ["Key could not be generated"] ;;
     st <- get ;;
     echo ("Starting appium server, " ++ show_js (APPIUM_PID st)) ;;
     appiumProcess <- spawn "node" ["./node_modules/.bin/appium"] ;;
     set_APPIUM_PID appiumProcess ;;
     echo "Building the app" ;;
     check (exec_code run_android_cmd)
       ["could not execute react-native run-android"] ;;
     st <- get ;;
     echo ("Starting packager server, " ++ show_js (SERVER_PID st)) ;;
     packagerProcess <- spawn "yarn" ["start"; "--max-workers 1"] ;;
     set_SERVER_PID packagerProcess ;;
     exec_ sleep15 ;;
     describe "Test: Android end-to-end test" ;;
     check (tryExecNTimes (exec_code mocha_cmd) numberOfRetries
              (Some (exec_ sleep10)))
       ["Failed to run Android end-to-end tests";
        "Most likely the code is broken"]).

Definition iosTestType : string := if tvos argv then "tvOS" else "iOS".

(** Lines 208-277. *)
Definition ios_branch : M State unit :=
  when (ios argv || tvos argv)
    (describe ("Executing " ++ iosTestType ++ " end-to-end tests") ;;
     cd "ios" ;;
     packagerProcess <- spawn "yarn" ["start"] ;;
     set_SERVER_PID packagerProcess ;;
     exec_ sleep15 ;;
     exec_ curl_cmd ;;
     st <- get ;;
     echo ("Starting packager server, " ++ show_js (SERVER_PID st)) ;;
     echo "Running pod install" ;;
     exec_ pod_install_cmd ;;
     describe ("Test: " ++ iosTestType ++ " end-to-end test") ;;
     check (tryExecNTimes (exec_code (xcodebuild_cmd (tvos argv) iosTestType))
              numberOfRetries (Some (exec_ sleep10)))
       [("Failed to run " ++ iosTestType ++ " end-to-end tests")%string;
        "Most likely the code is broken"] ;;
     cd "..").

(** Lines 279-308. *)
Definition js_branch : M State unit :=
  when (js argv)
    (describe "Executing JavaScript end-to-end tests" ;;
     describe "Test: Verify packager can generate an Android bundle" ;;
     check (exec_code android_bundle_cmd) ["Could not build Android bundle"] ;;
     describe "Test: Verify packager can generate an iOS bundle" ;;
     check (exec_code ios_bundle_cmd) ["Could not build iOS bundle"] ;;
     describe "Test: Flow check" ;;
     check (exec_code flow_check_cmd) ["Flow check failed."]).

(** Lines 43-309: the body of [try]. *)
Definition try_block (TEMP : string) : M State unit :=
  setup ;;
  android_prebuild ;;
  js_prebuild ;;
  packaging ;;
  scaffold TEMP ;;
  copy_config ;;
  dependency_installation ;;
  android_branch ;;
  ios_branch ;;
  js_branch ;;
  set_exitCode 0.

(** Lines 310-322: the body of [finally]. *)
Definition finally_block : M State unit :=
  st <- get ;;
  when (truthy_opt (SERVER_PID st))
    (echo ("Killing packager " ++ show_js (SERVER_PID st)) ;;
     exec_ (kill_cmd (SERVER_PID st)) ;;
     exec_ sweep_cmd) ;;
  st <- get ;;
  when (truthy_opt (APPIUM_PID st))
    (echo ("Killing appium " ++ show_js (APPIUM_PID st)) ;;
     exec_ (kill_cmd (APPIUM_PID st))).

(** Lines 33-322, up to [exit(exitCode)]. *)
Definition script : M State unit :=
  tmp <- exec mktemp_cmd ;;
  try_finally (try_block (trim (stdout tmp))) finally_block.
End Script.

(** How the process ends: [exit(exitCode)] at line 323 when the [try]
    statement completes normally, or an exception nobody catches. *)
Inductive Outcome : Type :=
| Exited (status : option Z)
| Uncaught (e : Exn).

(** The status [exit(v)] gives: [exit(undefined)] leaves the default 0. *)
Definition status_of (v : option Z) : Z :=
  match v with Some z => z | None => 0 end.

(** The exit status the operating system sees.  [exit(undefined)] leaves
    the default status 0; Node ends with status 1 on an uncaught
    exception. *)
Definition process_status (o : Outcome) : Z :=
  match o with
  | Exited v => status_of v
  | Uncaught _ => 1
  end.

Definition run (env : Env) (argv : Argv) : Outcome * State :=
  match script env argv initial_state with
  | (Normal _, st) => (Exited (exitCode st), st)
  | (Thrown e, st) => (Uncaught e, st)
  end.

Definition exit_status (env : Env) (argv : Argv) : Z :=
  process_status (fst (run env argv)).

Definition run_trace (env : Env) (argv : Argv) : list Event :=
  trace (snd (run env argv)).


(* ================================================================= *)
(** ** Specifications of monadic code *)

(** [hoare P m Q E]: started in a state satisfying [P], [m] either ends
    normally with a value and state related by [Q], or throws with the
    exception and state related by [E].  Every computation of [M] returns,
    so this is total correctness. *)
Definition hoare {S A} (P : S -> Prop) (m : M S A)
           (Q : A -> S -> Prop) (E : Exn -> S -> Prop) : Prop :=
  forall s, P s ->
    match m s with
    | (Normal a, s') => Q a s'
    | (Thrown e, s') => E e s'
    end.

(* ================================================================= *)
(** ** The Retrier observed through a call log *)

(** To count invocations, an arbitrary operation and an arbitrary recovery
    action over any state are run next to a log that records each call, and
    for the operation the signal it produced. *)
Module RetrierLog.

Inductive Call : Type :=
| OpCall (signal : Z)
| RecoveryCall.

Section Logged.
Variable S : Type.
Variable operation : S -> Z * S.
Variable recovery : option (S -> S).

Definition logged_operation : M (S * list Call) Z :=
  fun sl =>
    let (c, s') := operation (fst sl) in
    (Normal c, (s', snd sl ++ [OpCall c])).

Definition logged_recovery : option (M (S * list Call) unit) :=
  match recovery with
  | Some r => Some (fun sl => (Normal tt, (r (fst sl), snd sl ++ [RecoveryCall])))
  | None => None
  end.

Definition has_recovery : bool :=
  match recovery with Some _ => true | None => false end.

(** The log of the attempts whose signals are [signals], with one
    recovery call between consecutive attempts when there is a recovery
    action. *)
Fixpoint attempts_log (signals : list Z) : list Call :=
  match signals with
  | [] => []
  | c :: rest =>
      OpCall c ::
      match rest with
      | [] => []
      | _ :: _ => (if has_recovery then [RecoveryCall] else []) ++ attempts_log rest
      end
  end.

Definition is_op (c : Call) : bool :=
  match c with OpCall _ => true | RecoveryCall => false end.

Definition op_calls (log : list Call) : nat :=
  List.length (filter is_op log).

Definition recovery_calls (log : list Call) : nat :=
  List.length (filter (fun c => negb (is_op c)) log).

(** The Retrier run on the logged operation, from an empty log. *)
Definition logged_run (N : nat) (s : S) : Result Z * (S * list Call) :=
  tryExecNTimes logged_operation N logged_recovery (s, []).

End Logged.
End RetrierLog.

(* ================================================================= *)
(** ** Observations on traces *)

(** The commands of the script by what it does with their exit code:
    inspected once, inspected through the Retrier, or dropped. *)
Definition inspected_once (env : Env) : list string :=
  [cli_install_cmd; install_archives_cmd; pack_cmd; keytool_cmd;
   run_android_cmd; android_bundle_cmd; ios_bundle_cmd; flow_check_cmd env].

Definition retried (env : Env) (argv : Argv) : list string :=
  [flow_install_cmd; init_cmd env; npm_install_cmd; appium_install_cmd;
   mocha_cmd; xcodebuild_cmd (tvos argv) (iosTestType argv)].

Definition inspected (env : Env) (argv : Argv) : list string :=
  inspected_once env ++ retried env argv.

Definition discarded (env : Env) : list string :=
  [sleep10; install_package_cmd env; maven_deps_cmd; rm_keystore_cmd;
   sleep15; curl_cmd; pod_install_cmd].

Definition is_exec_of (cmd : string) (e : Event) : bool :=
  match e with
  | EvExec c _ => String.eqb c cmd
  | _ => false
  end.

(** How many times [cmd] was run. *)
Definition count_exec (cmd : string) (tr : list Event) : nat :=
  List.length (filter (is_exec_of cmd) tr).

(** [cmd] was run at least once. *)
Definition executed (cmd : string) (tr : list Event) : Prop :=
  exists k, In (EvExec cmd k) tr.

(** A termination call: [kill ...], or the sweep of the dev-server port. *)
Definition termination_call (e : Event) : bool :=
  match e with
  | EvExec c _ => prefix "kill" c || String.eqb c sweep_cmd
  | _ => false
  end.

(** The [pid] of the most recent [spawn] of [cmd]; [None] ([undefined])
    when there was none. *)
Definition last_spawn (cmd : string) (tr : list Event) : option Z :=
  fold_left
    (fun acc e =>
       match e with
       | EvSpawn c _ p => if String.eqb c cmd then p else acc
       | _ => acc
       end)
    tr None.

(** What Finalization does for a packager handle [server] and an appium
    handle [appium]; [k1], [k2], [k3] are the exit codes of its commands. *)
Definition finalization_events (server appium : option Z) (k1 k2 k3 : Z)
  : list Event :=
  (if truthy_opt server
   then [EvEcho ("Killing packager " ++ show_js server);
         EvExec (kill_cmd server) k1;
         EvExec sweep_cmd k2]
   else [])
  ++
  (if truthy_opt appium
   then [EvEcho ("Killing appium " ++ show_js appium);
         EvExec (kill_cmd appium) k3]
   else []).

(** The trace ends with a failed run of [cmd] followed by messages only. *)
Definition aborted_at (cmd : string) (tr : list Event) : Prop :=
  exists pre k msgs,
    tr = pre ++ EvExec cmd k :: map EvEcho msgs /\ k <> 0.

(** The recovery actions the script hands to the Retrier. *)
Definition recoveries (env : Env) : list (option (M State unit)) :=
  [None;
   Some (exec_ env sleep10);
   Some (rm "-rf" "EndToEndTest" ;; exec_ env sleep10)].

(** [Kept env argv I E]: every kind of statement of the [try] block, other
    than a [spawn] assigned to a variable, keeps [I] when it completes and
    establishes [E] when it throws. *)
Record Kept (env : Env) (argv : Argv)
       (I : State -> Prop) (E : Exn -> State -> Prop) : Prop := mkKept {
  kept_echo : forall msg, hoare I (echo msg) (fun _ => I) E;
  kept_cd : forall dir, hoare I (cd dir) (fun _ => I) E;
  kept_cp : forall src dst, hoare I (cp src dst) (fun _ => I) E;
  kept_discard :
    forall cmd, In cmd (discarded env) ->
      hoare I (exec_ env cmd) (fun _ => I) E;
  kept_check :
    forall cmd msgs, In cmd (inspected_once env) ->
      hoare I (check (exec_code env cmd) msgs) (fun _ => I) E;
  kept_retry :
    forall cmd rec msgs, In cmd (retried env argv) -> In rec (recoveries env) ->
      hoare I (check (tryExecNTimes (exec_code env cmd) (numberOfRetries argv) rec) msgs)
            (fun _ => I) E
}.

(** [KeptBySpawn env I E]: the same for the two statements that start a
    background process and store its [pid]. *)
Record KeptBySpawn (env : Env)
       (I : State -> Prop) (E : Exn -> State -> Prop) : Prop := mkKeptBySpawn {
  kept_appium :
    forall args,
      hoare I (p <- spawn env "node" args ;; set_APPIUM_PID p) (fun _ => I) E;
  kept_server :
    forall args,
      hoare I (p <- spawn env "yarn" args ;; set_SERVER_PID p) (fun _ => I) E
}.

Definition is_spawn (e : Event) : bool :=
  match e with
  | EvSpawn _ _ _ => true
  | _ => false
  end.

Definition is_exec (e : Event) : bool :=
  match e with
  | EvExec _ _ => true
  | _ => false
  end.

(** Several events appended in order. *)
Definition emit_all (evs : list Event) (st : State) : State :=
  fold_left (fun s e => emit e s) evs st.

(** The state in which the [try] block starts: [mktemp] has run. *)
Definition TEMP_result (env : Env) : ExecResult :=
  exec_result env [] mktemp_cmd.

Definition TEMP (env : Env) : string := trim (stdout (TEMP_result env)).

Definition try_start (env : Env) : State :=
  emit (EvExec mktemp_cmd (code (TEMP_result env))) initial_state.

(** Every command the [try] block can run. *)
Definition try_block_cmds (env : Env) (argv : Argv) : list string :=
  discarded env ++ inspected_once env ++ retried env argv.

(* ================================================================= *)
(** ** Sample inputs *)

(** Where the sample runs live. *)
Definition sample_dirname : list string :=
  ["home"; "ci"; "react-native"; "scripts"].

Definition sample_stdout : string := "/tmp/react-native-Ab3dE9xQ" ++ nl.

(** An environment in which every command succeeds except those listed,
    which exit with 1 every time, and the n-th event of a run, when it is
    a [spawn], returns pid [100 + n]. *)
Definition env_failing (failing : list string) : Env :=
  {| dirname := sample_dirname;
     exec_result := fun _ cmd =>
       {| code := if existsb (String.eqb cmd) failing then 1 else 0;
          stdout := sample_stdout |};
     spawn_pid := fun history _ _ => Some (100 + Z.of_nat (List.length history)) |}.

Definition env_ok : Env := env_failing [].

(** An environment in which [cmd] fails the first time it is run and
    succeeds afterwards; everything else succeeds. *)
Definition env_flaky_once (cmd : string) : Env :=
  {| dirname := sample_dirname;
     exec_result := fun history c =>
       {| code := if String.eqb c cmd && negb (existsb (is_exec_of cmd) history)
                  then 1 else 0;
          stdout := sample_stdout |};
     spawn_pid := fun history _ _ => Some (100 + Z.of_nat (List.length history)) |}.

(** Command lines. *)
Definition no_flags : Argv :=
  {| android := false; ios := false; tvos := false; js := false;
     skip_cli_install := false; retries := None |}.

Definition with_retries (n : option nat) (a : Argv) : Argv :=
  {| android := android a; ios := ios a; tvos := tvos a; js := js a;
     skip_cli_install := skip_cli_install a; retries := n |}.

Definition with_ios (b : bool) (a : Argv) : Argv :=
  {| android := android a; ios := b; tvos := tvos a; js := js a;
     skip_cli_install := skip_cli_install a; retries := retries a |}.

Definition argv_android : Argv :=
  {| android := true; ios := false; tvos := false; js := false;
     skip_cli_install := false; retries := None |}.

Definition argv_android_ios : Argv :=
  {| android := true; ios := true; tvos := false; js := false;
     skip_cli_install := false; retries := None |}.

Definition argv_ios_tvos : Argv :=
  {| android := false; ios := true; tvos := true; js := false;
     skip_cli_install := false; retries := None |}.

Definition argv_js : Argv :=
  {| android := false; ios := false; tvos := false; js := true;
     skip_cli_install := false; retries := None |}.

(** An operation over a counter that fails on its first two calls and
    succeeds from the third on, and a recovery action that leaves the
    counter alone. *)
Definition flaky_twice (calls : nat) : Z * nat :=
  (if (calls <? 2)%nat then 1 else 0, Datatypes.S calls).

Definition keep_counter : option (nat -> nat) := Some (fun calls => calls).

(* ================================================================= *)
(** ** Invariants of the [try] block *)

Definition no_termination_call (e : Event) : bool := negb (termination_call e).

(** No termination call was made so far, and each process variable holds
    what the most recent [spawn] of its kind returned. *)
Definition handles_tracked (st : State) : Prop :=
  forallb no_termination_call (trace st) = true
  /\ SERVER_PID st = last_spawn "yarn" (trace st)
  /\ APPIUM_PID st = last_spawn "node" (trace st).

(** The trivial precondition, and the postcondition of code that cannot
    throw. *)
Definition anything : State -> Prop := fun _ => True.
Definition never : Exn -> State -> Prop := fun _ _ => False.

(** [cmd] has not been run. *)
Definition not_run (cmd : string) (tr : list Event) : Prop :=
  forallb (fun e => negb (is_exec_of cmd e)) tr = true.

(** Every command whose exit code the script inspects succeeds whenever
    it is run. *)
Definition inspected_succeed (env : Env) (argv : Argv) : Prop :=
  forall history cmd,
    In cmd (inspected env argv) -> code (exec_result env history cmd) = 0.

(** The exit code of the most recent run of [cmd], if it was run. *)
Definition last_code (cmd : string) (tr : list Event) : option Z :=
  fold_left
    (fun acc e =>
       match e with
       | EvExec c k => if String.eqb c cmd then Some k else acc
       | _ => acc
       end)
    tr None.

(** The most recent run of [cmd], if any, succeeded. *)
Definition last_run_ok (cmd : string) (tr : list Event) : Prop :=
  match last_code cmd tr with
  | Some k => k = 0
  | None => True
  end.

(** [cmd] was run, and its most recent run failed: for a command run
    through the Retrier, the final attempt failed. *)
Definition last_run_failed (cmd : string) (tr : list Event) : Prop :=
  exists k, last_code cmd tr = Some k /\ k <> 0.

(** Every run of [cmd] so far returned zero. *)
Definition succeeded_so_far (cmd : string) (e : Event) : bool :=
  match e with
  | EvExec c k => negb (String.eqb c cmd) || (k =? 0)
  | _ => true
  end.

(** The run ends in [cmd]'s failure: its body stops there, messages
    follow, then Finalization for the handles the spawns returned; the
    status is 1. *)
Definition aborts_at (env : Env) (argv : Argv) (cmd : string) : Prop :=
  exit_status env argv = 1
  /\ exists body k1 k2 k3,
       run_trace env argv
       = body ++ finalization_events (last_spawn "yarn" body)
                                     (last_spawn "node" body) k1 k2 k3
       /\ aborted_at cmd body.

(** The commands of the Android branch whose exit code is inspected. *)
Definition android_inspected : list string :=
  [appium_install_cmd; keytool_cmd; run_android_cmd; mocha_cmd].

(** [--retries] is absent, or given as 0. *)
Definition falsy_retries (argv : Argv) : Prop :=
  retries argv = None \/ retries argv = Some 0%nat.

(** A run of [xcodebuild] is the tvOS one. *)
Definition xcodebuild_is_tvos (e : Event) : bool :=
  match e with
  | EvExec c _ =>
      negb (prefix "xcodebuild" c) || String.eqb c (xcodebuild_cmd true "tvOS")
  | _ => true
  end.

(** Every [xcodebuild] run so far was the tvOS one. *)
Definition only_tvos_tests (s : State) : Prop :=
  forallb xcodebuild_is_tvos (trace s) = true.

Definition is_rm_of (path : string) (e : Event) : bool :=
  match e with
  | EvRm _ p => String.eqb p path
  | _ => false
  end.

(** How many times [path] was removed. *)
Definition count_rm (path : string) (tr : list Event) : nat :=
  List.length (filter (is_rm_of path) tr).

(** The handles of processes started by [spawn(cmd, ...)] that are live
    after each event: a [spawn] that returns a pid adds it, [kill -9 pid]
    removes it. *)
Definition live_step (cmd : string) (live : list Z) (e : Event) : list Z :=
  match e with
  | EvSpawn c _ (Some p) => if String.eqb c cmd then live ++ [p] else live
  | EvExec c _ => filter (fun p => negb (String.eqb c (kill_cmd (Some p)))) live
  | _ => live
  end.

Definition live_handles (cmd : string) (tr : list Event) : list Z :=
  fold_left (live_step cmd) tr [].

(** The largest number of handles of [cmd] live at once during [tr]. *)
Fixpoint peak_live_from (cmd : string) (live : list Z) (tr : list Event) : nat :=
  match tr with
  | [] => List.length live
  | e :: tr' =>
      Nat.max (List.length live) (peak_live_from cmd (live_step cmd live e) tr')
  end.

Definition peak_live (cmd : string) (tr : list Event) : nat :=
  peak_live_from cmd [] tr.

(* ================================================================= *)
(** ** The statements of the [try] block, with their guards *)

(** Every statement that runs a command or starts a process, listed by
    kind, with the condition of the [if] that encloses it ([true] when
    there is none). *)

(** [if (exec(cmd).code) { echo(msgs...); exitCode = 1; throw ... }] *)
Definition checked_steps (env : Env) (argv : Argv)
  : list (bool * string * list string) :=
  [(negb (skip_cli_install argv), cli_install_cmd,
    ["Could not install react-native-cli globally.";
     "Run with --skip-cli-install to skip this step"]);
   (android argv, install_archives_cmd,
    ["Failed to compile Android binaries"]);
   (true, pack_cmd, ["Failed to pack react-native"]);
   (android argv, keytool_cmd, ["Key could not be generated"]);
   (android argv, run_android_cmd,
    ["could not execute react-native run-android"]);
   (js argv, android_bundle_cmd, ["Could not build Android bundle"]);
   (js argv, ios_bundle_cmd, ["Could not build iOS bundle"]);
   (js argv, flow_check_cmd env, ["Flow check failed."])].

(** [if (tryExecNTimes(() => exec(cmd).code, numberOfRetries, recovery))
    { echo(msgs...); exitCode = 1; throw ... }] *)
Definition retried_steps (env : Env) (argv : Argv)
  : list (bool * string * option (M State unit) * list string) :=
  [(js argv, flow_install_cmd, Some (exec_ env sleep10),
    ["Failed to install Flow";
     "Most common reason is npm registry connectivity, try again"]);
   (true, init_cmd env,
    Some (rm "-rf" "EndToEndTest" ;; exec_ env sleep10),
    ["Failed to execute react-native init";
     "Most common reason is npm registry connectivity, try again"]);
   (true, npm_install_cmd, Some (exec_ env sleep10),
    ["Failed to execute npm install";
     "Most common reason is npm registry connectivity, try again"]);
   (android argv, appium_install_cmd, None,
    ["Failed to install appium";
     "Most common reason is npm registry connectivity, try again"]);
   (android argv, mocha_cmd, Some (exec_ env sleep10),
    ["Failed to run Android end-to-end tests";
     "Most likely the code is broken"]);
   (ios argv || tvos argv,
    xcodebuild_cmd (tvos argv) (iosTestType argv),
    Some (exec_ env sleep10),
    [("Failed to run " ++ iosTestType argv ++ " end-to-end tests")%string;
     "Most likely the code is broken"])].

(** [exec(cmd);] as a statement. *)
Definition dropped_steps (env : Env) (argv : Argv) : list (bool * string) :=
  [(true, install_package_cmd env);
   (android argv, maven_deps_cmd);
   (android argv, rm_keystore_cmd);
   (android argv, sleep15);
   (ios argv || tvos argv, sleep15);
   (ios argv || tvos argv, curl_cmd);
   (ios argv || tvos argv, pod_install_cmd)].

(** [spawn(cmd, args)], whose pid goes to [APPIUM_PID] for [node] and to
    [SERVER_PID] for [yarn]. *)
Definition spawn_steps (argv : Argv) : list (bool * string * list string) :=
  [(android argv, "node", ["./node_modules/.bin/appium"]);
   (android argv, "yarn", ["start"; "--max-workers 1"]);
   (ios argv || tvos argv, "yarn", ["start"])].

(** The inspected steps with their messages, whether retried or not. *)
Definition failure_steps (env : Env) (argv : Argv)
  : list (bool * string * list string) :=
  checked_steps env argv
  ++ map (fun '(g, cmd, _, msgs) => (g, cmd, msgs)) (retried_steps env argv).

(* ================================================================= *)
(** ** What a run does, in order *)

(** An event without what the environment answered; messages are not
    actions. *)
Inductive Action : Type :=
| Run (cmd : string)
| Start (cmd : string) (args : list string)
| Chdir (dir : string)
| Copy (src dst : string)
| Remove (opts path : string).

Definition action_of (e : Event) : list Action :=
  match e with
  | EvExec cmd _ => [Run cmd]
  | EvEcho _ => []
  | EvCd dir => [Chdir dir]
  | EvCp src dst => [Copy src dst]
  | EvRm opts path => [Remove opts path]
  | EvSpawn cmd args _ => [Start cmd args]
  end.

Definition actions (tr : list Event) : list Action := flat_map action_of tr.

(** The statements of the [try] block other than [echo], in source order,
    each with the condition under which it is reached when nothing before
    it fails.  A retried step is listed once. *)
Definition pipeline (env : Env) (argv : Argv) : list (bool * Action) :=
  [(negb (skip_cli_install argv), Run cli_install_cmd);
   (android argv, Run install_archives_cmd);
   (js argv, Run flow_install_cmd);
   (true, Run pack_cmd);
   (true, Chdir (TEMP env));
   (true, Run (init_cmd env));
   (true, Copy (METRO_CONFIG env) "EndToEndTest/.");
   (true, Copy (RN_POLYFILLS env) "EndToEndTest/.");
   (true, Chdir "EndToEndTest");
   (true, Run (install_package_cmd env));
   (true, Run npm_install_cmd);
   (android argv, Run appium_install_cmd);
   (android argv, Copy (SCRIPTS env ++ "/android-e2e-test.js") "android-e2e-test.js");
   (android argv, Chdir "android");
   (android argv, Run maven_deps_cmd);
   (android argv, Chdir "..");
   (android argv, Run rm_keystore_cmd);
   (android argv, Run keytool_cmd);
   (android argv, Start "node" ["./node_modules/.bin/appium"]);
   (android argv, Run run_android_cmd);
   (android argv, Start "yarn" ["start"; "--max-workers 1"]);
   (android argv, Run sleep15);
   (android argv, Run mocha_cmd);
   (ios argv || tvos argv, Chdir "ios");
   (ios argv || tvos argv, Start "yarn" ["start"]);
   (ios argv || tvos argv, Run sleep15);
   (ios argv || tvos argv, Run curl_cmd);
   (ios argv || tvos argv, Run pod_install_cmd);
   (ios argv || tvos argv, Run (xcodebuild_cmd (tvos argv) (iosTestType argv)));
   (ios argv || tvos argv, Chdir "..");
   (js argv, Run android_bundle_cmd);
   (js argv, Run ios_bundle_cmd);
   (js argv, Run (flow_check_cmd env))].

(** Steps under one condition. *)
Definition under (g : bool) (steps : list Action) : list Action :=
  if g then steps else [].

(** The steps whose condition holds. *)
Definition selected (steps : list (bool * Action)) : list Action :=
  flat_map (fun step => under (fst step) [snd step]) steps.

(** ** Specifications indexed by the steps done *)

(** An exception thrown while [S] was being done after [L]: [E] holds of
    the steps done up to the one that threw. *)
Definition thrown_within (E : list Action -> Exn -> State -> Prop)
           (L S : list Action) : Exn -> State -> Prop :=
  fun e s => exists L1 L2, S = L1 ++ L2 /\ E (L ++ L1) e s.

(** [performs P E m S]: run after the steps [L], [m] does the steps [S]. *)
Definition performs {A} (P : list Action -> State -> Prop)
           (E : list Action -> Exn -> State -> Prop)
           (m : M State A) (S : list Action) : Prop :=
  forall L, hoare (P L) m (fun _ => P (L ++ S)) (thrown_within E L S).

(** [Stepwise env argv P E]: every statement of the [try] block that is
    reached (its guard holds) takes [P] from the steps done before it to
    the steps done after it, and an inspected step that throws establishes
    [E] of the steps up to itself.  The other statements do not throw. *)
Record Stepwise (env : Env) (argv : Argv)
       (P : list Action -> State -> Prop)
       (E : list Action -> Exn -> State -> Prop) : Prop := mkStepwise {
  step_echo :
    forall L msg X, hoare (P L) (echo msg) (fun _ => P L) X;
  step_cd :
    forall L dir X, hoare (P L) (cd dir) (fun _ => P (L ++ [Chdir dir])) X;
  step_cp :
    forall L src dst X,
      hoare (P L) (cp src dst) (fun _ => P (L ++ [Copy src dst])) X;
  step_drop :
    forall L g cmd X, In (g, cmd) (dropped_steps env argv) -> g = true ->
      hoare (P L) (exec_ env cmd) (fun _ => P (L ++ [Run cmd])) X;
  step_check :
    forall L g cmd msgs,
      In (g, cmd, msgs) (checked_steps env argv) -> g = true ->
      hoare (P L) (check (exec_code env cmd) msgs)
            (fun _ => P (L ++ [Run cmd])) (E (L ++ [Run cmd]));
  step_retry :
    forall L g cmd rec msgs,
      In (g, cmd, rec, msgs) (retried_steps env argv) -> g = true ->
      hoare (P L)
            (check (tryExecNTimes (exec_code env cmd) (numberOfRetries argv) rec) msgs)
            (fun _ => P (L ++ [Run cmd])) (E (L ++ [Run cmd]));
  step_appium :
    forall L g args X, In (g, "node", args) (spawn_steps argv) -> g = true ->
      hoare (P L) (p <- spawn env "node" args ;; set_APPIUM_PID p)
            (fun _ => P (L ++ [Start "node" args])) X;
  step_server :
    forall L g args X, In (g, "yarn", args) (spawn_steps argv) -> g = true ->
      hoare (P L) (p <- spawn env "yarn" args ;; set_SERVER_PID p)
            (fun _ => P (L ++ [Start "yarn" args])) X;
  step_exit :
    forall L X, hoare (P L) (set_exitCode 0) (fun _ => P L) X
}.

(* ================================================================= *)
(** ** What a run may do *)

(** An event of a reached statement of the [try] block, of a recovery
    action, or of line 33. *)
Definition reached (env : Env) (argv : Argv) (e : Event) : Prop :=
  match e with
  | EvExec cmd _ =>
      cmd = mktemp_cmd \/ cmd = sleep10
      \/ In (Run cmd) (selected (pipeline env argv))
  | EvSpawn cmd args _ => In (Start cmd args) (selected (pipeline env argv))
  | EvRm opts path => opts = "-rf" /\ path = "EndToEndTest"
  | EvEcho _ | EvCd _ | EvCp _ _ => True
  end.

(** The commands and processes of each target. *)
Definition android_steps : list Action :=
  [Run install_archives_cmd; Run appium_install_cmd; Run maven_deps_cmd;
   Run rm_keystore_cmd; Run keytool_cmd;
   Start "node" ["./node_modules/.bin/appium"];
   Run run_android_cmd;
   Start "yarn" ["start"; "--max-workers 1"];
   Run mocha_cmd].

Definition ios_steps : list Action :=
  [Start "yarn" ["start"]; Run curl_cmd; Run pod_install_cmd;
   Run (xcodebuild_cmd false "iOS"); Run (xcodebuild_cmd true "tvOS")].

Definition js_steps (env : Env) : list Action :=
  [Run flow_install_cmd; Run android_bundle_cmd; Run ios_bundle_cmd;
   Run (flow_check_cmd env)].

(** One more command line: [--js --skip-cli-install]. *)
Definition argv_skip : Argv :=
  {| android := false; ios := false; tvos := false; js := true;
     skip_cli_install := true; retries := None |}.

(** After line 33, exactly the steps [L] have been done, in order. *)
Definition done_exactly (L : list Action) (s : State) : Prop :=
  actions (trace s) = Run mktemp_cmd :: L.

(** The same, thrown out of the last of them, a command whose run
    failed. *)
Definition failed_after (L : list Action) (e : Exn) (s : State) : Prop :=
  done_exactly L s
  /\ exists before cmd,
       L = before ++ [Run cmd] /\ last_run_failed cmd (trace s).

(** Every step of [L] has been done. *)
Definition done_all (L : list Action) (s : State) : Prop :=
  forall a, In a L -> In a (actions (trace s)).

(* ================================================================= *)
(** ** Properties of every event in its context *)

(** [R] holds of every event of [tr] and of what came before it. *)
Definition each_prefix (R : list Event -> Event -> Prop) (tr : list Event)
  : Prop :=
  forall pre e post, tr = pre ++ e :: post -> R pre e.

(** An inspected command is run only while the latest run of every other
    inspected command, if there was one, succeeded. *)
Definition gate (env : Env) (argv : Argv) (pre : list Event) (e : Event)
  : Prop :=
  match e with
  | EvExec cmd _ =>
      In cmd (inspected env argv) ->
      forall other, In other (inspected env argv) -> other <> cmd ->
        last_run_ok other pre
  | _ => True
  end.

(** A recovery action is taken only after a failed attempt: the project
    directory is removed right after a failed [init], and [sleep 10s] is
    run right after a failed attempt of a retried command, or after that
    removal. *)
Definition after_failure (env : Env) (argv : Argv)
           (pre : list Event) (e : Event) : Prop :=
  match e with
  | EvRm _ _ =>
      exists pre' k, pre = pre' ++ [EvExec (init_cmd env) k] /\ k <> 0
  | EvExec cmd _ =>
      cmd = sleep10 ->
      exists pre' c k,
        In c (retried env argv) /\ k <> 0
        /\ (pre = pre' ++ [EvExec c k]
            \/ pre = pre' ++ [EvExec c k; EvRm "-rf" "EndToEndTest"])
  | _ => True
  end.

(** The failure branch of a reached inspected step was taken: its command
    returned non-zero, its messages were printed, [exitCode] was set to 1
    and [Error(1)] thrown. *)
Definition failed_step (env : Env) (argv : Argv) (e : Exn) (s : State)
  : Prop :=
  e = JsError "1"
  /\ exitCode s = Some 1
  /\ exists pre cmd k msgs,
       trace s = pre ++ EvExec cmd k :: map EvEcho msgs
       /\ k <> 0
       /\ In (true, cmd, msgs) (failure_steps env argv).

(** Every inspected command so far ended well. *)
Definition all_ok (env : Env) (argv : Argv) (tr : list Event) : Prop :=
  forall cmd, In cmd (inspected env argv) -> last_run_ok cmd tr.

(** The same, but for [cmd], which is being retried. *)
Definition others_ok (env : Env) (argv : Argv) (cmd : string)
           (tr : list Event) : Prop :=
  forall other, In other (inspected env argv) -> other <> cmd ->
    last_run_ok other tr.

(* ================================================================= *)
(** ** More sample inputs and observations *)

(** An environment in which every command succeeds and a packager cannot
    be started while one is running: once [yarn] has been spawned, a
    further [spawn] of it returns no pid.  Every other [spawn] returns pid
    [100 + n] as the n-th event of the run. *)
Definition env_packager_pid_lost : Env :=
  {| dirname := sample_dirname;
     exec_result := fun _ _ => {| code := 0; stdout := sample_stdout |};
     spawn_pid := fun history cmd _ =>
       match last_spawn "yarn" history with
       | Some _ => if String.eqb cmd "yarn" then None
                   else Some (100 + Z.of_nat (List.length history))
       | None => Some (100 + Z.of_nat (List.length history))
       end |}.

(** The last [n] events of a trace. *)
Definition last_events (n : nat) (tr : list Event) : list Event :=
  skipn (List.length tr - n) tr.

(* ================================================================= *)
(** ** Counting what a run does *)

(** The test command of the iOS/tvOS branch as the shell receives it when
    [argv.tvos] is set (lines 232-264): the tvOS simulator destination,
    the [appletvsimulator] SDK, the [EndToEndTest-tvOS] scheme and the
    [tvOS-e2e] report. *)
Definition tvos_test_cmd : string :=
  "xcodebuild -workspace " ++ quoted "EndToEndTest.xcworkspace"
  ++ " -destination " ++ quoted "platform=tvOS Simulator,name=Apple TV,OS=11.4"
  ++ " -scheme " ++ quoted "EndToEndTest-tvOS"
  ++ " -sdk appletvsimulator -UseModernBuildSystem=NO test"
  ++ " | xcpretty --report junit --output "
  ++ quoted "~/react-native/reports/junit/tvOS-e2e/results.xml"
  ++ " && exit ${PIPESTATUS[0]}".

Fixpoint strings_eqb (l l' : list string) : bool :=
  match l, l' with
  | [], [] => true
  | x :: t, x' :: t' => String.eqb x x' && strings_eqb t t'
  | _, _ => false
  end.

Definition action_eqb (a b : Action) : bool :=
  match a, b with
  | Run c, Run c' => String.eqb c c'
  | Start c args, Start c' args' => String.eqb c c' && strings_eqb args args'
  | Chdir d, Chdir d' => String.eqb d d'
  | Copy x y, Copy x' y' => String.eqb x x' && String.eqb y y'
  | Remove o q, Remove o' q' => String.eqb o o' && String.eqb q q'
  | _, _ => false
  end.

(** How many times [a] occurs in [L]. *)
Definition times (a : Action) (L : list Action) : nat :=
  List.length (filter (action_eqb a) L).

(** What the iOS/tvOS branch does once, before its test: it starts its
    packager (line 215), warms the bundle up (line 222) and installs the
    pods (line 227). *)
Definition ios_once : list Action :=
  [Start "yarn" ["start"]; Run curl_cmd; Run pod_install_cmd].

(** [a] was done as many times as it occurs among the steps [L]. *)
Definition counted (a : Action) (L : list Action) (s : State) : Prop :=
  times a (actions (trace s)) = times a L.

(** If [b] was done, it is one of the steps [L]. *)
Definition accounted (b : Action) (L : list Action) (s : State) : Prop :=
  In b (actions (trace s)) -> In b L.

(** The steps [L] end with an inspected command: the one that threw. *)
Definition ends_inspected (env : Env) (argv : Argv) (L : list Action) : Prop :=
  exists before cmd, L = before ++ [Run cmd] /\ In cmd (inspected env argv).

(* ================================================================= *)
(** ** Rules for specifications *)

Unset Implicit Arguments.

Section HoareRules.
Context {S : Type}.
Implicit Types (P : S -> Prop) (E : Exn -> S -> Prop).

Lemma hoare_ret A P (a : A) (Q : A -> S -> Prop) E :
  (forall s, P s -> Q a s) -> hoare P (ret a) Q E.
Proof. intros H s Hs. simpl. auto. Qed.

Lemma hoare_throw A P e (Q : A -> S -> Prop) E :
  (forall s, P s -> E e s) -> hoare P (throw e) Q E.
Proof. intros H s Hs. simpl. auto. Qed.

Lemma hoare_bind A B P (m : M S A) (f : A -> M S B)
      (R : A -> S -> Prop) (Q : B -> S -> Prop) E :
  hoare P m R E ->
  (forall a, hoare (R a) (f a) Q E) ->
  hoare P (bind m f) Q E.
Proof.
  intros Hm Hf s Hs. unfold bind.
  specialize (Hm s Hs). destruct (m s) as [[a|e] s']; auto.
  apply Hf; assumption.
Qed.

Lemma hoare_assoc A B C P (m : M S A) (f : A -> M S B) (g : B -> M S C)
      (Q : C -> S -> Prop) E :
  hoare P (bind (bind m f) g) Q E ->
  hoare P (bind m (fun a => bind (f a) g)) Q E.
Proof.
  intros H s Hs. specialize (H s Hs). unfold bind in *.
  destruct (m s) as [[a|e] s']; auto.
Qed.

Lemma hoare_conseq A (P P' : S -> Prop) (m : M S A)
      (Q Q' : A -> S -> Prop) (E E' : Exn -> S -> Prop) :
  hoare P' m Q' E' ->
  (forall s, P s -> P' s) ->
  (forall a s, Q' a s -> Q a s) ->
  (forall e s, E' e s -> E e s) ->
  hoare P m Q E.
Proof.
  intros H HP HQ HE s Hs. specialize (H s (HP s Hs)).
  destruct (m s) as [[a|e] s']; auto.
Qed.

Lemma hoare_and A (P P' : S -> Prop) (m : M S A)
      (Q Q' : A -> S -> Prop) (E E' : Exn -> S -> Prop) :
  hoare P m Q E ->
  hoare P' m Q' E' ->
  hoare (fun s => P s /\ P' s) m
        (fun a s => Q a s /\ Q' a s) (fun e s => E e s /\ E' e s).
Proof.
  intros H H' s [Hs Hs']. specialize (H s Hs). specialize (H' s Hs').
  destruct (m s) as [[a|e] s']; auto.
Qed.

Lemma hoare_get P (Q : S -> S -> Prop) E :
  (forall s, P s -> Q s s) -> hoare P get Q E.
Proof. intros H s Hs. simpl. auto. Qed.

Lemma hoare_modify P (f : S -> S) (Q : unit -> S -> Prop) E :
  (forall s, P s -> Q tt (f s)) -> hoare P (modify f) Q E.
Proof. intros H s Hs. simpl. auto. Qed.

Lemma hoare_when P (b : bool) (m : M S unit) (Q : unit -> S -> Prop) E :
  (b = true -> hoare P m Q E) ->
  (b = false -> forall s, P s -> Q tt s) ->
  hoare P (when b m) Q E.
Proof.
  intros Ht Hf. destruct b; simpl.
  - apply Ht; reflexivity.
  - apply hoare_ret. apply Hf; reflexivity.
Qed.

(** Sequencing under an invariant. *)
Lemma hoare_seq A B (I : S -> Prop) (m : M S A) (f : A -> M S B)
      (Q : B -> S -> Prop) E :
  hoare I m (fun _ => I) E ->
  (forall a, hoare I (f a) Q E) ->
  hoare I (bind m f) Q E.
Proof. intros Hm Hf. eapply hoare_bind; [exact Hm | exact Hf]. Qed.

(** The Retrier: if every attempt started under [I] ends in [R], and
    recovery after a failed attempt restores [I], the state in which the
    Retrier returns [c] is the one the last attempt left, in [R c]. *)
Lemma hoare_retry_loop (I : S -> Prop) (R : Z -> S -> Prop) E
      (op : M S Z) (rec : option (M S unit)) (more : nat) :
  hoare I op R E ->
  (forall c, c <> 0 -> hoare (R c) (call_opt rec) (fun _ => I) E) ->
  hoare I (retry_loop op rec more) R E.
Proof.
  intros Hop Hrec. induction more as [|k IH]; simpl.
  - eapply hoare_bind; [exact Hop|]. intros c.
    destruct (Z.eqb_spec c 0); apply hoare_ret; auto.
  - eapply hoare_bind; [exact Hop|]. intros c.
    destruct (Z.eqb_spec c 0) as [Hc|Hc].
    + apply hoare_ret; auto.
    + eapply hoare_bind; [apply Hrec; exact Hc|]. intros u. exact IH.
Qed.

Lemma hoare_tryExecNTimes (I : S -> Prop) (R : Z -> S -> Prop) E
      (op : M S Z) (N : nat) (rec : option (M S unit)) :
  hoare I op R E ->
  (forall c, c <> 0 -> hoare (R c) (call_opt rec) (fun _ => I) E) ->
  hoare I (tryExecNTimes op N rec) R E.
Proof. intros. unfold tryExecNTimes. apply hoare_retry_loop; assumption. Qed.

End HoareRules.

(* ================================================================= *)
(** ** The Retrier *)

Module RetrierFacts.
Import RetrierLog.

Section Logged.
Variable S : Type.
Variable operation : S -> Z * S.
Variable recovery : option (S -> S).

Let attempts := attempts_log recovery.
Let with_recovery := has_recovery recovery.

Lemma attempts_log_cons c c' rest :
  attempts (c :: c' :: rest) =
  OpCall c :: (if with_recovery then [RecoveryCall] else []) ++ attempts (c' :: rest).
Proof. reflexivity. Qed.

Lemma op_calls_attempts signals :
  op_calls (attempts signals) = List.length signals.
Proof.
  unfold op_calls. induction signals as [|c [|c' rest] IH]; try reflexivity.
  rewrite attempts_log_cons. cbn [filter is_op List.length].
  rewrite filter_app. rewrite length_app, IH.
  destruct with_recovery; reflexivity.
Qed.

Lemma recovery_calls_attempts signals :
  recovery_calls (attempts signals) =
  if with_recovery then Nat.pred (List.length signals) else 0%nat.
Proof.
  unfold recovery_calls. induction signals as [|c [|c' rest] IH].
  - destruct with_recovery; reflexivity.
  - destruct with_recovery; reflexivity.
  - rewrite attempts_log_cons. cbn [filter is_op negb].
    rewrite filter_app, length_app, IH.
    destruct with_recovery; reflexivity.
Qed.

Lemma attempts_log_snoc failures final :
  exists l, attempts (failures ++ [final]) = l ++ [OpCall final].
Proof.
  induction failures as [|c rest [l IH]].
  - exists []. reflexivity.
  - exists (OpCall c :: (if with_recovery then [RecoveryCall] else []) ++ l).
    cbn [app]. destruct rest as [|c' rest'].
    + cbn [app] in *. rewrite attempts_log_cons, IH.
      rewrite <- app_assoc. reflexivity.
    + cbn [app] in *. rewrite attempts_log_cons, IH.
      rewrite <- app_assoc. reflexivity.
Qed.

Lemma last_attempts failures final :
  last (attempts (failures ++ [final])) RecoveryCall = OpCall final.
Proof.
  destruct (attempts_log_snoc failures final) as [l ->]. apply last_last.
Qed.

Lemma retry_loop_log (more : nat) :
  forall (s : S) (log : list Call),
  exists failures final s',
    retry_loop (logged_operation operation) (logged_recovery recovery) more (s, log)
      = (Normal final, (s', log ++ attempts (failures ++ [final])))
    /\ Forall (fun c => c <> 0) failures
    /\ (List.length failures <= more)%nat
    /\ (final = 0 \/ List.length failures = more).
Proof.
  induction more as [|k IH]; intros s log.
  - cbn [retry_loop]. unfold bind, logged_operation. cbn [fst snd].
    destruct (operation s) as [c s1].
    exists [], c, s1. cbn [app attempts_log].
    destruct (Z.eqb_spec c 0); (split; [reflexivity|]);
      repeat split; auto.
  - cbn [retry_loop]. unfold bind at 1. unfold logged_operation at 1.
    cbn [fst snd]. destruct (operation s) as [c s1].
    destruct (Z.eqb_spec c 0) as [Hc|Hc].
    + exists [], c, s1. cbn [app attempts_log ret].
      repeat split; auto. cbn; lia.
    + unfold bind at 1.
      assert (Hrec : exists s2,
                 call_opt (logged_recovery recovery) (s1, log ++ [OpCall c])
                 = (Normal tt,
                    (s2, (log ++ [OpCall c])
                           ++ (if with_recovery then [RecoveryCall] else [])))).
      { unfold logged_recovery, has_recovery.
        destruct recovery as [r|]; cbn [call_opt fst snd].
        - eexists; reflexivity.
        - exists s1. unfold ret. rewrite app_nil_r. reflexivity. }
      destruct Hrec as [s2 Hrec]. rewrite Hrec.
      destruct (IH s2 ((log ++ [OpCall c])
                         ++ (if with_recovery then [RecoveryCall] else [])))
        as (failures & final & s' & Hrun & Hfail & Hlen & Hlast).
      exists (c :: failures), final, s'.
      split.
      { rewrite Hrun. f_equal. f_equal.
        cbn [app]. destruct failures as [|c' rest];
          cbn [app]; rewrite attempts_log_cons;
          rewrite <- !app_assoc; reflexivity. }
      split; [constructor; assumption|].
      split; [cbn; lia|].
      destruct Hlast as [?|?]; [left; assumption | right; cbn; lia].
Qed.

End Logged.

(** C1.  For every maximum attempt count [N >= 1], operation and optional
    recovery action, the Retrier returns the signal [final] of its last
    attempt after attempts that all failed ([failures]); the calls it made
    are, in order, the attempts with one recovery call between consecutive
    attempts and none after the last.  Hence the operation is invoked at
    most [N] times, the Retrier stops at the first success (a failure is
    returned only when all [N] attempts were used), and a run that uses all
    [N] attempts invokes a recovery action exactly [N - 1] times. *)
Theorem tryExecNTimes_attempts
        (S : Type) (operation : S -> Z * S) (recovery : option (S -> S))
        (N : nat) (s : S) :
  (1 <= N)%nat ->
  exists failures final s',
    let log := attempts_log recovery (failures ++ [final]) in
    logged_run operation recovery N s = (Normal final, (s', log))
    /\ Forall (fun c => c <> 0) failures
    /\ (final = 0 \/ op_calls log = N)
    /\ (1 <= op_calls log <= N)%nat
    /\ last log RecoveryCall = OpCall final
    /\ recovery_calls log
       = (if has_recovery recovery then op_calls log - 1 else 0)%nat
    /\ (op_calls log = N -> has_recovery recovery = true ->
        recovery_calls log = (N - 1)%nat).
Proof.
  intros HN.
  destruct (retry_loop_log S operation recovery (Nat.pred N) s [])
    as (failures & final & s' & Hrun & Hfail & Hlen & Hlast).
  exists failures, final, s'. cbn zeta.
  assert (Hops : op_calls (attempts_log recovery (failures ++ [final]))
                 = Datatypes.S (List.length failures)).
  { rewrite (op_calls_attempts S), length_app. cbn. lia. }
  assert (Hrecs : recovery_calls (attempts_log recovery (failures ++ [final]))
                  = if has_recovery recovery then List.length failures else 0%nat).
  { rewrite (recovery_calls_attempts S), length_app. cbn.
    destruct (has_recovery recovery); lia. }
  split; [exact Hrun|].
  split; [exact Hfail|].
  split; [destruct Hlast; [left; assumption | right; lia]|].
  split; [lia|].
  split; [apply last_attempts|].
  split.
  - rewrite Hrecs, Hops. destruct (has_recovery recovery); lia.
  - intros HopsN Hhas. rewrite Hrecs, Hhas. lia.
Qed.

End RetrierFacts.

Lemma tryExecNTimes_attempts_witness :
  exists failures final s',
    let log := RetrierLog.attempts_log keep_counter (failures ++ [final]) in
    RetrierLog.logged_run flaky_twice keep_counter 3 0%nat = (Normal final, (s', log))
    /\ Forall (fun c => c <> 0) failures
    /\ (final = 0 \/ RetrierLog.op_calls log = 3%nat)
    /\ (1 <= RetrierLog.op_calls log <= 3)%nat
    /\ last log RetrierLog.RecoveryCall = RetrierLog.OpCall final
    /\ RetrierLog.recovery_calls log
       = (if RetrierLog.has_recovery keep_counter
          then RetrierLog.op_calls log - 1 else 0)%nat
    /\ (RetrierLog.op_calls log = 3%nat ->
        RetrierLog.has_recovery keep_counter = true ->
        RetrierLog.recovery_calls log = (3 - 1)%nat).
Proof.
  apply (RetrierFacts.tryExecNTimes_attempts nat flaky_twice keep_counter 3 0%nat).
  lia.
Defined.

(* ================================================================= *)
(** ** The [try] block, statement by statement *)

(** An invariant [I] that every kind of statement of the script keeps
    (normally, or throwing into [E]) is kept by every stage, and by the
    whole [try] block. *)
Lemma hoare_get_any (I : State -> Prop) (E : Exn -> State -> Prop) :
  hoare I get (fun _ => I) E.
Proof. apply hoare_get; auto. Qed.

Ltac in_list :=
  unfold discarded, inspected_once, retried, recoveries; cbn [In];
  repeat first [left; reflexivity | right].

(** One statement whose rule is in [K]. *)
Ltac walk_prim K :=
  first
    [ apply (kept_echo K) | apply (kept_cd K) | apply (kept_cp K)
    | match goal with |- hoare _ get _ _ => apply hoare_get_any end
    | apply (kept_discard K); in_list
    | apply (kept_check K); in_list
    | apply (kept_retry K); in_list ].

(** One statement of a sequence, or its last one. *)
Ltac walk_step K KS :=
  first
    [ eapply hoare_seq; [solve [walk_prim K] | intros ?]
    | apply hoare_assoc; eapply hoare_seq;
      [solve [apply (kept_appium KS) | apply (kept_server KS)] | intros ?]
    | solve [walk_prim K] ].

Ltac walk K KS := repeat walk_step K KS.

Section StageRules.
Variable env : Env.
Variable argv : Argv.
Variable I : State -> Prop.
Variable E : Exn -> State -> Prop.
Hypothesis K : Kept env argv I E.
Hypothesis KS : KeptBySpawn env I E.

Ltac stage := walk K KS.

Lemma setup_rule : hoare I (setup env argv) (fun _ => I) E.
Proof. unfold setup. apply hoare_when; [intros _; stage | intros _ s Hs; exact Hs]. Qed.

Lemma android_prebuild_rule : hoare I (android_prebuild env argv) (fun _ => I) E.
Proof.
  unfold android_prebuild. apply hoare_when; [intros _; stage | intros _ s Hs; exact Hs].
Qed.

Lemma js_prebuild_rule : hoare I (js_prebuild env argv) (fun _ => I) E.
Proof.
  unfold js_prebuild. apply hoare_when; [intros _; stage | intros _ s Hs; exact Hs].
Qed.

Lemma packaging_rule : hoare I (packaging env) (fun _ => I) E.
Proof. unfold packaging. stage. Qed.

Lemma scaffold_rule TEMP : hoare I (scaffold env argv TEMP) (fun _ => I) E.
Proof. unfold scaffold. stage. Qed.

Lemma copy_config_rule : hoare I (copy_config env) (fun _ => I) E.
Proof. unfold copy_config. stage. Qed.

Lemma dependency_installation_rule :
  hoare I (dependency_installation env argv) (fun _ => I) E.
Proof. unfold dependency_installation. stage. Qed.

Lemma android_branch_rule : hoare I (android_branch env argv) (fun _ => I) E.
Proof.
  unfold android_branch, describe.
  apply hoare_when; [intros _; stage | intros _ s Hs; exact Hs].
Qed.

Lemma ios_branch_rule : hoare I (ios_branch env argv) (fun _ => I) E.
Proof.
  unfold ios_branch, describe.
  apply hoare_when; [intros _; stage | intros _ s Hs; exact Hs].
Qed.

Lemma js_branch_rule : hoare I (js_branch env argv) (fun _ => I) E.
Proof.
  unfold js_branch, describe.
  apply hoare_when; [intros _; stage | intros _ s Hs; exact Hs].
Qed.

Lemma try_block_rule TEMP (Q : unit -> State -> Prop) :
  hoare I (set_exitCode 0) Q E ->
  hoare I (try_block env argv TEMP) Q E.
Proof.
  intros Hdone. unfold try_block.
  eapply hoare_seq; [apply setup_rule | intros _].
  eapply hoare_seq; [apply android_prebuild_rule | intros _].
  eapply hoare_seq; [apply js_prebuild_rule | intros _].
  eapply hoare_seq; [apply packaging_rule | intros _].
  eapply hoare_seq; [apply scaffold_rule | intros _].
  eapply hoare_seq; [apply copy_config_rule | intros _].
  eapply hoare_seq; [apply dependency_installation_rule | intros _].
  eapply hoare_seq; [apply android_branch_rule | intros _].
  eapply hoare_seq; [apply ios_branch_rule | intros _].
  eapply hoare_seq; [apply js_branch_rule | intros _].
  exact Hdone.
Qed.

End StageRules.

(* ================================================================= *)
(** ** What single statements do *)

Lemma trace_emit_all evs st : trace (emit_all evs st) = trace st ++ evs.
Proof.
  revert st. induction evs as [|e evs IH]; intros st; cbn.
  - symmetry. apply app_nil_r.
  - unfold emit_all in IH. rewrite IH. cbn. rewrite <- app_assoc. reflexivity.
Qed.

Lemma echo_all_eq msgs st :
  echo_all msgs st = (Normal tt, emit_all (map EvEcho msgs) st).
Proof.
  revert st. induction msgs as [|m ms IH]; intros st; [reflexivity|].
  cbn [echo_all map]. unfold bind, echo, modify. rewrite IH. reflexivity.
Qed.

Lemma fatal_eq msgs st :
  fatal msgs st
  = (Thrown (JsError "1"), with_exitCode 1 (emit_all (map EvEcho msgs) st)).
Proof.
  unfold fatal, bind. rewrite echo_all_eq. reflexivity.
Qed.

Lemma exec_code_eq env cmd st :
  exec_code env cmd st
  = (Normal (code (exec_result env (trace st) cmd)),
     emit (EvExec cmd (code (exec_result env (trace st) cmd))) st).
Proof. reflexivity. Qed.

Lemma exec__eq env cmd st :
  exec_ env cmd st
  = (Normal tt, emit (EvExec cmd (code (exec_result env (trace st) cmd))) st).
Proof. reflexivity. Qed.

Lemma truthy_false c : truthy c = false -> c = 0.
Proof. unfold truthy. destruct (Z.eqb_spec c 0); [auto | discriminate]. Qed.

Lemma truthy_true c : truthy c = true -> c <> 0.
Proof. unfold truthy. destruct (Z.eqb_spec c 0); [discriminate | auto]. Qed.

(** The inspected step: [m] produces an exit code in a state [R]; a truthy
    code throws after the messages, a zero code goes on. *)
Lemma hoare_check (P : State -> Prop) (R : Z -> State -> Prop)
      (Q : unit -> State -> Prop) (E : Exn -> State -> Prop)
      (m : M State Z) (msgs : list string) :
  hoare P m R E ->
  (forall c s, R c s -> c <> 0 ->
     E (JsError "1") (with_exitCode 1 (emit_all (map EvEcho msgs) s))) ->
  (forall s, R 0 s -> Q tt s) ->
  hoare P (check m msgs) Q E.
Proof.
  intros Hm Hfail Hok. unfold check.
  eapply hoare_bind; [exact Hm|]. intros c.
  apply hoare_when.
  - intros Hc s Hs. rewrite fatal_eq. apply (Hfail c); [assumption|].
    apply truthy_true; assumption.
  - intros Hc s Hs. apply truthy_false in Hc. subst c. apply Hok; assumption.
Qed.

(* ================================================================= *)
(** ** Invariants kept by every allowed event *)

Section Stable.
Variable env : Env.
Variable argv : Argv.
Variable allowed : Event -> bool.
Variable I : State -> Prop.

Hypothesis I_emit : forall e s, allowed e = true -> I s -> I (emit e s).
Hypothesis I_exit : forall v s, I s -> I (with_exitCode v s).
Hypothesis allowed_quiet :
  forall e, is_exec e = false -> is_spawn e = false -> allowed e = true.

Let J : unit -> State -> Prop := fun _ => I.
Let X : Exn -> State -> Prop := fun _ => I.

Lemma I_emit_all evs s :
  forallb allowed evs = true -> I s -> I (emit_all evs s).
Proof.
  revert s. induction evs as [|e evs IH]; intros s Hall Hs; cbn in *; auto.
  apply andb_prop in Hall. destruct Hall as [He Hevs].
  apply IH; auto.
Qed.

Lemma allowed_echoes msgs : forallb allowed (map EvEcho msgs) = true.
Proof.
  induction msgs as [|m ms IH]; cbn; [reflexivity|].
  rewrite IH, allowed_quiet; reflexivity.
Qed.

Lemma stable_echo msg : hoare I (echo msg) J X.
Proof. apply hoare_modify. intros s Hs. apply I_emit; auto. Qed.

Lemma stable_cd dir : hoare I (cd dir) J X.
Proof. apply hoare_modify. intros s Hs. apply I_emit; auto. Qed.

Lemma stable_cp src dst : hoare I (cp src dst) J X.
Proof. apply hoare_modify. intros s Hs. apply I_emit; auto. Qed.

Lemma stable_rm opts path : hoare I (rm opts path) J X.
Proof. apply hoare_modify. intros s Hs. apply I_emit; auto. Qed.

Lemma stable_exec_ cmd :
  (forall k, allowed (EvExec cmd k) = true) -> hoare I (exec_ env cmd) J X.
Proof. intros Hc s Hs. rewrite exec__eq. apply I_emit; auto. Qed.

Lemma stable_exec_code cmd :
  (forall k, allowed (EvExec cmd k) = true) ->
  hoare I (exec_code env cmd) (fun _ => I) X.
Proof. intros Hc s Hs. rewrite exec_code_eq. apply I_emit; auto. Qed.

Lemma stable_check m msgs :
  hoare I m (fun _ => I) X -> hoare I (check m msgs) J X.
Proof.
  intros Hm. eapply hoare_check; [exact Hm| |].
  - intros c s Hs _. apply I_exit. apply I_emit_all; [apply allowed_echoes | exact Hs].
  - auto.
Qed.

Lemma stable_recovery rec :
  In rec (recoveries env) ->
  (forall k, allowed (EvExec sleep10 k) = true) ->
  hoare I (call_opt rec) J X.
Proof.
  intros Hin Hsleep. unfold recoveries in Hin. cbn [In] in Hin.
  destruct Hin as [<-|[<-|[<-|[]]]]; cbn [call_opt].
  - apply hoare_ret; auto.
  - apply stable_exec_; assumption.
  - eapply hoare_seq; [apply stable_rm | intros _; apply stable_exec_; assumption].
Qed.

Lemma stable_retry cmd rec N msgs :
  (forall k, allowed (EvExec cmd k) = true) ->
  In rec (recoveries env) ->
  (forall k, allowed (EvExec sleep10 k) = true) ->
  hoare I (check (tryExecNTimes (exec_code env cmd) N rec) msgs) J X.
Proof.
  intros Hc Hin Hsleep. apply stable_check.
  apply hoare_tryExecNTimes with (I := I).
  - apply stable_exec_code; assumption.
  - intros c _. apply stable_recovery; assumption.
Qed.

Lemma stable_spawn :
  (forall cmd args p, allowed (EvSpawn cmd args p) = true) ->
  (forall v s, I s -> I (with_SERVER_PID v s)) ->
  (forall v s, I s -> I (with_APPIUM_PID v s)) ->
  KeptBySpawn env I X.
Proof.
  intros Hspawn Hserver Happium.
  constructor; intros args s Hs;
    unfold bind, spawn, set_APPIUM_PID, set_SERVER_PID, modify.
  - apply Happium, I_emit; auto.
  - apply Hserver, I_emit; auto.
Qed.

Hypothesis allowed_cmds :
  forall cmd k, In cmd (try_block_cmds env argv) -> allowed (EvExec cmd k) = true.

Lemma stable_kept : Kept env argv I X.
Proof.
  assert (Hsleep : forall k, allowed (EvExec sleep10 k) = true).
  { intros k. apply allowed_cmds. unfold try_block_cmds, discarded.
    cbn [In app]. left; reflexivity. }
  constructor.
  - apply stable_echo.
  - apply stable_cd.
  - apply stable_cp.
  - intros cmd Hin. apply stable_exec_. intros k. apply allowed_cmds.
    unfold try_block_cmds. apply in_or_app; left; assumption.
  - intros cmd msgs Hin. apply stable_check, stable_exec_code.
    intros k. apply allowed_cmds.
    unfold try_block_cmds. apply in_or_app; right.
    apply in_or_app; left; assumption.
  - intros cmd rec msgs Hin Hrec. apply stable_retry; auto.
    intros k. apply allowed_cmds.
    unfold try_block_cmds. apply in_or_app; right.
    apply in_or_app; right; assumption.
Qed.

End Stable.

(* ================================================================= *)
(** ** The whole run *)

(** The [finally] block never throws, and what it does is determined by
    the two process variables. *)
Lemma finally_block_eq env s :
  exists k1 k2 k3,
    finally_block env s
    = (Normal tt,
       emit_all (finalization_events (SERVER_PID s) (APPIUM_PID s) k1 k2 k3) s).
Proof.
  unfold finally_block, finalization_events, bind, get.
  destruct (truthy_opt (SERVER_PID s)) eqn:Hserver;
    destruct (truthy_opt (APPIUM_PID s)) eqn:Happium.
  all: cbn [when]; unfold bind, echo, modify; rewrite ?exec__eq; cbn [ret].
  all: cbn [APPIUM_PID SERVER_PID emit]; rewrite ?Happium; cbn [when].
  all: unfold bind, echo, modify; rewrite ?exec__eq.
  - do 3 eexists; reflexivity.
  - exists (code (exec_result env
                (trace (emit (EvEcho ("Killing packager " ++ show_js (SERVER_PID s))) s))
                (kill_cmd (SERVER_PID s)))).
    eexists. exists 0. reflexivity.
  - exists 0, 0. eexists. reflexivity.
  - exists 0, 0, 0. reflexivity.
Qed.

Lemma exitCode_emit_all evs s : exitCode (emit_all evs s) = exitCode s.
Proof.
  revert s. induction evs as [|e evs IH]; intros s; [reflexivity|].
  cbn. unfold emit_all in IH. rewrite IH. reflexivity.
Qed.

(** A run is [mktemp], the [try] block, the [finally] block; the process
    then exits with [exitCode], or dies of the exception that escaped. *)
Lemma run_split env argv :
  exists k1 k2 k3,
    let r := fst (try_block env argv (TEMP env) (try_start env)) in
    let s1 := snd (try_block env argv (TEMP env) (try_start env)) in
    run env argv
    = (match r with
       | Normal _ => Exited (exitCode s1)
       | Thrown e => Uncaught e
       end,
       emit_all (finalization_events (SERVER_PID s1) (APPIUM_PID s1) k1 k2 k3) s1).
Proof.
  unfold run, script, bind, try_finally. cbn [exec].
  change (exec_result env (trace initial_state) mktemp_cmd) with (TEMP_result env).
  change (emit (EvExec mktemp_cmd (code (TEMP_result env))) initial_state)
    with (try_start env).
  change (trim (stdout (TEMP_result env))) with (TEMP env).
  destruct (try_block env argv (TEMP env) (try_start env)) as [r s1].
  destruct (finally_block_eq env s1) as (k1 & k2 & k3 & Hfin).
  exists k1, k2, k3. cbn [fst snd]. rewrite Hfin.
  destruct r; [|reflexivity].
  rewrite exitCode_emit_all. reflexivity.
Qed.

(** A specification of the [try] block that holds where it starts carries
    over to the run. *)
Lemma run_hoare env argv (P : State -> Prop)
      (Q : unit -> State -> Prop) (E : Exn -> State -> Prop) :
  P (try_start env) ->
  hoare P (try_block env argv (TEMP env)) Q E ->
  exists s1 k1 k2 k3,
    run_trace env argv
    = trace s1 ++ finalization_events (SERVER_PID s1) (APPIUM_PID s1) k1 k2 k3
    /\ ((Q tt s1 /\ exit_status env argv = status_of (exitCode s1))
        \/ (exists e, E e s1 /\ exit_status env argv = 1)).
Proof.
  intros Hstart Hblock.
  destruct (run_split env argv) as (k1 & k2 & k3 & Hrun).
  cbn zeta in Hrun. specialize (Hblock _ Hstart).
  destruct (try_block env argv (TEMP env) (try_start env)) as [r s1].
  cbn [fst snd] in Hrun.
  exists s1, k1, k2, k3. unfold run_trace, exit_status. rewrite Hrun.
  cbn [fst snd]. rewrite trace_emit_all. split; [reflexivity|].
  destruct r as [[]|e].
  - left. split; [assumption|]. unfold process_status, status_of.
    destruct (exitCode s1); reflexivity.
  - right. exists e. split; [assumption | reflexivity].
Qed.

(* ================================================================= *)
(** ** Finalization *)

Lemma last_spawn_app cmd tr e :
  last_spawn cmd (tr ++ [e])
  = match e with
    | EvSpawn c _ p => if String.eqb c cmd then p else last_spawn cmd tr
    | _ => last_spawn cmd tr
    end.
Proof.
  unfold last_spawn. rewrite fold_left_app. cbn. destruct e; reflexivity.
Qed.

Ltac each_cmd Hin :=
  unfold try_block_cmds, discarded, inspected_once, retried in Hin;
  cbn [In app] in Hin;
  repeat (destruct Hin as [<-|Hin]); [..|destruct Hin].

Lemma try_block_cmds_no_termination env argv cmd k :
  In cmd (try_block_cmds env argv) ->
  no_termination_call (EvExec cmd k) = true.
Proof.
  intros Hin. each_cmd Hin; reflexivity.
Qed.

Lemma handles_tracked_kept env argv :
  Kept env argv handles_tracked (fun _ => handles_tracked).
Proof.
  apply stable_kept
    with (allowed := fun e => no_termination_call e && negb (is_spawn e)).
  - intros e s He [Hquiet [Hserver Happium]].
    apply andb_prop in He. destruct He as [Hterm Hspawn].
    unfold handles_tracked. cbn [trace emit SERVER_PID APPIUM_PID].
    rewrite forallb_app, Hquiet. cbn [forallb]. rewrite Hterm.
    rewrite !last_spawn_app.
    destruct e; try discriminate Hspawn; auto.
  - intros v s H. exact H.
  - intros e Hexec Hspawn. destruct e; try discriminate; reflexivity.
  - intros cmd k Hin.
    rewrite (try_block_cmds_no_termination env argv cmd k Hin). reflexivity.
Qed.

Lemma handles_tracked_spawn env :
  KeptBySpawn env handles_tracked (fun _ => handles_tracked).
Proof.
  constructor; intros args s [Hquiet [Hserver Happium]];
    unfold bind, spawn, set_APPIUM_PID, set_SERVER_PID, modify;
    unfold handles_tracked;
    cbn [trace emit SERVER_PID APPIUM_PID with_APPIUM_PID with_SERVER_PID];
    rewrite forallb_app, Hquiet, !last_spawn_app; cbn; auto.
Qed.

Lemma handles_tracked_start env : handles_tracked (try_start env).
Proof. repeat split. Qed.

Lemma handles_tracked_try_block env argv TEMP :
  hoare handles_tracked (try_block env argv TEMP)
        (fun _ => handles_tracked) (fun _ => handles_tracked).
Proof.
  apply try_block_rule.
  - apply handles_tracked_kept.
  - apply handles_tracked_spawn.
  - apply hoare_modify. intros s H. exact H.
Qed.

Lemma finalization_events_termination server appium k1 k2 k3 cmd k :
  In (EvExec cmd k) (finalization_events server appium k1 k2 k3) ->
  termination_call (EvExec cmd k) = true.
Proof.
  unfold finalization_events. intros Hin.
  apply in_app_or in Hin.
  destruct (truthy_opt server), (truthy_opt appium); cbn [In] in Hin;
    repeat match goal with
           | H : _ \/ _ |- _ => destruct H
           | H : False |- _ => destruct H
           | H : EvEcho _ = EvExec _ _ |- _ => discriminate H
           | H : EvExec _ _ = EvExec _ _ |- _ => injection H as <- <-
           end; reflexivity.
Qed.

(** X14: every run, whether the [try] block completes or throws at any
    stage, is a body without any termination call followed by exactly one
    Finalization.  What Finalization does is decided by the two process
    variables, which hold what the most recent [spawn] of each kind
    returned: the packager is killed by pid, and the dev-server port
    swept, if and only if the most recent packager [spawn] returned a pid;
    appium is killed by pid if and only if its [spawn] returned a pid; the
    pids targeted are those, nothing else. *)
Theorem finalization_runs_once env argv :
  exists body k1 k2 k3,
    run_trace env argv
    = body ++ finalization_events (last_spawn "yarn" body)
                                  (last_spawn "node" body) k1 k2 k3
    /\ forallb no_termination_call body = true.
Proof.
  destruct (run_hoare env argv handles_tracked
              (fun _ => handles_tracked) (fun _ => handles_tracked)
              (handles_tracked_start env))
    as (s1 & k1 & k2 & k3 & Htrace & Hpost).
  - apply handles_tracked_try_block.
  - assert (H : handles_tracked s1).
    { destruct Hpost as [[H _]|[e [H _]]]; exact H. }
    destruct H as [Hquiet [Hserver Happium]].
    exists (trace s1), k1, k2, k3.
    rewrite <- Hserver, <- Happium. split; assumption.
Qed.

(* ================================================================= *)
(** ** Runs in which every inspected command succeeds *)

Lemma Kept_and env argv (I I' : State -> Prop) (E E' : Exn -> State -> Prop) :
  Kept env argv I E ->
  Kept env argv I' E' ->
  Kept env argv (fun s => I s /\ I' s) (fun e s => E e s /\ E' e s).
Proof.
  intros K K'. constructor; intros.
  - apply hoare_and; [apply (kept_echo K) | apply (kept_echo K')].
  - apply hoare_and; [apply (kept_cd K) | apply (kept_cd K')].
  - apply hoare_and; [apply (kept_cp K) | apply (kept_cp K')].
  - apply hoare_and; [apply (kept_discard K) | apply (kept_discard K')]; assumption.
  - apply hoare_and; [apply (kept_check K) | apply (kept_check K')]; assumption.
  - apply hoare_and; [apply (kept_retry K) | apply (kept_retry K')]; assumption.
Qed.

Lemma KeptBySpawn_and env (I I' : State -> Prop) (E E' : Exn -> State -> Prop) :
  KeptBySpawn env I E ->
  KeptBySpawn env I' E' ->
  KeptBySpawn env (fun s => I s /\ I' s) (fun e s => E e s /\ E' e s).
Proof.
  intros K K'. constructor; intros.
  - apply hoare_and; [apply (kept_appium K) | apply (kept_appium K')].
  - apply hoare_and; [apply (kept_server K) | apply (kept_server K')].
Qed.

Section Success.
Variable env : Env.
Variable argv : Argv.
Hypothesis Hzero : inspected_succeed env argv.

Lemma success_exec_code cmd :
  In cmd (inspected env argv) ->
  hoare anything (exec_code env cmd) (fun c _ => c = 0) never.
Proof. intros Hin s _. rewrite exec_code_eq. apply Hzero; assumption. Qed.

Lemma success_kept : Kept env argv anything never.
Proof.
  constructor.
  - intros msg. apply hoare_modify. intros; exact Logic.I.
  - intros dir. apply hoare_modify. intros; exact Logic.I.
  - intros src dst. apply hoare_modify. intros; exact Logic.I.
  - intros cmd _ s _. rewrite exec__eq. exact Logic.I.
  - intros cmd msgs Hin.
    apply hoare_check with (R := fun c _ => c = 0).
    + apply success_exec_code. apply in_or_app; left; assumption.
    + intros c s Hc Hne. contradiction.
    + intros; exact Logic.I.
  - intros cmd rec msgs Hin _.
    apply hoare_check with (R := fun c _ => c = 0).
    + apply hoare_tryExecNTimes with (I := anything).
      * apply success_exec_code. apply in_or_app; right; assumption.
      * intros c Hne s Hc. contradiction.
    + intros c s Hc Hne. contradiction.
    + intros; exact Logic.I.
Qed.

Lemma success_spawn : KeptBySpawn env anything never.
Proof. constructor; intros args s _; exact Logic.I. Qed.

Lemma success_try_block TEMP :
  hoare anything (try_block env argv TEMP)
        (fun _ s => exitCode s = Some 0) never.
Proof.
  apply try_block_rule.
  - apply success_kept.
  - apply success_spawn.
  - apply hoare_modify. reflexivity.
Qed.

Lemma success_exit_status : exit_status env argv = 0.
Proof.
  destruct (run_hoare env argv anything _ never Logic.I
              (success_try_block (TEMP env)))
    as (s1 & k1 & k2 & k3 & _ & [[Hcode Hstatus]|[e [[] _]]]).
  rewrite Hstatus, Hcode. reflexivity.
Qed.

End Success.

(* ================================================================= *)
(** ** The last run of an inspected command *)

Ltac refute_eq H :=
  apply (proj2 (String.eqb_eq _ _)) in H; vm_compute in H; discriminate H.

Lemma inspected_not_discarded env argv cmd :
  In cmd (inspected env argv) -> In cmd (discarded env) -> False.
Proof.
  intros Hin Hd.
  unfold inspected, inspected_once, retried in Hin. cbn [In app] in Hin.
  unfold discarded in Hd. cbn [In] in Hd.
  repeat (destruct Hin as [<-|Hin]); [..|destruct Hin];
    repeat (destruct Hd as [Hd|Hd]); try contradiction; refute_eq Hd.
Qed.

Lemma inspected_in_try_block env argv cmd :
  In cmd (inspected env argv) -> In cmd (try_block_cmds env argv).
Proof. intros H. unfold try_block_cmds. apply in_or_app. right. exact H. Qed.

Lemma inspected_not_mktemp env argv cmd :
  In cmd (inspected env argv) -> cmd <> mktemp_cmd.
Proof.
  intros Hin Heq.
  unfold inspected, inspected_once, retried in Hin. cbn [In app] in Hin.
  repeat (destruct Hin as [<-|Hin]); [..|destruct Hin]; refute_eq Heq.
Qed.

Lemma not_run_echoes cmd msgs : not_run cmd (map EvEcho msgs).
Proof. unfold not_run. induction msgs; [reflexivity | exact IHmsgs]. Qed.

Lemma not_run_finalization env argv cmd server appium k1 k2 k3 :
  In cmd (inspected env argv) ->
  not_run cmd (finalization_events server appium k1 k2 k3).
Proof.
  intros Hin. unfold not_run. apply forallb_forall. intros e He.
  destruct e as [c k| | | | |]; try reflexivity.
  cbn [is_exec_of]. destruct (String.eqb_spec c cmd) as [->|]; [|reflexivity].
  apply finalization_events_termination in He.
  pose proof (try_block_cmds_no_termination env argv cmd k
                (inspected_in_try_block env argv cmd Hin)) as Hno.
  unfold no_termination_call in Hno. rewrite He in Hno. discriminate.
Qed.

Lemma last_code_snoc cmd tr e :
  last_code cmd (tr ++ [e])
  = match e with
    | EvExec c k => if String.eqb c cmd then Some k else last_code cmd tr
    | _ => last_code cmd tr
    end.
Proof.
  unfold last_code. rewrite fold_left_app. cbn. destruct e; reflexivity.
Qed.

Lemma last_code_not_run cmd tr evs :
  not_run cmd evs -> last_code cmd (tr ++ evs) = last_code cmd tr.
Proof.
  unfold not_run. revert tr.
  induction evs as [|e evs IH]; intros tr Hevs.
  - rewrite app_nil_r. reflexivity.
  - cbn [forallb] in Hevs. apply andb_prop in Hevs. destruct Hevs as [He Hevs].
    change (tr ++ e :: evs) with (tr ++ [e] ++ evs).
    rewrite app_assoc, (IH _ Hevs), last_code_snoc.
    destruct e as [c k| | | | |]; try reflexivity.
    cbn [is_exec_of] in He. destruct (String.eqb c cmd); [discriminate | reflexivity].
Qed.

Lemma last_code_aborted cmd tr evs :
  aborted_at cmd tr -> not_run cmd evs -> last_run_failed cmd (tr ++ evs).
Proof.
  intros (pre & k & msgs & -> & Hk) Hevs. exists k. split; [|exact Hk].
  rewrite (last_code_not_run cmd _ evs Hevs).
  change (pre ++ EvExec cmd k :: map EvEcho msgs)
    with (pre ++ [EvExec cmd k] ++ map EvEcho msgs).
  rewrite app_assoc, (last_code_not_run cmd _ _ (not_run_echoes cmd msgs)).
  rewrite last_code_snoc, String.eqb_refl. reflexivity.
Qed.

(** The recovery actions of the script do not throw. *)
Lemma recovery_returns env (P : State -> Prop) (E : Exn -> State -> Prop) rec :
  In rec (recoveries env) ->
  hoare P (call_opt rec) (fun _ => anything) E.
Proof.
  intros Hrec s _. unfold recoveries in Hrec. cbn [In] in Hrec.
  destruct Hrec as [<-|[<-|[<-|[]]]]; exact Logic.I.
Qed.

(** The Retrier on a command returns the code of the run that the trace
    ends with. *)
Lemma retry_ends_with_run env cmd N rec (E : Exn -> State -> Prop) :
  In rec (recoveries env) ->
  hoare anything (tryExecNTimes (exec_code env cmd) N rec)
        (fun k s => exists s0, s = emit (EvExec cmd k) s0) E.
Proof.
  intros Hrec. apply hoare_tryExecNTimes with (I := anything).
  - intros s _. rewrite exec_code_eq. eexists; reflexivity.
  - intros k _. apply (recovery_returns env); assumption.
Qed.

Lemma aborted_at_failure cmd s k msgs :
  k <> 0 ->
  aborted_at cmd
    (trace (with_exitCode 1 (emit_all (map EvEcho msgs) (emit (EvExec cmd k) s)))).
Proof.
  intros Hk. exists (trace s), k, msgs.
  cbn [trace with_exitCode]. rewrite trace_emit_all. cbn [trace emit].
  rewrite <- app_assoc. split; [reflexivity | exact Hk].
Qed.

(** While the last run of [c0] has not failed, the [try] block goes on;
    when it throws, either that still holds or it stopped at [c0]. *)
Section LastRun.
Variable env : Env.
Variable argv : Argv.
Variable c0 : string.
Hypothesis Hin : In c0 (inspected env argv).

Let allowed (e : Event) : bool := negb (is_exec_of c0 e).
Let I (s : State) : Prop := last_run_ok c0 (trace s).
Let E (_ : Exn) (s : State) : Prop := I s \/ aborted_at c0 (trace s).

Lemma last_I_emit e s : allowed e = true -> I s -> I (emit e s).
Proof.
  unfold I, last_run_ok, emit, allowed. cbn [trace]. intros He Hs.
  rewrite last_code_snoc. destruct e as [c k| | | | |]; try exact Hs.
  cbn [is_exec_of] in He. destruct (String.eqb c c0); [discriminate | exact Hs].
Qed.

Lemma last_I_exit (v : Z) s : I s -> I (with_exitCode v s).
Proof. auto. Qed.

Lemma last_I_success s : I (emit (EvExec c0 0) s).
Proof.
  unfold I, last_run_ok, emit. cbn [trace].
  rewrite last_code_snoc, String.eqb_refl. reflexivity.
Qed.

Lemma last_allowed_quiet e :
  is_exec e = false -> is_spawn e = false -> allowed e = true.
Proof. destruct e; intros; try discriminate; reflexivity. Qed.

Lemma last_allowed_other cmd k : cmd <> c0 -> allowed (EvExec cmd k) = true.
Proof.
  intros Hne. unfold allowed. cbn.
  destruct (String.eqb_spec cmd c0); [contradiction | reflexivity].
Qed.

Lemma last_allowed_discarded cmd k :
  In cmd (discarded env) -> allowed (EvExec cmd k) = true.
Proof.
  intros Hd. apply last_allowed_other. intros ->.
  exact (inspected_not_discarded env argv c0 Hin Hd).
Qed.

Lemma last_sleep k : allowed (EvExec sleep10 k) = true.
Proof. apply last_allowed_discarded. left; reflexivity. Qed.

Lemma last_weaken A (m : M State A) :
  hoare I m (fun _ => I) (fun _ => I) -> hoare I m (fun _ => I) E.
Proof.
  intros H. eapply hoare_conseq; [exact H | auto | auto |].
  intros e s Hs. left. exact Hs.
Qed.

Lemma last_check cmd msgs :
  hoare I (check (exec_code env cmd) msgs) (fun _ => I) E.
Proof.
  destruct (String.eqb_spec cmd c0) as [->|Hne].
  - apply hoare_check
      with (R := fun k s => exists s0, s = emit (EvExec c0 k) s0).
    + intros s _. rewrite exec_code_eq. eexists; reflexivity.
    + intros k s [s0 ->] Hk. right. apply aborted_at_failure; exact Hk.
    + intros s [s0 ->]. apply last_I_success.
  - apply last_weaken.
    apply (stable_check allowed I last_I_emit last_I_exit last_allowed_quiet).
    apply (stable_exec_code env allowed I last_I_emit).
    intros k. apply last_allowed_other; assumption.
Qed.

Lemma last_retry cmd rec N msgs :
  In rec (recoveries env) ->
  hoare I (check (tryExecNTimes (exec_code env cmd) N rec) msgs) (fun _ => I) E.
Proof.
  intros Hrec. destruct (String.eqb_spec cmd c0) as [->|Hne].
  - apply hoare_check
      with (R := fun k s => exists s0, s = emit (EvExec c0 k) s0).
    + apply hoare_conseq
        with (P' := anything) (E' := E)
             (Q' := fun k s => exists s0, s = emit (EvExec c0 k) s0);
        [| intros; exact Logic.I | auto | auto].
      apply retry_ends_with_run; assumption.
    + intros k s [s0 ->] Hk. right. apply aborted_at_failure; exact Hk.
    + intros s [s0 ->]. apply last_I_success.
  - apply last_weaken.
    apply (stable_retry env allowed I last_I_emit last_I_exit last_allowed_quiet);
      [| assumption | apply last_sleep].
    intros k. apply last_allowed_other; assumption.
Qed.

Lemma last_kept : Kept env argv I E.
Proof.
  constructor.
  - intros msg. apply last_weaken.
    apply (stable_echo allowed I last_I_emit last_allowed_quiet).
  - intros dir. apply last_weaken.
    apply (stable_cd allowed I last_I_emit last_allowed_quiet).
  - intros src dst. apply last_weaken.
    apply (stable_cp allowed I last_I_emit last_allowed_quiet).
  - intros cmd Hd. apply last_weaken.
    apply (stable_exec_ env allowed I last_I_emit).
    intros k. apply last_allowed_discarded; assumption.
  - intros cmd msgs _. apply last_check.
  - intros cmd rec msgs _ Hrec. apply last_retry; assumption.
Qed.

Lemma last_spawn_kept : KeptBySpawn env I E.
Proof.
  constructor; intros args; apply last_weaken.
  - apply (kept_appium (stable_spawn env allowed I last_I_emit
                          (fun _ _ _ => eq_refl) (fun _ _ H => H) (fun _ _ H => H))).
  - apply (kept_server (stable_spawn env allowed I last_I_emit
                          (fun _ _ _ => eq_refl) (fun _ _ H => H) (fun _ _ H => H))).
Qed.

Lemma last_try_block TEMP :
  hoare I (try_block env argv TEMP) (fun _ => I) E.
Proof.
  apply try_block_rule.
  - apply last_kept.
  - apply last_spawn_kept.
  - apply hoare_modify. auto.
Qed.

Lemma last_start : I (try_start env).
Proof.
  unfold I, last_run_ok, try_start. cbn [trace emit initial_state app].
  unfold last_code. cbn [fold_left].
  destruct (String.eqb_spec mktemp_cmd c0) as [Heq|]; [|exact Logic.I].
  symmetry in Heq. destruct (inspected_not_mktemp env argv c0 Hin Heq).
Qed.

End LastRun.

(** An inspected command whose last run failed ended the run: the body of
    the run stops at that failure, messages follow, then Finalization; the
    status is 1. *)
Lemma last_failure_is_fatal env argv cmd :
  In cmd (inspected env argv) ->
  last_run_failed cmd (run_trace env argv) ->
  aborts_at env argv cmd.
Proof.
  intros Hin (k & Hlast & Hk).
  destruct (run_hoare env argv _ _ _
              (conj (last_start env argv cmd Hin) (handles_tracked_start env))
              (hoare_and _ _ _ _ _ _ _ _
                 (last_try_block env argv cmd Hin (TEMP env))
                 (handles_tracked_try_block env argv (TEMP env))))
    as (s1 & k1 & k2 & k3 & Htrace & Hpost).
  assert (Hbody : last_run_ok cmd (trace s1) -> False).
  { intros Hok. unfold last_run_ok in Hok.
    rewrite Htrace in Hlast.
    rewrite (last_code_not_run cmd _ _
               (not_run_finalization env argv cmd _ _ k1 k2 k3 Hin)) in Hlast.
    rewrite Hlast in Hok. contradiction. }
  destruct Hpost as [[[Hok _] _]|[e [[[Hok|Habort] Htracked] Hstatus]]];
    try (destruct (Hbody Hok)).
  split; [exact Hstatus|].
  destruct Htracked as [_ [Hserver Happium]].
  exists (trace s1), k1, k2, k3. rewrite <- Hserver, <- Happium.
  split; assumption.
Qed.

(** When the [try] block throws, it stopped at the failure of an inspected
    command. *)
Section Thrown.
Variable env : Env.
Variable argv : Argv.

Let E (_ : Exn) (s : State) : Prop :=
  exists cmd, In cmd (inspected env argv) /\ aborted_at cmd (trace s).

Lemma thrown_kept : Kept env argv anything E.
Proof.
  constructor.
  - intros msg. apply hoare_modify. intros; exact Logic.I.
  - intros dir. apply hoare_modify. intros; exact Logic.I.
  - intros src dst. apply hoare_modify. intros; exact Logic.I.
  - intros cmd _ s _. rewrite exec__eq. exact Logic.I.
  - intros cmd msgs Hin.
    apply hoare_check
      with (R := fun k s => exists s0, s = emit (EvExec cmd k) s0).
    + intros s _. rewrite exec_code_eq. eexists; reflexivity.
    + intros k s [s0 ->] Hk. exists cmd. split.
      * unfold inspected. apply in_or_app. left. exact Hin.
      * apply aborted_at_failure; exact Hk.
    + intros; exact Logic.I.
  - intros cmd rec msgs Hin Hrec.
    apply hoare_check
      with (R := fun k s => exists s0, s = emit (EvExec cmd k) s0).
    + apply retry_ends_with_run; assumption.
    + intros k s [s0 ->] Hk. exists cmd. split.
      * unfold inspected. apply in_or_app. right. exact Hin.
      * apply aborted_at_failure; exact Hk.
    + intros; exact Logic.I.
Qed.

Lemma thrown_spawn : KeptBySpawn env anything E.
Proof. constructor; intros args s _; exact Logic.I. Qed.

Lemma thrown_try_block TEMP :
  hoare anything (try_block env argv TEMP)
        (fun _ s => exitCode s = Some 0) E.
Proof.
  apply try_block_rule.
  - apply thrown_kept.
  - apply thrown_spawn.
  - apply hoare_modify. reflexivity.
Qed.

End Thrown.

(** The exit status is 1 exactly when the last run of some inspected
    command failed, and 0 otherwise. *)
Lemma exit_status_one_iff env argv :
  exit_status env argv = 1
  <-> exists cmd,
        In cmd (inspected env argv)
        /\ last_run_failed cmd (run_trace env argv).
Proof.
  split.
  - intros Hone.
    destruct (run_hoare env argv anything _ _ Logic.I
                (thrown_try_block env argv (TEMP env)))
      as (s1 & k1 & k2 & k3 & Htrace & [[Hcode Hstatus]|[e [Hthrown _]]]).
    + rewrite Hstatus, Hcode in Hone. discriminate.
    + destruct Hthrown as (cmd & Hin & Habort).
      exists cmd. split; [exact Hin|]. rewrite Htrace.
      apply last_code_aborted; [exact Habort|].
      apply (not_run_finalization env argv); exact Hin.
  - intros (cmd & Hin & Hlast).
    apply (last_failure_is_fatal env argv cmd Hin Hlast).
Qed.

Lemma exit_status_zero_iff env argv :
  exit_status env argv = 0
  <-> forall cmd,
        In cmd (inspected env argv) ->
        last_run_ok cmd (run_trace env argv).
Proof.
  split.
  - intros Hzero cmd Hin. unfold last_run_ok.
    destruct (last_code cmd (run_trace env argv)) as [k|] eqn:Hlast; [|exact Logic.I].
    destruct (Z.eq_dec k 0) as [|Hk]; [assumption|].
    assert (Hone : exit_status env argv = 1).
    { apply exit_status_one_iff. exists cmd. split; [exact Hin|].
      exists k. split; assumption. }
    rewrite Hone in Hzero. discriminate.
  - intros Hok.
    destruct (run_hoare env argv anything _ _ Logic.I
                (thrown_try_block env argv (TEMP env)))
      as (s1 & k1 & k2 & k3 & Htrace & [[Hcode Hstatus]|[e [Hthrown _]]]).
    + rewrite Hstatus, Hcode. reflexivity.
    + destruct Hthrown as (cmd & Hin & Habort).
      assert (Hfailed : last_run_failed cmd (run_trace env argv)).
      { rewrite Htrace. apply last_code_aborted; [exact Habort|].
        apply (not_run_finalization env argv); exact Hin. }
      destruct Hfailed as (k & Hlast & Hk).
      specialize (Hok cmd Hin). unfold last_run_ok in Hok.
      rewrite Hlast in Hok. contradiction.
Qed.

(* ================================================================= *)
(** ** A failure of a command inspected without retry *)

Lemma once_not_retried env argv cmd :
  In cmd (inspected_once env) -> In cmd (retried env argv) -> False.
Proof.
  intros Hin Hr.
  unfold inspected_once in Hin. cbn [In] in Hin.
  unfold retried in Hr. cbn [In] in Hr.
  repeat (destruct Hin as [<-|Hin]); [..|destruct Hin];
    repeat (destruct Hr as [Hr|Hr]); try contradiction; refute_eq Hr.
Qed.

Section FailsOnce.
Variable env : Env.
Variable argv : Argv.
Variable c0 : string.
Hypothesis Hin : In c0 (inspected_once env).

Let allowed : Event -> bool := succeeded_so_far c0.
Let I (s : State) : Prop := forallb allowed (trace s) = true.
Let E (_ : Exn) (s : State) : Prop := I s \/ aborted_at c0 (trace s).

Lemma once_I_emit e s : allowed e = true -> I s -> I (emit e s).
Proof.
  unfold I, emit. cbn [trace]. intros He Hs.
  rewrite forallb_app, Hs. cbn. rewrite He. reflexivity.
Qed.

Lemma once_I_exit (v : Z) s : I s -> I (with_exitCode v s).
Proof. auto. Qed.

Lemma once_allowed_quiet e :
  is_exec e = false -> is_spawn e = false -> allowed e = true.
Proof. destruct e; intros; try discriminate; reflexivity. Qed.

Lemma once_allowed_other cmd k : cmd <> c0 -> allowed (EvExec cmd k) = true.
Proof.
  intros Hne. unfold allowed. cbn.
  destruct (String.eqb_spec cmd c0); [contradiction | reflexivity].
Qed.

Lemma once_in_inspected : In c0 (inspected env argv).
Proof. unfold inspected. apply in_or_app. left. exact Hin. Qed.

Lemma once_sleep k : allowed (EvExec sleep10 k) = true.
Proof.
  apply once_allowed_other. intros Heq.
  apply (inspected_not_discarded env argv c0 once_in_inspected).
  rewrite <- Heq. left. reflexivity.
Qed.

Lemma once_weaken A (m : M State A) :
  hoare I m (fun _ => I) (fun _ => I) -> hoare I m (fun _ => I) E.
Proof.
  intros H. eapply hoare_conseq; [exact H | auto | auto |].
  intros e s Hs. left. exact Hs.
Qed.

Lemma once_check cmd msgs :
  hoare I (check (exec_code env cmd) msgs) (fun _ => I) E.
Proof.
  apply hoare_check
    with (R := fun c s => exists s0, I s0 /\ s = emit (EvExec cmd c) s0).
  - intros s Hs. rewrite exec_code_eq. exists s. split; [exact Hs | reflexivity].
  - intros c s [s0 [Hs0 ->]] Hc.
    destruct (String.eqb_spec cmd c0) as [->|Hne].
    + right. exists (trace s0), c, msgs.
      cbn [trace with_exitCode]. rewrite trace_emit_all. cbn [trace emit].
      rewrite <- app_assoc. split; [reflexivity | exact Hc].
    + left. apply once_I_exit.
      apply (I_emit_all allowed I once_I_emit);
        [apply (allowed_echoes allowed once_allowed_quiet)|].
      apply once_I_emit; [apply once_allowed_other; exact Hne | exact Hs0].
  - intros s [s0 [Hs0 ->]]. apply once_I_emit; [|exact Hs0].
    unfold allowed. cbn. apply orb_true_r.
Qed.

Lemma once_kept : Kept env argv I E.
Proof.
  constructor.
  - intros msg. apply once_weaken.
    apply (stable_echo allowed I once_I_emit once_allowed_quiet).
  - intros dir. apply once_weaken.
    apply (stable_cd allowed I once_I_emit once_allowed_quiet).
  - intros src dst. apply once_weaken.
    apply (stable_cp allowed I once_I_emit once_allowed_quiet).
  - intros cmd Hd. apply once_weaken.
    apply (stable_exec_ env allowed I once_I_emit).
    intros k. apply once_allowed_other. intros ->.
    exact (inspected_not_discarded env argv c0 once_in_inspected Hd).
  - intros cmd msgs _. apply once_check.
  - intros cmd rec msgs Hr Hrec. apply once_weaken.
    apply (stable_retry env allowed I once_I_emit once_I_exit once_allowed_quiet);
      [| assumption | apply once_sleep].
    intros k. apply once_allowed_other. intros ->.
    exact (once_not_retried env argv c0 Hin Hr).
Qed.

Lemma once_spawn : KeptBySpawn env I E.
Proof.
  constructor; intros args; apply once_weaken.
  - apply (kept_appium (stable_spawn env allowed I once_I_emit
                          (fun _ _ _ => eq_refl) (fun _ _ H => H) (fun _ _ H => H))).
  - apply (kept_server (stable_spawn env allowed I once_I_emit
                          (fun _ _ _ => eq_refl) (fun _ _ H => H) (fun _ _ H => H))).
Qed.

Lemma once_try_block TEMP :
  hoare I (try_block env argv TEMP) (fun _ => I) E.
Proof.
  apply try_block_rule.
  - apply once_kept.
  - apply once_spawn.
  - apply hoare_modify. auto.
Qed.

Lemma once_start : I (try_start env).
Proof.
  unfold I, try_start. cbn [trace emit initial_state app forallb].
  rewrite once_allowed_other; [reflexivity|].
  intros Heq. symmetry in Heq.
  exact (inspected_not_mktemp env argv c0 once_in_inspected Heq).
Qed.

Lemma once_no_failure s k :
  I s -> In (EvExec c0 k) (trace s) -> k = 0.
Proof.
  unfold I. intros Hs Hk. rewrite forallb_forall in Hs.
  specialize (Hs _ Hk). unfold allowed in Hs. cbn in Hs.
  rewrite String.eqb_refl in Hs. cbn in Hs.
  apply Z.eqb_eq. exact Hs.
Qed.

End FailsOnce.

(** A command inspected without retry that returns non-zero ends the run:
    the body of the run stops at its failure, followed by messages only,
    then Finalization; the status is 1. *)
Lemma inspected_once_failure_is_fatal env argv cmd k :
  In cmd (inspected_once env) ->
  k <> 0 ->
  In (EvExec cmd k) (run_trace env argv) ->
  aborts_at env argv cmd.
Proof.
  intros Hin Hk Hrun.
  destruct (run_hoare env argv _ _ _
              (conj (once_start env argv cmd Hin) (handles_tracked_start env))
              (hoare_and _ _ _ _ _ _ _ _
                 (once_try_block env argv cmd Hin (TEMP env))
                 (handles_tracked_try_block env argv (TEMP env))))
    as (s1 & k1 & k2 & k3 & Htrace & Hpost).
  assert (Hbody : forallb (succeeded_so_far cmd) (trace s1) = true -> False).
  { intros HI. rewrite Htrace in Hrun.
    apply in_app_or in Hrun. destruct Hrun as [Hrun|Hrun].
    - apply Hk. exact (once_no_failure cmd s1 k HI Hrun).
    - pose proof (not_run_finalization env argv cmd
                    (SERVER_PID s1) (APPIUM_PID s1) k1 k2 k3
                    (once_in_inspected env argv cmd Hin)) as Hfin.
      unfold not_run in Hfin. rewrite forallb_forall in Hfin.
      specialize (Hfin _ Hrun). cbn in Hfin.
      rewrite String.eqb_refl in Hfin. discriminate. }
  destruct Hpost as [[[HI _] _]|[e [[[HI|Habort] Htracked] Hstatus]]];
    try (destruct (Hbody HI)).
  split; [exact Hstatus|].
  destruct Htracked as [_ [Hserver Happium]].
  exists (trace s1), k1, k2, k3. rewrite <- Hserver, <- Happium.
  split; assumption.
Qed.

(* ================================================================= *)
(** ** The exit status *)

(** The [try] block either completes with [exitCode = 0] or throws. *)
Lemma try_block_exitCode env argv TEMP :
  hoare anything (try_block env argv TEMP)
        (fun _ s => exitCode s = Some 0) (fun _ => anything).
Proof.
  apply try_block_rule.
  - apply stable_kept with (allowed := fun _ => true);
      intros; solve [exact Logic.I | reflexivity].
  - apply stable_spawn with (allowed := fun _ => true);
      intros; solve [exact Logic.I | reflexivity].
  - apply hoare_modify. reflexivity.
Qed.

Lemma exit_status_0_or_1 env argv :
  exit_status env argv = 0 \/ exit_status env argv = 1.
Proof.
  destruct (run_hoare env argv anything _ _ Logic.I
              (try_block_exitCode env argv (TEMP env)))
    as (s1 & k1 & k2 & k3 & _ & [[Hcode Hstatus]|[e [_ Hstatus]]]).
  - left. rewrite Hstatus, Hcode. reflexivity.
  - right. exact Hstatus.
Qed.

(** C4, as the script has it.  The exit status is 0 or 1, nothing else, so
    it does not tell which stage failed.  It is 0 when every command whose
    exit code the script inspects succeeds, whatever the commands whose exit
    code it drops return.  Precisely, it is 1 if and only if the last run
    of some inspected command failed (for a command run through the
    Retrier: its final attempt), and 0 if and only if there is none. *)
Theorem exit_status_by_inspected_commands env argv :
  (exit_status env argv = 0 \/ exit_status env argv = 1)
  /\ (inspected_succeed env argv -> exit_status env argv = 0)
  /\ (exit_status env argv = 0
      <-> forall cmd, In cmd (inspected env argv) ->
                      last_run_ok cmd (run_trace env argv))
  /\ (exit_status env argv = 1
      <-> exists cmd, In cmd (inspected env argv)
                      /\ last_run_failed cmd (run_trace env argv)).
Proof.
  split; [apply exit_status_0_or_1|].
  split; [apply success_exit_status|].
  split; [apply exit_status_zero_iff | apply exit_status_one_iff].
Qed.

Lemma exit_status_by_inspected_commands_witness :
  exit_status env_ok argv_js = 0
  /\ exit_status (env_failing [flow_check_cmd env_ok]) argv_js = 1.
Proof.
  split.
  - apply (proj1 (proj2 (exit_status_by_inspected_commands env_ok argv_js))).
    intros history cmd Hin. reflexivity.
  - apply (proj2 (proj2 (proj2 (exit_status_by_inspected_commands
                                  (env_failing [flow_check_cmd env_ok]) argv_js)))).
    exists (flow_check_cmd env_ok). split.
    + vm_compute. tauto.
    + exists 1. split; [vm_compute; reflexivity | discriminate].
Defined.

(** C4, as stated, fails: the package install of the Dependency
    installation stage exits with 1 and the run still ends with status 0. *)
Lemma exit_status_ignores_package_install :
  let env := env_failing [install_package_cmd env_ok] in
  In (EvExec (install_package_cmd env) 1) (run_trace env no_flags)
  /\ exit_status env no_flags = 0.
Proof.
  vm_compute. split; [tauto | reflexivity].
Qed.

(* ================================================================= *)
(** ** Commands whose exit code is dropped *)

Lemma Kept_exn env argv (I : State -> Prop) (E E' : Exn -> State -> Prop) :
  Kept env argv I E ->
  (forall e s, E e s -> E' e s) ->
  Kept env argv I E'.
Proof.
  intros K HE. constructor; intros;
    (eapply hoare_conseq; [| intros ? Hp; exact Hp | intros ? ? Hq; exact Hq | exact HE]).
  - apply (kept_echo K).
  - apply (kept_cd K).
  - apply (kept_cp K).
  - apply (kept_discard K); assumption.
  - apply (kept_check K); assumption.
  - apply (kept_retry K); assumption.
Qed.

Lemma KeptBySpawn_exn env (I : State -> Prop) (E E' : Exn -> State -> Prop) :
  KeptBySpawn env I E ->
  (forall e s, E e s -> E' e s) ->
  KeptBySpawn env I E'.
Proof.
  intros K HE. constructor; intros;
    (eapply hoare_conseq; [| intros ? Hp; exact Hp | intros ? ? Hq; exact Hq | exact HE]).
  - apply (kept_appium K).
  - apply (kept_server K).
Qed.

Lemma executed_emit cmd e s :
  executed cmd (trace s) -> executed cmd (trace (emit e s)).
Proof. intros [k Hk]. exists k. cbn. apply in_or_app. left. exact Hk. Qed.

(** Once [cmd] has been run, it has been run; on the success path this
    goes along with [success_kept]. *)
Section SuccessAfter.
Variable env : Env.
Variable argv : Argv.
Variable cmd : string.
Hypothesis Hzero : inspected_succeed env argv.

Let was_run (s : State) : Prop := anything s /\ executed cmd (trace s).

Lemma after_kept : Kept env argv was_run never.
Proof.
  apply Kept_exn
    with (E := fun e s => never e s /\ executed cmd (trace s));
    [| intros e s [[] _]].
  apply Kept_and; [apply success_kept; exact Hzero|].
  apply stable_kept with (allowed := fun _ => true); intros;
    solve [reflexivity | assumption | apply executed_emit; assumption].
Qed.

Lemma after_spawn : KeptBySpawn env was_run never.
Proof.
  apply KeptBySpawn_exn
    with (E := fun e s => never e s /\ executed cmd (trace s));
    [| intros e s [[] _]].
  apply KeptBySpawn_and; [apply success_spawn|].
  apply stable_spawn with (allowed := fun _ => true); intros;
    solve [reflexivity | assumption | apply executed_emit; assumption].
Qed.

Lemma now_run : hoare anything (exec_ env cmd) (fun _ => was_run) never.
Proof.
  intros s _. rewrite exec__eq. split; [exact Logic.I|].
  eexists. cbn. apply in_or_app. right. left. reflexivity.
Qed.

Lemma after_done :
  hoare was_run (set_exitCode 0)
        (fun _ s => executed cmd (trace s) /\ exitCode s = Some 0) never.
Proof. apply hoare_modify. intros s [_ H]. split; [exact H | reflexivity]. Qed.

End SuccessAfter.

(** When every inspected command succeeds, the package install is run and
    the [try] block completes with [exitCode = 0]. *)
Lemma success_runs_package_install env argv TEMP :
  inspected_succeed env argv ->
  hoare anything (try_block env argv TEMP)
        (fun _ s => executed (install_package_cmd env) (trace s)
                    /\ exitCode s = Some 0)
        never.
Proof.
  intros Hzero.
  pose proof (success_kept env argv Hzero) as K1.
  pose proof (success_spawn env) as KS1.
  pose proof (after_kept env argv (install_package_cmd env) Hzero) as K2.
  pose proof (after_spawn env (install_package_cmd env)) as KS2.
  unfold try_block.
  eapply hoare_seq; [apply (setup_rule env argv _ _ K1) | intros _].
  eapply hoare_seq; [apply (android_prebuild_rule env argv _ _ K1) | intros _].
  eapply hoare_seq; [apply (js_prebuild_rule env argv _ _ K1) | intros _].
  eapply hoare_seq; [apply (packaging_rule env argv _ _ K1) | intros _].
  eapply hoare_seq; [apply (scaffold_rule env argv _ _ K1) | intros _].
  eapply hoare_seq; [apply (copy_config_rule env argv _ _ K1) | intros _].
  eapply hoare_bind
    with (R := fun _ s => anything s /\ executed (install_package_cmd env) (trace s)).
  - unfold dependency_installation.
    do 2 walk_step K1 KS1.
    eapply hoare_bind; [apply now_run; exact Hzero | intros ?].
    walk K2 KS2.
  - intros _.
    eapply hoare_seq; [apply (android_branch_rule env argv _ _ K2 KS2) | intros _].
    eapply hoare_seq; [apply (ios_branch_rule env argv _ _ K2 KS2) | intros _].
    eapply hoare_seq; [apply (js_branch_rule env argv _ _ K2) | intros _].
    apply after_done.
Qed.

(** The same for the Maven dependencies of the Android branch. *)
Lemma success_runs_maven_deps env argv TEMP :
  android argv = true ->
  inspected_succeed env argv ->
  hoare anything (try_block env argv TEMP)
        (fun _ s => executed maven_deps_cmd (trace s) /\ exitCode s = Some 0)
        never.
Proof.
  intros Handroid Hzero.
  pose proof (success_kept env argv Hzero) as K1.
  pose proof (success_spawn env) as KS1.
  pose proof (after_kept env argv maven_deps_cmd Hzero) as K2.
  pose proof (after_spawn env maven_deps_cmd) as KS2.
  unfold try_block.
  eapply hoare_seq; [apply (setup_rule env argv _ _ K1) | intros _].
  eapply hoare_seq; [apply (android_prebuild_rule env argv _ _ K1) | intros _].
  eapply hoare_seq; [apply (js_prebuild_rule env argv _ _ K1) | intros _].
  eapply hoare_seq; [apply (packaging_rule env argv _ _ K1) | intros _].
  eapply hoare_seq; [apply (scaffold_rule env argv _ _ K1) | intros _].
  eapply hoare_seq; [apply (copy_config_rule env argv _ _ K1) | intros _].
  eapply hoare_seq; [apply (dependency_installation_rule env argv _ _ K1) | intros _].
  eapply hoare_bind
    with (R := fun _ s => anything s /\ executed maven_deps_cmd (trace s)).
  - unfold android_branch, describe. rewrite Handroid. cbn [when].
    do 6 walk_step K1 KS1.
    eapply hoare_bind; [apply now_run; exact Hzero | intros ?].
    walk K2 KS2.
  - intros _.
    eapply hoare_seq; [apply (ios_branch_rule env argv _ _ K2 KS2) | intros _].
    eapply hoare_seq; [apply (js_branch_rule env argv _ _ K2) | intros _].
    apply after_done.
Qed.

Lemma executed_run_trace env argv cmd (Q : State -> Prop) :
  (forall s, Q s -> executed cmd (trace s) /\ exitCode s = Some 0) ->
  hoare anything (try_block env argv (TEMP env)) (fun _ => Q) never ->
  exit_status env argv = 0 /\ executed cmd (run_trace env argv).
Proof.
  intros HQ Hblock.
  destruct (run_hoare env argv anything _ never Logic.I Hblock)
    as (s1 & k1 & k2 & k3 & Htrace & [[Hpost Hstatus]|[e [[] _]]]).
  destruct (HQ s1 Hpost) as [[k Hk] Hcode].
  split.
  - rewrite Hstatus, Hcode. reflexivity.
  - exists k. rewrite Htrace. apply in_or_app. left. exact Hk.
Qed.

(* ================================================================= *)
(** ** Dependency installation, and the Android branch *)

(** C5, as the script has it.  The stage installs the packaged artifact
    with one plain [exec], whose exit code [k] is dropped, and then installs
    the declared dependencies through the Retrier.  When the last attempt
    of the dependency install fails, the run ends there with status 1,
    straight to Finalization.  When the inspected commands succeed the run
    ends with status 0 and the artifact install was run, whatever it
    returned. *)
Theorem dependency_installation_steps env argv :
  (forall st, exists k,
     dependency_installation env argv st
     = check (tryExecNTimes (exec_code env npm_install_cmd)
                            (numberOfRetries argv) (Some (exec_ env sleep10)))
             ["Failed to execute npm install";
              "Most common reason is npm registry connectivity, try again"]
             (emit_all [EvCd "EndToEndTest";
                        EvEcho "Installing React Native package";
                        EvExec (install_package_cmd env) k;
                        EvEcho "Installing node_modules"] st))
  /\ (last_run_failed npm_install_cmd (run_trace env argv) ->
      aborts_at env argv npm_install_cmd)
  /\ (inspected_succeed env argv ->
      exit_status env argv = 0
      /\ executed (install_package_cmd env) (run_trace env argv)).
Proof.
  split; [|split].
  - intros st. eexists. reflexivity.
  - intros Hlast.
    apply (last_failure_is_fatal env argv npm_install_cmd); [|assumption].
    unfold inspected, inspected_once, retried. cbn [In app].
    do 10 right. left. reflexivity.
  - intros Hzero.
    apply (executed_run_trace env argv (install_package_cmd env)
             (fun s => executed (install_package_cmd env) (trace s)
                       /\ exitCode s = Some 0)); [auto|].
    apply success_runs_package_install. exact Hzero.
Qed.

Lemma dependency_installation_steps_witness :
  aborts_at (env_failing [npm_install_cmd]) no_flags npm_install_cmd
  /\ exit_status (env_failing [install_package_cmd env_ok]) no_flags = 0.
Proof.
  split.
  - apply (proj1 (proj2 (dependency_installation_steps
                           (env_failing [npm_install_cmd]) no_flags))).
    exists 1. split; [vm_compute; reflexivity | discriminate].
  - apply (proj2 (proj2 (dependency_installation_steps
                           (env_failing [install_package_cmd env_ok]) no_flags))).
    intros history cmd Hin. vm_compute in Hin.
    repeat (destruct Hin as [<-|Hin]); [..|destruct Hin]; reflexivity.
Defined.

(** C5, as stated, fails: with three attempts allowed, the artifact
    install exits with 1, is run once, and the run goes on to install the
    dependencies and ends with status 0. *)
Lemma package_install_not_retried_not_fatal :
  let env := env_failing [install_package_cmd env_ok] in
  let argv := with_retries (Some 3%nat) no_flags in
  In (EvExec (install_package_cmd env) 1) (run_trace env argv)
  /\ count_exec (install_package_cmd env) (run_trace env argv) = 1%nat
  /\ executed npm_install_cmd (run_trace env argv)
  /\ exit_status env argv = 0.
Proof.
  vm_compute. split; [tauto|]. split; [reflexivity|].
  split; [exists 0; tauto | reflexivity].
Qed.

(** C6, as the script has it.  In the Android branch, when the last run of
    an inspected command fails (the framework install or the test run on
    their final attempt, keytool, [react-native run-android]), the run ends
    there with status 1, straight to Finalization; for keytool and
    [react-native run-android] any failing run does.  The exit code of the
    Maven download is dropped: when the inspected commands succeed the run
    ends with status 0 and the download was run, whatever it returned. *)
Theorem android_branch_failures env argv :
  (forall cmd,
     In cmd android_inspected ->
     last_run_failed cmd (run_trace env argv) ->
     aborts_at env argv cmd)
  /\ (forall cmd k,
        In cmd [keytool_cmd; run_android_cmd] ->
        k <> 0 ->
        In (EvExec cmd k) (run_trace env argv) ->
        aborts_at env argv cmd)
  /\ (android argv = true ->
      inspected_succeed env argv ->
      exit_status env argv = 0
      /\ executed maven_deps_cmd (run_trace env argv)).
Proof.
  split; [|split].
  - intros cmd Hin Hlast.
    apply (last_failure_is_fatal env argv cmd); [|assumption].
    unfold android_inspected in Hin. cbn [In] in Hin.
    unfold inspected, inspected_once, retried. cbn [In app].
    destruct Hin as [<-|[<-|[<-|[<-|[]]]]]; tauto.
  - intros cmd k Hin Hk Hrun.
    apply (inspected_once_failure_is_fatal env argv cmd k); [|assumption..].
    cbn [In] in Hin. unfold inspected_once. cbn [In].
    destruct Hin as [<-|[<-|[]]]; tauto.
  - intros Handroid Hzero.
    apply (executed_run_trace env argv maven_deps_cmd
             (fun s => executed maven_deps_cmd (trace s)
                       /\ exitCode s = Some 0)); [auto|].
    apply success_runs_maven_deps; assumption.
Qed.

Lemma android_branch_failures_witness :
  aborts_at (env_failing [mocha_cmd]) argv_android mocha_cmd
  /\ aborts_at (env_failing [keytool_cmd]) argv_android keytool_cmd
  /\ exit_status (env_failing [maven_deps_cmd]) argv_android = 0.
Proof.
  split; [|split].
  - apply (proj1 (android_branch_failures (env_failing [mocha_cmd]) argv_android)
             mocha_cmd).
    + do 3 right. left. reflexivity.
    + exists 1. split; [vm_compute; reflexivity | discriminate].
  - apply (proj1 (proj2 (android_branch_failures
                           (env_failing [keytool_cmd]) argv_android))
             keytool_cmd 1).
    + left. reflexivity.
    + discriminate.
    + vm_compute. tauto.
  - apply (proj2 (proj2 (android_branch_failures
                           (env_failing [maven_deps_cmd]) argv_android))).
    + reflexivity.
    + intros history cmd Hin. vm_compute in Hin.
      repeat (destruct Hin as [<-|Hin]); [..|destruct Hin]; reflexivity.
Defined.

(** C6, as stated, fails: the Maven download exits with 1, the branch goes
    on to keytool and the tests, and the run ends with status 0. *)
Lemma maven_download_failure_not_fatal :
  let env := env_failing [maven_deps_cmd] in
  In (EvExec maven_deps_cmd 1) (run_trace env argv_android)
  /\ executed keytool_cmd (run_trace env argv_android)
  /\ executed mocha_cmd (run_trace env argv_android)
  /\ exit_status env argv_android = 0.
Proof.
  vm_compute. split; [tauto|].
  split; [exists 0; tauto|]. split; [exists 0; tauto | reflexivity].
Qed.

(* ================================================================= *)
(** ** Setup, Scaffold, and the command line *)

Lemma bind_thrown {S A B} (m : M S A) (f : A -> M S B) s e s' :
  m s = (Thrown e, s') -> bind m f s = (Thrown e, s').
Proof. intros H. unfold bind. rewrite H. reflexivity. Qed.

Lemma bind_normal {S A B} (m : M S A) (f : A -> M S B) s a s' :
  m s = (Normal a, s') -> bind m f s = f a s'.
Proof. intros H. unfold bind. rewrite H. reflexivity. Qed.

Lemma truthy_nonzero k : k <> 0 -> truthy k = true.
Proof. intros H. unfold truthy. destruct (Z.eqb_spec k 0); [contradiction | reflexivity]. Qed.

(** C7.  When Setup is not skipped and the global CLI install fails, the
    run consists of [mktemp], the failed install and the two messages:
    no later stage runs a command, Finalization has nothing to terminate,
    and the exit status is 1. *)
Theorem setup_failure_aborts env argv :
  skip_cli_install argv = false ->
  code (exec_result env (trace (try_start env)) cli_install_cmd) <> 0 ->
  run_trace env argv
  = [EvExec mktemp_cmd (code (TEMP_result env));
     EvExec cli_install_cmd
            (code (exec_result env (trace (try_start env)) cli_install_cmd));
     EvEcho "Could not install react-native-cli globally.";
     EvEcho "Run with --skip-cli-install to skip this step"]
  /\ exit_status env argv = 1.
Proof.
  intros Hskip Hfail.
  assert (Hblock :
            try_block env argv (TEMP env) (try_start env)
            = (Thrown (JsError "1"),
               with_exitCode 1
                 (emit_all
                    (map EvEcho ["Could not install react-native-cli globally.";
                                 "Run with --skip-cli-install to skip this step"])
                    (emit (EvExec cli_install_cmd
                             (code (exec_result env (trace (try_start env))
                                                cli_install_cmd)))
                          (try_start env))))).
  { unfold try_block. apply bind_thrown.
    unfold setup. rewrite Hskip. cbn [negb when]. unfold check.
    erewrite bind_normal; [|apply exec_code_eq].
    rewrite (truthy_nonzero _ Hfail). cbn [when]. apply fatal_eq. }
  destruct (run_split env argv) as (k1 & k2 & k3 & Hrun).
  cbn zeta in Hrun. rewrite Hblock in Hrun. cbn [fst snd] in Hrun.
  unfold run_trace, exit_status. rewrite Hrun. split; reflexivity.
Qed.

Lemma setup_failure_aborts_witness :
  run_trace (env_failing [cli_install_cmd]) argv_android
  = [EvExec mktemp_cmd 0;
     EvExec cli_install_cmd 1;
     EvEcho "Could not install react-native-cli globally.";
     EvEcho "Run with --skip-cli-install to skip this step"]
  /\ exit_status (env_failing [cli_install_cmd]) argv_android = 1.
Proof.
  apply (setup_failure_aborts (env_failing [cli_install_cmd]) argv_android).
  - reflexivity.
  - vm_compute. discriminate.
Defined.

(** C8.  With two attempts allowed, when project initialization fails and
    then succeeds, the Scaffold stage runs it exactly twice, with the
    recovery action in between: the partial project directory is removed
    ([rm -rf EndToEndTest]), then a pause, then the second attempt; the
    stage completes and the pipeline goes on with whatever comes next. *)
Theorem scaffold_retries_once env argv TEMP st :
  retries argv = Some 2%nat ->
  let s1 := emit_all [EvCd TEMP;
                      EvEcho "Creating EndToEndTest React Native app"] st in
  let c1 := code (exec_result env (trace s1) (init_cmd env)) in
  let s2 := emit_all [EvExec (init_cmd env) c1; EvRm "-rf" "EndToEndTest"] s1 in
  let cs := code (exec_result env (trace s2) sleep10) in
  let s3 := emit (EvExec sleep10 cs) s2 in
  let evs := [EvCd TEMP; EvEcho "Creating EndToEndTest React Native app";
              EvExec (init_cmd env) c1;
              EvRm "-rf" "EndToEndTest"; EvExec sleep10 cs;
              EvExec (init_cmd env) 0] in
  c1 <> 0 ->
  code (exec_result env (trace s3) (init_cmd env)) = 0 ->
  (forall next : M State unit,
     (scaffold env argv TEMP ;; next) st = next (emit_all evs st))
  /\ count_exec (init_cmd env) evs = 2%nat
  /\ count_rm "EndToEndTest" evs = 1%nat.
Proof.
  intros Hretries s1 c1 s2 cs s3 evs Hc1 Hc2.
  split; [|split].
  - intros next.
    apply (bind_normal (scaffold env argv TEMP) (fun _ => next) st tt
                       (emit_all evs st)).
    unfold scaffold, numberOfRetries. rewrite Hretries.
    cbn [Nat.eqb tryExecNTimes Nat.pred retry_loop call_opt].
    unfold check.
    change ((cd TEMP ;; echo "Creating EndToEndTest React Native app" ;;
             c <- (c <- exec_code env (init_cmd env) ;;
                   if c =? 0 then ret c
                   else (rm "-rf" "EndToEndTest" ;; exec_ env sleep10) ;;
                        c0 <- exec_code env (init_cmd env) ;;
                        (if c0 =? 0 then ret c0 else ret c0)) ;;
             when (truthy c)
               (fatal ["Failed to execute react-native init";
                       "Most common reason is npm registry connectivity, try again"]))
              st)
      with ((c <- (if c1 =? 0 then ret c1
                   else (rm "-rf" "EndToEndTest" ;; exec_ env sleep10) ;;
                        c0 <- exec_code env (init_cmd env) ;;
                        (if c0 =? 0 then ret c0 else ret c0)) ;;
             when (truthy c)
               (fatal ["Failed to execute react-native init";
                       "Most common reason is npm registry connectivity, try again"]))
              (emit (EvExec (init_cmd env) c1) s1)).
    destruct (Z.eqb_spec c1 0) as [Hz|_]; [contradiction|].
    change ((c <- ((rm "-rf" "EndToEndTest" ;; exec_ env sleep10) ;;
                   c0 <- exec_code env (init_cmd env) ;;
                   (if c0 =? 0 then ret c0 else ret c0)) ;;
             when (truthy c)
               (fatal ["Failed to execute react-native init";
                       "Most common reason is npm registry connectivity, try again"]))
              (emit (EvExec (init_cmd env) c1) s1))
      with ((c <- (if code (exec_result env (trace s3) (init_cmd env)) =? 0
                   then ret (code (exec_result env (trace s3) (init_cmd env)))
                   else ret (code (exec_result env (trace s3) (init_cmd env)))) ;;
             when (truthy c)
               (fatal ["Failed to execute react-native init";
                       "Most common reason is npm registry connectivity, try again"]))
              (emit (EvExec (init_cmd env)
                            (code (exec_result env (trace s3) (init_cmd env)))) s3)).
    rewrite Hc2. reflexivity.
  - unfold evs, count_exec. cbn [filter is_exec_of].
    rewrite String.eqb_refl.
    replace (String.eqb sleep10 (init_cmd env)) with false
      by (symmetry; vm_compute; reflexivity).
    reflexivity.
  - reflexivity.
Qed.

Lemma scaffold_retries_once_witness :
  let env := env_flaky_once (init_cmd env_ok) in
  let argv := with_retries (Some 2%nat) argv_android in
  let evs := [EvCd "/tmp/rn"; EvEcho "Creating EndToEndTest React Native app";
              EvExec (init_cmd env) 1;
              EvRm "-rf" "EndToEndTest"; EvExec sleep10 0;
              EvExec (init_cmd env) 0] in
  (forall next : M State unit,
     (scaffold env argv "/tmp/rn" ;; next) initial_state
     = next (emit_all evs initial_state))
  /\ count_exec (init_cmd env) evs = 2%nat
  /\ count_rm "EndToEndTest" evs = 1%nat.
Proof.
  apply (scaffold_retries_once (env_flaky_once (init_cmd env_ok))
           (with_retries (Some 2%nat) argv_android) "/tmp/rn" initial_state).
  - reflexivity.
  - vm_compute. discriminate.
  - vm_compute. reflexivity.
Defined.

(** The scenario of C8 as a whole run: the Android target, two attempts
    allowed, initialization failing once; everything else succeeds. *)
Example scaffold_scenario_android :
  let env := env_flaky_once (init_cmd env_ok) in
  let argv := with_retries (Some 2%nat) argv_android in
  count_exec (init_cmd env) (run_trace env argv) = 2%nat
  /\ count_rm "EndToEndTest" (run_trace env argv) = 1%nat
  /\ exit_status env argv = 0.
Proof. vm_compute. repeat split. Qed.

(** C9.  When [--retries] is absent or 0 the retry count is 1, the run is
    the run with [--retries 1], and the Retrier makes one attempt of
    whatever operation it is given and returns what that attempt did. *)
Theorem retries_zero_means_one env argv :
  falsy_retries argv ->
  numberOfRetries argv = 1%nat
  /\ run env argv = run env (with_retries (Some 1%nat) argv)
  /\ (forall (S : Type) (op : M S Z) (rec : option (M S unit)) (s : S),
        tryExecNTimes op (numberOfRetries argv) rec s = op s).
Proof.
  intros Hfalsy.
  assert (HN : numberOfRetries argv = 1%nat).
  { unfold numberOfRetries. destruct Hfalsy as [-> | ->]; reflexivity. }
  split; [exact HN|]. split.
  - unfold run, script, try_block, js_prebuild, scaffold,
      dependency_installation, android_branch, ios_branch.
    rewrite HN. reflexivity.
  - intros S op rec s. rewrite HN.
    unfold tryExecNTimes. cbn [Nat.pred retry_loop]. unfold bind.
    destruct (op s) as [[c|e] s']; [|reflexivity].
    destruct (c =? 0); reflexivity.
Qed.

Lemma retries_zero_means_one_witness :
  numberOfRetries (with_retries (Some 0%nat) argv_js) = 1%nat
  /\ run env_ok (with_retries (Some 0%nat) argv_js)
     = run env_ok (with_retries (Some 1%nat) (with_retries (Some 0%nat) argv_js))
  /\ (forall (S : Type) (op : M S Z) (rec : option (M S unit)) (s : S),
        tryExecNTimes op (numberOfRetries (with_retries (Some 0%nat) argv_js)) rec s
        = op s).
Proof.
  apply (retries_zero_means_one env_ok (with_retries (Some 0%nat) argv_js)).
  right. reflexivity.
Defined.

(* ================================================================= *)
(** ** Target flags *)

Lemma ios_branch_tvos env argv :
  tvos argv = true ->
  ios_branch env argv = ios_branch env (with_ios false argv).
Proof.
  intros Htvos. unfold ios_branch, iosTestType, with_ios, numberOfRetries.
  cbn [ios tvos retries]. rewrite Htvos, orb_true_r. reflexivity.
Qed.

Lemma tvos_cmds_allowed env argv cmd k :
  tvos argv = true ->
  In cmd (try_block_cmds env argv) ->
  xcodebuild_is_tvos (EvExec cmd k) = true.
Proof.
  intros Htvos Hin.
  unfold try_block_cmds, discarded, inspected_once, retried, iosTestType in Hin.
  rewrite Htvos in Hin. cbn [In app] in Hin.
  repeat (destruct Hin as [<-|Hin]); [..|destruct Hin]; vm_compute; reflexivity.
Qed.

Lemma finalization_events_tvos server appium k1 k2 k3 :
  forallb xcodebuild_is_tvos (finalization_events server appium k1 k2 k3) = true.
Proof.
  unfold finalization_events.
  destruct (truthy_opt server), (truthy_opt appium); reflexivity.
Qed.

Lemma only_tvos_emit e s :
  xcodebuild_is_tvos e = true -> only_tvos_tests s -> only_tvos_tests (emit e s).
Proof.
  unfold only_tvos_tests, emit. cbn [trace]. intros He Hs.
  rewrite forallb_app, Hs. cbn. rewrite He. reflexivity.
Qed.

Lemma only_tvos_try_block env argv TEMP :
  tvos argv = true ->
  hoare only_tvos_tests (try_block env argv TEMP)
        (fun _ => only_tvos_tests) (fun _ => only_tvos_tests).
Proof.
  intros Htvos. apply try_block_rule.
  - apply stable_kept with (allowed := xcodebuild_is_tvos).
    + apply only_tvos_emit.
    + intros v s H. exact H.
    + intros e Hexec _. destruct e; try discriminate; reflexivity.
    + intros cmd k Hin. apply (tvos_cmds_allowed env argv); assumption.
  - apply stable_spawn with (allowed := xcodebuild_is_tvos).
    + apply only_tvos_emit.
    + reflexivity.
    + intros v s H. exact H.
    + intros v s H. exact H.
  - apply hoare_modify. intros s H. exact H.
Qed.

(** When [--tvos] is set, [--ios] makes no difference: the run is the run
    without it, and every [xcodebuild] command of the run is the one
    built with the tvOS parameters. *)
Lemma tvos_flag_decides env argv :
  tvos argv = true ->
  run env argv = run env (with_ios false argv)
  /\ forallb xcodebuild_is_tvos (run_trace env argv) = true.
Proof.
  intros Htvos. split.
  - unfold run, script, try_block.
    rewrite (ios_branch_tvos env argv Htvos). reflexivity.
  - destruct (run_hoare env argv only_tvos_tests _ _ eq_refl
                (only_tvos_try_block env argv (TEMP env) Htvos))
      as (s1 & k1 & k2 & k3 & Htrace & Hpost).
    assert (H : only_tvos_tests s1).
    { destruct Hpost as [[H _]|[e [H _]]]; exact H. }
    rewrite Htrace, forallb_app, H. apply finalization_events_tvos.
Qed.

(** With both flags set and every command succeeding, the branch is gone
    through once: one packager, one test run, with the tvOS parameters. *)
Example ios_and_tvos_run :
  let tr := run_trace env_ok argv_ios_tvos in
  count_exec (xcodebuild_cmd true "tvOS") tr = 1%nat
  /\ count_exec (xcodebuild_cmd false "iOS") tr = 0%nat
  /\ List.length (filter is_spawn tr) = 1%nat
  /\ exit_status env_ok argv_ios_tvos = 0.
Proof. vm_compute. repeat split. Qed.

(** C3, where the script breaks it: with both [--android] and [--ios] and
    every command succeeding, the Android branch starts a packager (pid
    129) and the iOS branch a second one (pid 135) into the same variable.
    Two packager handles are live at once, Finalization kills only the
    second by pid, and the first is still live when the run ends with
    status 0. *)
Theorem android_then_ios_leaves_packager :
  let tr := run_trace env_ok argv_android_ios in
  filter is_spawn tr
  = [EvSpawn "node" ["./node_modules/.bin/appium"] (Some 125);
     EvSpawn "yarn" ["start"; "--max-workers 1"] (Some 129);
     EvSpawn "yarn" ["start"] (Some 135)]
  /\ filter termination_call tr
     = [EvExec "kill -9 135" 0; EvExec sweep_cmd 0; EvExec "kill -9 125" 0]
  /\ peak_live "yarn" tr = 2%nat
  /\ live_handles "yarn" tr = [129]
  /\ live_handles "node" tr = []
  /\ exit_status env_ok argv_android_ios = 0.
Proof. vm_compute. repeat split. Qed.

(** With one target the packager handle is single and is terminated. *)
Example android_alone_terminates_packager :
  let tr := run_trace env_ok argv_android in
  peak_live "yarn" tr = 1%nat
  /\ live_handles "yarn" tr = []
  /\ live_handles "node" tr = [].
Proof. vm_compute. repeat split. Qed.

(* ================================================================= *)
(** ** The [try] block, step by step *)

Section Performs.
Variable P : list Action -> State -> Prop.
Variable E : list Action -> Exn -> State -> Prop.

Lemma performs_quiet A (m : M State A) :
  (forall L X, hoare (P L) m (fun _ => P L) X) -> performs P E m [].
Proof.
  intros H L. rewrite app_nil_r. apply H.
Qed.

Lemma performs_one A (m : M State A) a :
  (forall L X, hoare (P L) m (fun _ => P (L ++ [a])) X) -> performs P E m [a].
Proof. intros H L. apply H. Qed.

Lemma performs_inspected A (m : M State A) a :
  (forall L, hoare (P L) m (fun _ => P (L ++ [a])) (E (L ++ [a]))) ->
  performs P E m [a].
Proof.
  intros H L.
  eapply hoare_conseq;
    [apply (H L) | intros s Hs; exact Hs | intros a0 s Hs; exact Hs |].
  intros e s He. exists [a], []. split; [reflexivity | exact He].
Qed.

Lemma performs_get : performs P E (@get State) [].
Proof. apply performs_quiet. intros L X. apply hoare_get. auto. Qed.

Lemma performs_bind A B (m : M State A) (f : A -> M State B) S1 S2 :
  performs P E m S1 ->
  (forall a, performs P E (f a) S2) ->
  performs P E (bind m f) (S1 ++ S2).
Proof.
  intros Hm Hf L. eapply hoare_bind.
  - eapply hoare_conseq;
      [apply (Hm L) | intros s Hs; exact Hs | intros a s H; exact H |].
    intros e s (L1 & L2 & -> & He).
    exists L1, (L2 ++ S2). split; [symmetry; apply app_assoc | exact He].
  - intros a. eapply hoare_conseq;
      [apply (Hf a (L ++ S1)) | intros s Hs; exact Hs | |].
    + intros b s H. cbv beta in H. rewrite <- app_assoc in H. exact H.
    + intros e s (L1 & L2 & -> & He).
      exists (S1 ++ L1), L2. split; [apply app_assoc |].
      rewrite app_assoc. exact He.
Qed.

Lemma performs_when (g : bool) (m : M State unit) S :
  (g = true -> performs P E m S) ->
  performs P E (when g m) (under g S).
Proof.
  intros H L. destruct g; cbn [when under].
  - apply H. reflexivity.
  - apply hoare_ret. intros s Hs. rewrite app_nil_r. exact Hs.
Qed.

Lemma performs_assoc A B C (m : M State A) (f : A -> M State B)
      (g : B -> M State C) S :
  performs P E (bind (bind m f) g) S ->
  performs P E (bind m (fun a => bind (f a) g)) S.
Proof. intros H L. apply hoare_assoc. apply H. Qed.

Lemma performs_from_start A (m : M State A) S :
  performs P E m S ->
  hoare (P []) m (fun _ => P S) (thrown_within E [] S).
Proof. intros H. exact (H []). Qed.

Lemma performs_eq A (m : M State A) S S' :
  performs P E m S -> S = S' -> performs P E m S'.
Proof. intros H <-. exact H. Qed.

End Performs.

Ltac in_steps :=
  unfold dropped_steps, checked_steps, retried_steps, spawn_steps; cbn [In];
  repeat first [left; reflexivity | right].

(** One statement whose rule is in [W]; [gtac] proves its guard. *)
Ltac step_prim W gtac :=
  lazymatch goal with
  | |- performs _ _ get _ => apply performs_get
  | |- performs _ _ (echo _) _ =>
      apply performs_quiet; intros ? ?; apply (step_echo W)
  | |- performs _ _ (set_exitCode 0) _ =>
      apply performs_quiet; intros ? ?; apply (step_exit W)
  | |- performs _ _ (cd _) _ =>
      apply performs_one; intros ? ?; apply (step_cd W)
  | |- performs _ _ (cp _ _) _ =>
      apply performs_one; intros ? ?; apply (step_cp W)
  | |- performs _ _ (exec_ _ _) _ =>
      apply performs_one; intros ? ?; eapply (step_drop W); [ | gtac]; in_steps
  | |- performs _ _ (check (exec_code _ _) _) _ =>
      apply performs_inspected; intros ?;
      eapply (step_check W); [ | gtac]; in_steps
  | |- performs _ _ (check (tryExecNTimes _ _ _) _) _ =>
      apply performs_inspected; intros ?;
      eapply (step_retry W); [ | gtac]; in_steps
  | |- performs _ _ (bind (spawn _ "node" _) _) _ =>
      apply performs_one; intros ? ?;
      eapply (step_appium W); [ | gtac]; in_steps
  | |- performs _ _ (bind (spawn _ "yarn" _) _) _ =>
      apply performs_one; intros ? ?;
      eapply (step_server W); [ | gtac]; in_steps
  end.

Ltac step_next W gtac :=
  lazymatch goal with
  | |- performs _ _ (bind (spawn _ _ _) (fun _ => bind _ _)) _ =>
      apply performs_assoc; eapply performs_bind;
      [solve [step_prim W gtac] | intros ?]
  | |- performs _ _ (bind _ _) _ =>
      eapply performs_bind; [solve [step_prim W gtac] | intros ?]
  | |- _ => solve [step_prim W gtac]
  end.

(** A stage: the steps it does are read off while walking it; the
    statements of a guarded stage are reached under its condition. *)
Ltac plain_stage W :=
  eapply performs_eq;
  [repeat step_next W ltac:(reflexivity) | reflexivity].

Ltac guarded_stage W :=
  eapply performs_eq;
  [apply performs_when; let Hg := fresh "Hg" in
   intros Hg; repeat step_next W ltac:(exact Hg)
  | reflexivity].

Section StepRules.
Variable env : Env.
Variable argv : Argv.
Variable P : list Action -> State -> Prop.
Variable E : list Action -> Exn -> State -> Prop.
Hypothesis W : Stepwise env argv P E.

Lemma setup_steps :
  performs P E (setup env argv)
    (under (negb (skip_cli_install argv)) [Run cli_install_cmd]).
Proof. unfold setup. guarded_stage W. Qed.

Lemma android_prebuild_steps :
  performs P E (android_prebuild env argv)
    (under (android argv) [Run install_archives_cmd]).
Proof. unfold android_prebuild. guarded_stage W. Qed.

Lemma js_prebuild_steps :
  performs P E (js_prebuild env argv) (under (js argv) [Run flow_install_cmd]).
Proof. unfold js_prebuild. guarded_stage W. Qed.

Lemma packaging_steps : performs P E (packaging env) [Run pack_cmd].
Proof. unfold packaging. plain_stage W. Qed.

Lemma scaffold_steps TEMP :
  performs P E (scaffold env argv TEMP) [Chdir TEMP; Run (init_cmd env)].
Proof. unfold scaffold. plain_stage W. Qed.

Lemma copy_config_steps :
  performs P E (copy_config env)
    [Copy (METRO_CONFIG env) "EndToEndTest/.";
     Copy (RN_POLYFILLS env) "EndToEndTest/."].
Proof. unfold copy_config. plain_stage W. Qed.

Lemma dependency_steps :
  performs P E (dependency_installation env argv)
    [Chdir "EndToEndTest"; Run (install_package_cmd env); Run npm_install_cmd].
Proof. unfold dependency_installation. plain_stage W. Qed.

Lemma android_branch_steps :
  performs P E (android_branch env argv)
    (under (android argv)
       [Run appium_install_cmd;
        Copy (SCRIPTS env ++ "/android-e2e-test.js") "android-e2e-test.js";
        Chdir "android"; Run maven_deps_cmd; Chdir "..";
        Run rm_keystore_cmd; Run keytool_cmd;
        Start "node" ["./node_modules/.bin/appium"];
        Run run_android_cmd;
        Start "yarn" ["start"; "--max-workers 1"];
        Run sleep15; Run mocha_cmd]).
Proof. unfold android_branch, describe. guarded_stage W. Qed.

Lemma ios_branch_steps :
  performs P E (ios_branch env argv)
    (under (ios argv || tvos argv)
       [Chdir "ios"; Start "yarn" ["start"]; Run sleep15; Run curl_cmd;
        Run pod_install_cmd;
        Run (xcodebuild_cmd (tvos argv) (iosTestType argv)); Chdir ".."]).
Proof. unfold ios_branch, describe. guarded_stage W. Qed.

Lemma js_branch_steps :
  performs P E (js_branch env argv)
    (under (js argv)
       [Run android_bundle_cmd; Run ios_bundle_cmd; Run (flow_check_cmd env)]).
Proof. unfold js_branch, describe. guarded_stage W. Qed.

Lemma try_block_steps :
  performs P E (try_block env argv (TEMP env)) (selected (pipeline env argv)).
Proof.
  unfold try_block. eapply performs_eq.
  - eapply performs_bind; [apply setup_steps | intros _].
    eapply performs_bind; [apply android_prebuild_steps | intros _].
    eapply performs_bind; [apply js_prebuild_steps | intros _].
    eapply performs_bind; [apply packaging_steps | intros _].
    eapply performs_bind; [apply scaffold_steps | intros _].
    eapply performs_bind; [apply copy_config_steps | intros _].
    eapply performs_bind; [apply dependency_steps | intros _].
    eapply performs_bind; [apply android_branch_steps | intros _].
    eapply performs_bind; [apply ios_branch_steps | intros _].
    eapply performs_bind; [apply js_branch_steps | intros _].
    step_prim W ltac:(reflexivity).
  - unfold pipeline, selected.
    destruct (skip_cli_install argv), (android argv), (js argv),
      (ios argv || tvos argv); reflexivity.
Qed.

(** The whole block, from no step done. *)
Lemma try_block_stepwise :
  hoare (P []) (try_block env argv (TEMP env))
        (fun _ => P (selected (pipeline env argv)))
        (thrown_within E [] (selected (pipeline env argv))).
Proof. apply performs_from_start. exact try_block_steps. Qed.

(** The whole run: its trace is the body followed by Finalization for the
    handles the body's spawns returned. *)
Lemma run_stepwise :
  P [] (try_start env) ->
  exists s1 k1 k2 k3,
    run_trace env argv
    = trace s1 ++ finalization_events (last_spawn "yarn" (trace s1))
                                      (last_spawn "node" (trace s1)) k1 k2 k3
    /\ ((P (selected (pipeline env argv)) s1 /\ exit_status env argv = 0)
        \/ ((exists e, thrown_within E [] (selected (pipeline env argv)) e s1)
            /\ exit_status env argv = 1)).
Proof.
  intros Hstart.
  destruct (run_hoare env argv
              (fun s => (handles_tracked s /\ anything s) /\ P [] s)
              (fun _ s => (handles_tracked s /\ exitCode s = Some 0)
                          /\ P (selected (pipeline env argv)) s)
              (fun e s => (handles_tracked s /\ anything s)
                          /\ thrown_within E [] (selected (pipeline env argv)) e s))
    as (s1 & k1 & k2 & k3 & Htrace & Hend).
  - split; [split; [apply handles_tracked_start | exact Logic.I] | exact Hstart].
  - apply hoare_and; [apply hoare_and |].
    + apply handles_tracked_try_block.
    + apply try_block_exitCode.
    + apply try_block_stepwise.
  - exists s1, k1, k2, k3.
    destruct Hend as [[[[Ht Hexit] HP] Hstatus] | (e & [[Ht _] HE] & Hstatus)].
    + destruct Ht as (_ & Hserver & Happium).
      rewrite <- Hserver, <- Happium. split; [exact Htrace|].
      left. split; [exact HP|]. rewrite Hstatus, Hexit. reflexivity.
    + destruct Ht as (_ & Hserver & Happium).
      rewrite <- Hserver, <- Happium. split; [exact Htrace|].
      right. split; [exists e; exact HE | exact Hstatus].
Qed.

End StepRules.

(* ================================================================= *)
(** ** The tables agree with the pipeline *)

Ltac in_pipeline :=
  unfold pipeline; cbn [In]; repeat first [left; reflexivity | right].

Lemma dropped_in_pipeline env argv g cmd :
  In (g, cmd) (dropped_steps env argv) -> In (g, Run cmd) (pipeline env argv).
Proof.
  unfold dropped_steps. cbn [In]. intros H.
  repeat (destruct H as [H|H]; [injection H as <- <-; in_pipeline|]).
  contradiction.
Qed.

Lemma checked_in_pipeline env argv g cmd msgs :
  In (g, cmd, msgs) (checked_steps env argv) ->
  In (g, Run cmd) (pipeline env argv).
Proof.
  unfold checked_steps. cbn [In]. intros H.
  repeat (destruct H as [H|H]; [injection H as <- <- <-; in_pipeline|]).
  contradiction.
Qed.

Lemma retried_in_pipeline env argv g cmd rec msgs :
  In (g, cmd, rec, msgs) (retried_steps env argv) ->
  In (g, Run cmd) (pipeline env argv).
Proof.
  unfold retried_steps. cbn [In]. intros H.
  repeat (destruct H as [H|H]; [injection H as <- <- <- <-; in_pipeline|]).
  contradiction.
Qed.

Lemma spawn_in_pipeline env argv g cmd args :
  In (g, cmd, args) (spawn_steps argv) ->
  In (g, Start cmd args) (pipeline env argv).
Proof.
  unfold spawn_steps. cbn [In]. intros H.
  repeat (destruct H as [H|H]; [injection H as <- <- <-; in_pipeline|]).
  contradiction.
Qed.

Lemma retried_recovery env argv g cmd rec msgs :
  In (g, cmd, rec, msgs) (retried_steps env argv) -> In rec (recoveries env).
Proof.
  unfold retried_steps, recoveries. cbn [In]. intros H.
  repeat (destruct H as [H|H];
          [injection H as <- <- <- <-; repeat first [left; reflexivity | right]|]).
  contradiction.
Qed.

Lemma retried_is_retried env argv g cmd rec msgs :
  In (g, cmd, rec, msgs) (retried_steps env argv) -> In cmd (retried env argv).
Proof.
  unfold retried_steps, retried. cbn [In]. intros H.
  repeat (destruct H as [H|H];
          [injection H as <- <- <- <-; repeat first [left; reflexivity | right]|]).
  contradiction.
Qed.

Lemma checked_is_inspected_once env argv g cmd msgs :
  In (g, cmd, msgs) (checked_steps env argv) -> In cmd (inspected_once env).
Proof.
  unfold checked_steps, inspected_once. cbn [In]. intros H.
  repeat (destruct H as [H|H];
          [injection H as <- <- <-; repeat first [left; reflexivity | right]|]).
  contradiction.
Qed.

Lemma selected_In g a steps :
  In (g, a) steps -> g = true -> In a (selected steps).
Proof.
  intros Hin ->. unfold selected. apply in_flat_map.
  exists (true, a). split; [exact Hin | left; reflexivity].
Qed.

Lemma In_selected a steps :
  In a (selected steps) -> In (true, a) steps.
Proof.
  unfold selected. intros H. apply in_flat_map in H.
  destruct H as ([g b] & Hin & Ha). cbn [fst snd] in Ha.
  destruct g; cbn [under In] in Ha; [|contradiction].
  destruct Ha as [<-|[]]. exact Hin.
Qed.

(* ================================================================= *)
(** ** Invariants kept by every event a reached statement produces *)

Section Footprint.
Variable env : Env.
Variable argv : Argv.
Variable allowed : Event -> Prop.
Variable I : State -> Prop.

Hypothesis I_emit : forall e s, allowed e -> I s -> I (emit e s).
Hypothesis I_exit : forall v s, I s -> I (with_exitCode v s).
Hypothesis I_server : forall v s, I s -> I (with_SERVER_PID v s).
Hypothesis I_appium : forall v s, I s -> I (with_APPIUM_PID v s).
Hypothesis allowed_echo : forall msg, allowed (EvEcho msg).
Hypothesis allowed_cd : forall dir, allowed (EvCd dir).
Hypothesis allowed_cp : forall src dst, allowed (EvCp src dst).
Hypothesis allowed_rm : allowed (EvRm "-rf" "EndToEndTest").
Hypothesis allowed_sleep : forall k, allowed (EvExec sleep10 k).
Hypothesis allowed_run :
  forall cmd k, In (Run cmd) (selected (pipeline env argv)) ->
    allowed (EvExec cmd k).
Hypothesis allowed_start :
  forall cmd args p, In (Start cmd args) (selected (pipeline env argv)) ->
    allowed (EvSpawn cmd args p).

Let X : Exn -> State -> Prop := fun _ => I.

Lemma footprint_echoes msgs s : I s -> I (emit_all (map EvEcho msgs) s).
Proof.
  revert s. induction msgs as [|m ms IH]; intros s Hs; cbn; [exact Hs|].
  apply IH. apply I_emit; auto.
Qed.

Lemma footprint_exec_code cmd :
  In (Run cmd) (selected (pipeline env argv)) ->
  hoare I (exec_code env cmd) (fun _ => I) X.
Proof. intros Hc s Hs. rewrite exec_code_eq. apply I_emit; auto. Qed.

Lemma footprint_check m msgs :
  hoare I m (fun _ => I) X -> hoare I (check m msgs) (fun _ => I) X.
Proof.
  intros Hm. eapply hoare_check; [exact Hm| |].
  - intros c s Hs _. apply I_exit. apply footprint_echoes. exact Hs.
  - auto.
Qed.

Lemma footprint_recovery rec :
  In rec (recoveries env) -> hoare I (call_opt rec) (fun _ => I) X.
Proof.
  intros Hin. unfold recoveries in Hin. cbn [In] in Hin.
  destruct Hin as [<-|[<-|[<-|[]]]]; cbn [call_opt].
  - apply hoare_ret; auto.
  - intros s Hs. rewrite exec__eq. apply I_emit; auto.
  - eapply hoare_seq; [apply hoare_modify; intros s Hs; apply I_emit; auto|].
    intros _ s Hs. rewrite exec__eq. apply I_emit; auto.
Qed.

Lemma footprint_stepwise : Stepwise env argv (fun _ => I) (fun _ => X).
Proof.
  constructor.
  - intros _ msg Y. apply hoare_modify. intros s Hs. apply I_emit; auto.
  - intros _ dir Y. apply hoare_modify. intros s Hs. apply I_emit; auto.
  - intros _ src dst Y. apply hoare_modify. intros s Hs. apply I_emit; auto.
  - intros _ g cmd Y Hin Hg s Hs. rewrite exec__eq. apply I_emit; [|exact Hs].
    apply allowed_run. eapply selected_In; [|exact Hg].
    apply dropped_in_pipeline. exact Hin.
  - intros _ g cmd msgs Hin Hg. apply footprint_check, footprint_exec_code.
    eapply selected_In; [|exact Hg]. eapply checked_in_pipeline. exact Hin.
  - intros _ g cmd rec msgs Hin Hg. apply footprint_check.
    apply hoare_tryExecNTimes with (I := I).
    + apply footprint_exec_code.
      eapply selected_In; [|exact Hg]. eapply retried_in_pipeline. exact Hin.
    + intros c _. apply footprint_recovery. eapply retried_recovery. exact Hin.
  - intros _ g args Y Hin Hg s Hs.
    unfold bind, spawn, set_APPIUM_PID, modify.
    apply I_appium, I_emit; [|exact Hs].
    apply allowed_start. eapply selected_In; [|exact Hg].
    apply spawn_in_pipeline. exact Hin.
  - intros _ g args Y Hin Hg s Hs.
    unfold bind, spawn, set_SERVER_PID, modify.
    apply I_server, I_emit; [|exact Hs].
    apply allowed_start. eapply selected_In; [|exact Hg].
    apply spawn_in_pipeline. exact Hin.
  - intros _ Y. apply hoare_modify. intros s Hs. apply I_exit. exact Hs.
Qed.

End Footprint.

(* ================================================================= *)
(** ** What a run may do *)

Lemma body_reached env argv :
  exists body k1 k2 k3,
    run_trace env argv
    = body ++ finalization_events (last_spawn "yarn" body)
                                  (last_spawn "node" body) k1 k2 k3
    /\ Forall (reached env argv) body.
Proof.
  destruct (run_stepwise env argv
              (fun _ s => Forall (reached env argv) (trace s))
              (fun _ _ s => Forall (reached env argv) (trace s)))
    as (s1 & k1 & k2 & k3 & Htrace & Hend).
  - apply footprint_stepwise with (allowed := reached env argv).
    + intros e s He Hs. cbn [trace emit]. apply Forall_app. split; [exact Hs|].
      constructor; [exact He | constructor].
    + intros v s Hs. exact Hs.
    + intros v s Hs. exact Hs.
    + intros v s Hs. exact Hs.
    + intros msg. exact Logic.I.
    + intros dir. exact Logic.I.
    + intros src dst. exact Logic.I.
    + split; reflexivity.
    + intros k. right. left. reflexivity.
    + intros cmd k H. right. right. exact H.
    + intros cmd args p H. exact H.
  - constructor; [left; reflexivity | constructor].
  - exists (trace s1), k1, k2, k3. split; [exact Htrace|].
    destruct Hend as [[H _] | [(e & L1 & L2 & _ & H) _]]; exact H.
Qed.

Lemma run_event_cases env argv e :
  In e (run_trace env argv) ->
  reached env argv e
  \/ exists server appium k1 k2 k3,
       In e (finalization_events server appium k1 k2 k3).
Proof.
  destruct (body_reached env argv) as (body & k1 & k2 & k3 & -> & Hbody).
  intros Hin. apply in_app_or in Hin. destruct Hin as [Hin|Hin].
  - left. rewrite Forall_forall in Hbody. apply Hbody. exact Hin.
  - right. eauto 6.
Qed.

Lemma finalization_no_spawn server appium k1 k2 k3 cmd args p :
  ~ In (EvSpawn cmd args p) (finalization_events server appium k1 k2 k3).
Proof.
  unfold finalization_events. intros H. apply in_app_or in H.
  destruct (truthy_opt server), (truthy_opt appium); cbn [In] in H;
    repeat (destruct H as [H|H]; try discriminate H); exact H.
Qed.

Lemma finalization_no_rm server appium k1 k2 k3 opts path :
  ~ In (EvRm opts path) (finalization_events server appium k1 k2 k3).
Proof.
  unfold finalization_events. intros H. apply in_app_or in H.
  destruct (truthy_opt server), (truthy_opt appium); cbn [In] in H;
    repeat (destruct H as [H|H]; try discriminate H); exact H.
Qed.

Lemma finalization_commands server appium k1 k2 k3 cmd k :
  In (EvExec cmd k) (finalization_events server appium k1 k2 k3) ->
  cmd = sweep_cmd \/ exists pid, cmd = kill_cmd pid.
Proof.
  unfold finalization_events. intros H. apply in_app_or in H.
  destruct H as [H|H];
    [destruct (truthy_opt server) | destruct (truthy_opt appium)];
    cbn [In] in H;
    repeat (destruct H as [H|H];
            [first [discriminate H
                   | injection H as <- _; first [left; reflexivity | right; eauto]]|]);
    contradiction.
Qed.

Lemma actions_app tr1 tr2 : actions (tr1 ++ tr2) = actions tr1 ++ actions tr2.
Proof. unfold actions. apply flat_map_app. Qed.

Lemma actions_Run tr cmd :
  In (Run cmd) (actions tr) <-> executed cmd tr.
Proof.
  unfold actions, executed. rewrite in_flat_map. split.
  - intros (e & He & Ha). destruct e; cbn [action_of In] in Ha;
      try contradiction; destruct Ha as [Ha|[]]; try discriminate Ha.
    injection Ha as ->. eauto.
  - intros (k & Hk). exists (EvExec cmd k). split; [exact Hk | left; reflexivity].
Qed.

Lemma actions_Start tr cmd args :
  In (Start cmd args) (actions tr) <-> exists p, In (EvSpawn cmd args p) tr.
Proof.
  unfold actions. rewrite in_flat_map. split.
  - intros (e & He & Ha). destruct e; cbn [action_of In] in Ha;
      try contradiction; destruct Ha as [Ha|[]]; try discriminate Ha.
    injection Ha as -> ->. eauto.
  - intros (p & Hp). exists (EvSpawn cmd args p).
    split; [exact Hp | left; reflexivity].
Qed.

(** X1: the commands a run executes, the processes it starts and what it
    removes are those of line 33, of the reached statements of the [try]
    block, of the recovery actions and of the [finally] block, and no
    other. *)
Theorem run_within_reached env argv :
  (forall cmd k, In (EvExec cmd k) (run_trace env argv) ->
     cmd = mktemp_cmd \/ cmd = sleep10
     \/ In (Run cmd) (selected (pipeline env argv))
     \/ cmd = sweep_cmd \/ exists pid, cmd = kill_cmd pid)
  /\ (forall cmd args p, In (EvSpawn cmd args p) (run_trace env argv) ->
        In (Start cmd args) (selected (pipeline env argv)))
  /\ (forall opts path, In (EvRm opts path) (run_trace env argv) ->
        opts = "-rf" /\ path = "EndToEndTest").
Proof.
  split; [|split].
  - intros cmd k Hin.
    destruct (run_event_cases env argv _ Hin)
      as [H | (server & appium & k1 & k2 & k3 & H)].
    + cbn [reached] in H. tauto.
    + apply finalization_commands in H. tauto.
  - intros cmd args p Hin.
    destruct (run_event_cases env argv _ Hin)
      as [H | (server & appium & k1 & k2 & k3 & H)].
    + cbn [reached] in H. exact H.
    + apply finalization_no_spawn in H. contradiction.
  - intros opts path Hin.
    destruct (run_event_cases env argv _ Hin)
      as [H | (server & appium & k1 & k2 & k3 & H)].
    + cbn [reached] in H. exact H.
    + apply finalization_no_rm in H. contradiction.
Qed.

Lemma performed_cases env argv a :
  In a (actions (run_trace env argv)) ->
  match a with
  | Run cmd =>
      cmd = mktemp_cmd \/ cmd = sleep10
      \/ In a (selected (pipeline env argv))
      \/ termination_call (EvExec cmd 0) = true
  | Start _ _ => In a (selected (pipeline env argv))
  | _ => True
  end.
Proof.
  intros Hin. destruct a as [cmd|cmd args| | |]; try exact Logic.I.
  - apply actions_Run in Hin. destruct Hin as [k Hin].
    destruct (run_event_cases env argv _ Hin)
      as [H | (server & appium & k1 & k2 & k3 & H)].
    + cbn [reached] in H. tauto.
    + apply finalization_events_termination in H. tauto.
  - apply actions_Start in Hin. destruct Hin as [p Hin].
    destruct (run_event_cases env argv _ Hin)
      as [H | (server & appium & k1 & k2 & k3 & H)].
    + cbn [reached] in H. exact H.
    + apply finalization_no_spawn in H. contradiction.
Qed.

(** A step of the pipeline differs from the action looked for, or its
    guard is off. *)
Ltac step_mismatch H :=
  let Hg := fresh "Hg" in
  let Ha := fresh "Ha" in
  apply pair_equal_spec in H; destruct H as [Hg Ha];
  first
    [ discriminate Hg
    | discriminate Ha
    | injection Ha as Ha; refute_eq Ha
    | let Hc := fresh "Hc" in
      injection Ha as Hc Ha; first [refute_eq Hc | discriminate Ha] ].

(** [H : In a (selected (pipeline env argv))] is absurd once the guards
    have been rewritten with the flags. *)
Ltac off_pipeline H rw :=
  apply In_selected in H; unfold pipeline in H; cbn [In] in H; rw H;
  repeat (destruct H as [H|H]; [exfalso; step_mismatch H|]);
  exact H.

Ltac not_performed rw :=
  let H := fresh "H" in
  intros H; apply performed_cases in H; cbv beta iota in H;
  first
    [ destruct H as [H|[H|[H|H]]];
      [ refute_eq H | refute_eq H | off_pipeline H rw
      | vm_compute in H; discriminate H ]
    | off_pipeline H rw ].

(** X2: with [--skip-cli-install], the global installation of the CLI is
    never run. *)
Theorem skip_cli_install_skips env argv :
  skip_cli_install argv = true ->
  ~ executed cli_install_cmd (run_trace env argv).
Proof.
  intros Hskip H. apply actions_Run in H. revert H.
  not_performed ltac:(fun H => rewrite Hskip in H; cbn [negb] in H).
Qed.

Lemma skip_cli_install_skips_witness :
  ~ executed cli_install_cmd (run_trace env_ok argv_skip).
Proof. apply (skip_cli_install_skips env_ok argv_skip). reflexivity. Defined.

(** X3: without [--android], no command of the Android target is run and
    neither appium nor the Android packager is started. *)
Theorem android_off env argv a :
  android argv = false ->
  In a android_steps ->
  ~ In a (actions (run_trace env argv)).
Proof.
  intros Hoff Hin. unfold android_steps in Hin. cbn [In] in Hin.
  repeat (destruct Hin as [<-|Hin];
          [not_performed ltac:(fun H => rewrite ?Hoff in H)|]).
  contradiction.
Qed.

Lemma android_off_witness :
  ~ In (Run keytool_cmd) (actions (run_trace env_ok argv_js)).
Proof.
  apply (android_off env_ok argv_js (Run keytool_cmd)); [reflexivity|].
  unfold android_steps. cbn [In]. tauto.
Defined.

(** X4: with neither [--ios] nor [--tvos], the packager of that branch is
    not started, and neither the warm-up request, nor [pod install], nor
    any [xcodebuild] is run. *)
Theorem ios_tvos_off env argv a :
  ios argv = false ->
  tvos argv = false ->
  In a ios_steps ->
  ~ In a (actions (run_trace env argv)).
Proof.
  intros Hios Htvos Hin. unfold ios_steps in Hin. cbn [In] in Hin.
  repeat (destruct Hin as [<-|Hin];
          [not_performed
             ltac:(fun H => rewrite ?Hios, ?Htvos in H; cbn [orb] in H)|]).
  contradiction.
Qed.

Lemma ios_tvos_off_witness :
  ~ In (Run pod_install_cmd) (actions (run_trace env_ok argv_android)).
Proof.
  apply (ios_tvos_off env_ok argv_android (Run pod_install_cmd));
    [reflexivity | reflexivity |].
  unfold ios_steps. cbn [In]. tauto.
Defined.

(** X5: without [--js], Flow is neither installed nor run and no bundle is
    built. *)
Theorem js_off env argv a :
  js argv = false ->
  In a (js_steps env) ->
  ~ In a (actions (run_trace env argv)).
Proof.
  intros Hoff Hin. unfold js_steps in Hin. cbn [In] in Hin.
  repeat (destruct Hin as [<-|Hin];
          [not_performed ltac:(fun H => rewrite ?Hoff in H)|]).
  contradiction.
Qed.

Lemma js_off_witness :
  ~ In (Run (flow_check_cmd env_ok)) (actions (run_trace env_ok argv_android)).
Proof.
  apply (js_off env_ok argv_android (Run (flow_check_cmd env_ok)));
    [reflexivity|].
  unfold js_steps. cbn [In]. tauto.
Defined.

Lemma selected_not_termination env argv cmd k :
  In (Run cmd) (selected (pipeline env argv)) ->
  termination_call (EvExec cmd k) = false.
Proof.
  intros H. apply In_selected in H. unfold pipeline in H. cbn [In] in H.
  repeat (destruct H as [H|H];
          [apply pair_equal_spec in H; destruct H as [_ H];
           first [discriminate H | injection H as <-; reflexivity]|]).
  contradiction.
Qed.

Lemma last_spawn_from cmd tr acc :
  Forall (fun e => is_spawn e = false) tr ->
  fold_left
    (fun acc e =>
       match e with
       | EvSpawn c _ p => if String.eqb c cmd then p else acc
       | _ => acc
       end) tr acc = acc.
Proof.
  revert acc. induction tr as [|e tr IH]; intros acc Hall; [reflexivity|].
  inversion Hall as [|e' tr' He Htr]; subst. cbn [fold_left].
  destruct e; try discriminate He; apply IH; exact Htr.
Qed.

Lemma last_spawn_none cmd tr :
  Forall (fun e => is_spawn e = false) tr -> last_spawn cmd tr = None.
Proof. apply last_spawn_from. Qed.

(** X6: when no target that starts a background process is selected
    (neither [--android], nor [--ios], nor [--tvos]), the run starts no
    process and the [finally] block does nothing: no termination call is
    made. *)
Theorem no_server_no_termination env argv e :
  android argv = false ->
  ios argv = false ->
  tvos argv = false ->
  In e (run_trace env argv) ->
  is_spawn e = false /\ termination_call e = false.
Proof.
  intros Handroid Hios Htvos.
  destruct (body_reached env argv) as (body & k1 & k2 & k3 & -> & Hbody).
  assert (Hquiet : Forall (fun e => is_spawn e = false) body).
  { rewrite Forall_forall in *. intros e' He'. specialize (Hbody _ He').
    destruct e'; try reflexivity. cbn [reached] in Hbody. exfalso.
    off_pipeline Hbody
      ltac:(fun H => rewrite ?Handroid, ?Hios, ?Htvos in H; cbn [orb] in H). }
  rewrite !(last_spawn_none _ _ Hquiet). cbn [finalization_events truthy_opt app].
  rewrite app_nil_r. intros Hin. rewrite Forall_forall in Hquiet, Hbody.
  split; [apply Hquiet; exact Hin|].
  specialize (Hbody _ Hin). destruct e; try reflexivity.
  cbn [reached] in Hbody. destruct Hbody as [->|[->|H]]; [reflexivity..|].
  eapply selected_not_termination. exact H.
Qed.

Lemma no_server_no_termination_witness :
  is_spawn (EvExec mktemp_cmd 0) = false
  /\ termination_call (EvExec mktemp_cmd 0) = false.
Proof.
  apply (no_server_no_termination env_ok argv_js (EvExec mktemp_cmd 0));
    [reflexivity | reflexivity | reflexivity |].
  vm_compute. left. reflexivity.
Defined.

(* ================================================================= *)
(** ** The steps done, in order *)

Lemma done_exactly_emit L e s :
  done_exactly L s -> done_exactly (L ++ action_of e) (emit e s).
Proof.
  unfold done_exactly. intros H. cbn [trace emit].
  rewrite actions_app, H. cbn [actions flat_map]. rewrite app_nil_r. reflexivity.
Qed.

Lemma done_exactly_echoes L msgs s :
  done_exactly L s -> done_exactly L (emit_all (map EvEcho msgs) s).
Proof.
  revert s. induction msgs as [|m ms IH]; intros s Hs; cbn; [exact Hs|].
  apply IH. apply (done_exactly_emit L (EvEcho m)) in Hs.
  cbn [action_of] in Hs. rewrite app_nil_r in Hs. exact Hs.
Qed.

Lemma done_exactly_quiet L msg :
  forall X, hoare (done_exactly L) (echo msg) (fun _ => done_exactly L) X.
Proof.
  intros X. apply hoare_modify. intros s Hs.
  apply (done_exactly_emit L (EvEcho msg)) in Hs.
  cbn [action_of] in Hs. rewrite app_nil_r in Hs. exact Hs.
Qed.

Lemma done_exactly_exec_code env L cmd X :
  hoare (done_exactly L) (exec_code env cmd)
        (fun c s => done_exactly (L ++ [Run cmd]) s
                    /\ exists s0, s = emit (EvExec cmd c) s0)
        X.
Proof.
  intros s Hs. rewrite exec_code_eq. split.
  - apply (done_exactly_emit L (EvExec cmd _)). exact Hs.
  - eexists. reflexivity.
Qed.

Lemma last_run_failed_fatal cmd c msgs s0 :
  c <> 0 ->
  last_run_failed cmd
    (trace (with_exitCode 1 (emit_all (map EvEcho msgs) (emit (EvExec cmd c) s0)))).
Proof.
  intros Hc. cbn [trace with_exitCode]. rewrite trace_emit_all. cbn [trace emit].
  exists c. split; [|exact Hc].
  rewrite (last_code_not_run cmd _ _ (not_run_echoes cmd msgs)).
  rewrite last_code_snoc, String.eqb_refl. reflexivity.
Qed.

(** Every statement but the inspected ones, which depend on what the
    commands return and on the number of retries. *)
Section Exact.
Variable env : Env.
Variable argv : Argv.
Variable E : list Action -> Exn -> State -> Prop.

Hypothesis exact_check :
  forall L g cmd msgs,
    In (g, cmd, msgs) (checked_steps env argv) -> g = true ->
    hoare (done_exactly L) (check (exec_code env cmd) msgs)
          (fun _ => done_exactly (L ++ [Run cmd])) (E (L ++ [Run cmd])).
Hypothesis exact_retry :
  forall L g cmd rec msgs,
    In (g, cmd, rec, msgs) (retried_steps env argv) -> g = true ->
    hoare (done_exactly L)
          (check (tryExecNTimes (exec_code env cmd) (numberOfRetries argv) rec) msgs)
          (fun _ => done_exactly (L ++ [Run cmd])) (E (L ++ [Run cmd])).

Lemma exact_stepwise : Stepwise env argv done_exactly E.
Proof.
  constructor.
  - intros L msg X. apply done_exactly_quiet.
  - intros L dir X. apply hoare_modify. intros s Hs.
    apply (done_exactly_emit L (EvCd dir)). exact Hs.
  - intros L src dst X. apply hoare_modify. intros s Hs.
    apply (done_exactly_emit L (EvCp src dst)). exact Hs.
  - intros L g cmd X _ _ s Hs. rewrite exec__eq.
    apply (done_exactly_emit L (EvExec cmd _)). exact Hs.
  - exact exact_check.
  - exact exact_retry.
  - intros L g args X _ _ s Hs.
    unfold bind, spawn, set_APPIUM_PID, modify.
    apply (done_exactly_emit L (EvSpawn "node" args _)). exact Hs.
  - intros L g args X _ _ s Hs.
    unfold bind, spawn, set_SERVER_PID, modify.
    apply (done_exactly_emit L (EvSpawn "yarn" args _)). exact Hs.
  - intros L X. apply hoare_modify. intros s Hs. exact Hs.
Qed.

End Exact.

Lemma done_exactly_start env : done_exactly [] (try_start env).
Proof. reflexivity. Qed.

Lemma checked_inspected env argv g cmd msgs :
  In (g, cmd, msgs) (checked_steps env argv) -> In cmd (inspected env argv).
Proof.
  intros H. apply in_or_app. left. eapply checked_is_inspected_once. exact H.
Qed.

Lemma retried_inspected env argv g cmd rec msgs :
  In (g, cmd, rec, msgs) (retried_steps env argv) -> In cmd (inspected env argv).
Proof.
  intros H. apply in_or_app. right. eapply retried_is_retried. exact H.
Qed.

(** X7: when every command whose exit code the script inspects succeeds,
    the run does, after line 33, exactly the steps of the pipeline whose
    condition holds, each once and in source order, then Finalization; it
    ends with status 0.  No recovery action is taken. *)
Theorem all_succeed_whole_pipeline env argv :
  inspected_succeed env argv ->
  exists body k1 k2 k3,
    run_trace env argv
    = body ++ finalization_events (last_spawn "yarn" body)
                                  (last_spawn "node" body) k1 k2 k3
    /\ actions body = Run mktemp_cmd :: selected (pipeline env argv)
    /\ exit_status env argv = 0.
Proof.
  intros Hzero.
  destruct (run_stepwise env argv done_exactly (fun _ => never))
    as (s1 & k1 & k2 & k3 & Htrace & Hend).
  - apply exact_stepwise.
    + intros L g cmd msgs Hin _.
      apply hoare_check
        with (R := fun c s => c = 0 /\ done_exactly (L ++ [Run cmd]) s).
      * intros s Hs. rewrite exec_code_eq. split.
        -- apply Hzero. eapply checked_inspected. exact Hin.
        -- apply (done_exactly_emit L (EvExec cmd _)). exact Hs.
      * intros c s [Hc _] Hne. contradiction.
      * intros s [_ Hs]. exact Hs.
    + intros L g cmd rec msgs Hin _.
      apply hoare_check
        with (R := fun c s => c = 0 /\ done_exactly (L ++ [Run cmd]) s).
      * apply hoare_tryExecNTimes with (I := done_exactly L).
        -- intros s Hs. rewrite exec_code_eq. split.
           ++ apply Hzero. eapply retried_inspected. exact Hin.
           ++ apply (done_exactly_emit L (EvExec cmd _)). exact Hs.
        -- intros c Hne s [Hc _]. contradiction.
      * intros c s [Hc _] Hne. contradiction.
      * intros s [_ Hs]. exact Hs.
  - apply done_exactly_start.
  - exists (trace s1), k1, k2, k3. split; [exact Htrace|].
    destruct Hend as [[H Hstatus] | [(e & L1 & L2 & _ & []) _]].
    split; [exact H | exact Hstatus].
Qed.

Lemma all_succeed_whole_pipeline_witness :
  exists body k1 k2 k3,
    run_trace env_ok argv_android
    = body ++ finalization_events (last_spawn "yarn" body)
                                  (last_spawn "node" body) k1 k2 k3
    /\ actions body = Run mktemp_cmd :: selected (pipeline env_ok argv_android)
    /\ exit_status env_ok argv_android = 0.
Proof.
  apply (all_succeed_whole_pipeline env_ok argv_android).
  intros history cmd _. reflexivity.
Defined.

Lemma tryExecNTimes_once env cmd rec s :
  tryExecNTimes (exec_code env cmd) 1 rec s = exec_code env cmd s.
Proof.
  unfold tryExecNTimes. cbn [Nat.pred retry_loop]. unfold bind.
  rewrite exec_code_eq.
  destruct (code (exec_result env (trace s) cmd) =? 0); reflexivity.
Qed.

Lemma exact_check_failed env L cmd msgs :
  hoare (done_exactly L) (check (exec_code env cmd) msgs)
        (fun _ => done_exactly (L ++ [Run cmd])) (failed_after (L ++ [Run cmd])).
Proof.
  eapply hoare_check; [apply done_exactly_exec_code | |].
  - intros c s [Hs (s0 & ->)] Hc. split.
    + apply (done_exactly_echoes _ msgs) in Hs. exact Hs.
    + exists L, cmd. split; [reflexivity|]. apply last_run_failed_fatal. exact Hc.
  - intros s [Hs _]. exact Hs.
Qed.

(** X8: with the default number of retries (no [--retries], or 0, or 1)
    no step is attempted twice: whatever the commands return, the run
    does, after line 33, an initial segment of the selected pipeline, in
    source order and each step once.  It is the whole pipeline when the
    status is 0; otherwise the segment ends with the inspected command
    that failed. *)
Theorem default_retries_prefix env argv :
  numberOfRetries argv = 1%nat ->
  exists body k1 k2 k3 done rest,
    run_trace env argv
    = body ++ finalization_events (last_spawn "yarn" body)
                                  (last_spawn "node" body) k1 k2 k3
    /\ selected (pipeline env argv) = done ++ rest
    /\ actions body = Run mktemp_cmd :: done
    /\ ((exit_status env argv = 0 /\ rest = [])
        \/ (exit_status env argv = 1
            /\ exists before cmd,
                 done = before ++ [Run cmd] /\ last_run_failed cmd body)).
Proof.
  intros Hone.
  destruct (run_stepwise env argv done_exactly failed_after)
    as (s1 & k1 & k2 & k3 & Htrace & Hend).
  - apply exact_stepwise.
    + intros L g cmd msgs _ _. apply exact_check_failed.
    + intros L g cmd rec msgs _ _ s Hs. rewrite Hone.
      pose proof (exact_check_failed env L cmd msgs s Hs) as H.
      unfold check, bind in *. rewrite tryExecNTimes_once. exact H.
  - apply done_exactly_start.
  - exists (trace s1), k1, k2, k3.
    destruct Hend as [[H Hstatus] | [(e & L1 & L2 & Hsplit & H & Hlast) Hstatus]].
    + exists (selected (pipeline env argv)), [].
      split; [exact Htrace|]. split; [symmetry; apply app_nil_r|].
      split; [exact H|]. left. split; [exact Hstatus | reflexivity].
    + exists L1, L2. split; [exact Htrace|]. split; [exact Hsplit|].
      split; [exact H|]. right. split; [exact Hstatus | exact Hlast].
Qed.

Lemma default_retries_prefix_witness :
  exists body k1 k2 k3 done rest,
    run_trace (env_failing [ios_bundle_cmd]) argv_js
    = body ++ finalization_events (last_spawn "yarn" body)
                                  (last_spawn "node" body) k1 k2 k3
    /\ selected (pipeline (env_failing [ios_bundle_cmd]) argv_js) = done ++ rest
    /\ actions body = Run mktemp_cmd :: done
    /\ ((exit_status (env_failing [ios_bundle_cmd]) argv_js = 0 /\ rest = [])
        \/ (exit_status (env_failing [ios_bundle_cmd]) argv_js = 1
            /\ exists before cmd,
                 done = before ++ [Run cmd] /\ last_run_failed cmd body)).
Proof.
  apply (default_retries_prefix (env_failing [ios_bundle_cmd]) argv_js).
  reflexivity.
Defined.

(* ================================================================= *)
(** ** A run that succeeds has done every selected step *)

Lemma done_all_emit L e s :
  done_all L s -> done_all (L ++ action_of e) (emit e s).
Proof.
  unfold done_all. intros H a Ha. cbn [trace emit]. rewrite actions_app.
  apply in_or_app. apply in_app_or in Ha. destruct Ha as [Ha|Ha].
  - left. apply H. exact Ha.
  - right. cbn [actions flat_map]. rewrite app_nil_r. exact Ha.
Qed.

Lemma done_all_less L L' s : done_all (L ++ L') s -> done_all L s.
Proof. intros H a Ha. apply H. apply in_or_app. left. exact Ha. Qed.

Lemma done_all_kept L e s : done_all L s -> done_all L (emit e s).
Proof. intros H. eapply done_all_less. apply done_all_emit. exact H. Qed.

Lemma done_all_stepwise env argv :
  Stepwise env argv done_all (fun _ _ => anything).
Proof.
  assert (Hquiet : forall L e X,
             hoare (done_all L) (modify (emit e)) (fun _ => done_all L) X).
  { intros L e X. apply hoare_modify. intros s Hs. apply done_all_kept. exact Hs. }
  assert (Hexec : forall L cmd X,
             hoare (done_all L) (exec_code env cmd)
                   (fun _ => done_all (L ++ [Run cmd])) X).
  { intros L cmd X s Hs. rewrite exec_code_eq.
    apply (done_all_emit L (EvExec cmd _)). exact Hs. }
  constructor.
  - intros L msg X. apply Hquiet.
  - intros L dir X. apply hoare_modify. intros s Hs.
    apply (done_all_emit L (EvCd dir)). exact Hs.
  - intros L src dst X. apply hoare_modify. intros s Hs.
    apply (done_all_emit L (EvCp src dst)). exact Hs.
  - intros L g cmd X _ _ s Hs. rewrite exec__eq.
    apply (done_all_emit L (EvExec cmd _)). exact Hs.
  - intros L g cmd msgs _ _.
    apply hoare_check with (R := fun _ => done_all (L ++ [Run cmd]));
      [apply Hexec | intros; exact Logic.I | intros s Hs; exact Hs].
  - intros L g cmd rec msgs Hin _.
    apply hoare_check with (R := fun _ => done_all (L ++ [Run cmd]));
      [ | intros; exact Logic.I | intros s Hs; exact Hs].
    apply hoare_tryExecNTimes with (I := done_all L); [apply Hexec|].
    intros c _. apply retried_recovery in Hin.
    unfold recoveries in Hin. cbn [In] in Hin.
    destruct Hin as [<-|[<-|[<-|[]]]]; cbn [call_opt].
    + apply hoare_ret. intros s Hs. eapply done_all_less. exact Hs.
    + intros s Hs. rewrite exec__eq. apply done_all_kept.
      eapply done_all_less. exact Hs.
    + intros s Hs. unfold bind, rm, modify. rewrite exec__eq.
      apply done_all_kept, done_all_kept. eapply done_all_less. exact Hs.
  - intros L g args X _ _ s Hs.
    unfold bind, spawn, set_APPIUM_PID, modify.
    apply (done_all_emit L (EvSpawn "node" args _)). exact Hs.
  - intros L g args X _ _ s Hs.
    unfold bind, spawn, set_SERVER_PID, modify.
    apply (done_all_emit L (EvSpawn "yarn" args _)). exact Hs.
  - intros L X. apply hoare_modify. intros s Hs. exact Hs.
Qed.

(** X9: status 0 means that nothing was left out: every step of the
    pipeline whose condition holds was done, whatever the number of
    retries and whatever the commands returned on the way. *)
Theorem success_did_every_step env argv a :
  exit_status env argv = 0 ->
  In a (selected (pipeline env argv)) ->
  In a (actions (run_trace env argv)).
Proof.
  intros Hzero Ha.
  destruct (run_stepwise env argv done_all (fun _ _ => anything)
              (done_all_stepwise env argv))
    as (s1 & k1 & k2 & k3 & Htrace & Hend).
  - intros b [].
  - destruct Hend as [[H _] | [_ Hone]].
    + rewrite Htrace, actions_app. apply in_or_app. left. apply H. exact Ha.
    + rewrite Hzero in Hone. discriminate Hone.
Qed.

Lemma success_did_every_step_witness :
  In (Run (flow_check_cmd env_ok)) (actions (run_trace env_ok argv_js)).
Proof.
  apply (success_did_every_step env_ok argv_js (Run (flow_check_cmd env_ok))).
  - reflexivity.
  - vm_compute. tauto.
Defined.

(* ================================================================= *)
(** ** How a run fails *)

Lemma failed_step_fatal env argv cmd c msgs s0 :
  c <> 0 ->
  In (true, cmd, msgs) (failure_steps env argv) ->
  failed_step env argv (JsError "1")
    (with_exitCode 1 (emit_all (map EvEcho msgs) (emit (EvExec cmd c) s0))).
Proof.
  intros Hc Hin. split; [reflexivity|]. split; [reflexivity|].
  exists (trace s0), cmd, c, msgs. split; [|split; assumption].
  cbn [trace with_exitCode]. rewrite trace_emit_all. cbn [trace emit].
  rewrite <- app_assoc. reflexivity.
Qed.

Lemma failed_step_stepwise env argv :
  Stepwise env argv (fun _ => anything) (fun _ => failed_step env argv).
Proof.
  constructor.
  - intros _ msg X. apply hoare_modify. intros; exact Logic.I.
  - intros _ dir X. apply hoare_modify. intros; exact Logic.I.
  - intros _ src dst X. apply hoare_modify. intros; exact Logic.I.
  - intros _ g cmd X _ _ s _. rewrite exec__eq. exact Logic.I.
  - intros _ g cmd msgs Hin ->.
    apply hoare_check
      with (R := fun c s => exists s0, s = emit (EvExec cmd c) s0).
    + intros s _. rewrite exec_code_eq. eexists. reflexivity.
    + intros c s (s0 & ->) Hc. apply failed_step_fatal; [exact Hc|].
      unfold failure_steps. apply in_or_app. left. exact Hin.
    + intros; exact Logic.I.
  - intros _ g cmd rec msgs Hin ->.
    apply hoare_check
      with (R := fun c s => exists s0, s = emit (EvExec cmd c) s0).
    + apply retry_ends_with_run. eapply retried_recovery. exact Hin.
    + intros c s (s0 & ->) Hc. apply failed_step_fatal; [exact Hc|].
      unfold failure_steps. apply in_or_app. right.
      apply (in_map (fun '(g, cmd, _, msgs) => (g, cmd, msgs)) _ _ Hin).
    + intros; exact Logic.I.
  - intros _ g args X _ _ s _. exact Logic.I.
  - intros _ g args X _ _ s _. exact Logic.I.
  - intros _ X. apply hoare_modify. intros; exact Logic.I.
Qed.

(** X10: a run that ends with status 1 took the failure branch of one
    inspected step whose condition holds: the last thing its body did was
    to run that step's command, which returned non-zero, and to print
    that step's messages, all of them and no other. *)
Theorem failure_reports_its_step env argv :
  exit_status env argv = 1 ->
  exists pre cmd k msgs k1 k2 k3,
    let body := pre ++ EvExec cmd k :: map EvEcho msgs in
    run_trace env argv
    = body ++ finalization_events (last_spawn "yarn" body)
                                  (last_spawn "node" body) k1 k2 k3
    /\ k <> 0
    /\ In (true, cmd, msgs) (failure_steps env argv).
Proof.
  intros Hone.
  destruct (run_stepwise env argv (fun _ => anything)
              (fun _ => failed_step env argv)
              (failed_step_stepwise env argv) Logic.I)
    as (s1 & k1 & k2 & k3 & Htrace & Hend).
  destruct Hend as [[_ Hzero] | [(e & L1 & L2 & _ & H) _]].
  - rewrite Hone in Hzero. discriminate Hzero.
  - destruct H as (_ & _ & pre & cmd & k & msgs & Hbody & Hk & Hin).
    exists pre, cmd, k, msgs, k1, k2, k3. cbv zeta.
    rewrite <- Hbody. split; [exact Htrace|]. split; assumption.
Qed.

Lemma failure_reports_its_step_witness :
  exists pre cmd k msgs k1 k2 k3,
    let body := pre ++ EvExec cmd k :: map EvEcho msgs in
    run_trace (env_failing [pack_cmd]) argv_js
    = body ++ finalization_events (last_spawn "yarn" body)
                                  (last_spawn "node" body) k1 k2 k3
    /\ k <> 0
    /\ In (true, cmd, msgs) (failure_steps (env_failing [pack_cmd]) argv_js).
Proof.
  apply (failure_reports_its_step (env_failing [pack_cmd]) argv_js).
  reflexivity.
Defined.

(** X11: the script reaches [exit(exitCode)] at line 323 only with
    [exitCode] equal to 0.  In every other run [Error(1)] escapes the
    [try] statement, which has no [catch], after [exitCode] was set
    to 1: the status 1 is that of the uncaught exception. *)
Theorem exit_reached_only_with_zero env argv :
  fst (run env argv) = Exited (Some 0)
  \/ (fst (run env argv) = Uncaught (JsError "1")
      /\ exitCode (snd (run env argv)) = Some 1).
Proof.
  destruct (run_split env argv) as (k1 & k2 & k3 & Hrun). cbv zeta in Hrun.
  pose proof (hoare_and _ _ _ _ _ _ _ _
                (try_block_exitCode env argv (TEMP env))
                (try_block_stepwise env argv (fun _ => anything)
                   (fun _ => failed_step env argv)
                   (failed_step_stepwise env argv))
                (try_start env) (conj Logic.I Logic.I)) as H.
  destruct (try_block env argv (TEMP env) (try_start env)) as [r s1].
  cbn [fst snd] in Hrun. rewrite Hrun. cbn [fst snd].
  destruct r as [[]|e].
  - left. destruct H as [H _]. rewrite H. reflexivity.
  - right. destruct H as [_ (L1 & L2 & _ & -> & Hexit & _)].
    split; [reflexivity|]. rewrite exitCode_emit_all. exact Hexit.
Qed.

(* ================================================================= *)
(** ** Every event in its context *)

Lemma each_prefix_nil R : each_prefix R [].
Proof. intros pre e post H. destruct pre; discriminate H. Qed.

Lemma each_prefix_snoc R tr e :
  each_prefix R tr -> R tr e -> each_prefix R (tr ++ [e]).
Proof.
  intros Htr He pre e' post Heq.
  destruct (exists_last (l := e' :: post)) as (mid & x & Hlast); [discriminate|].
  rewrite Hlast, app_assoc in Heq.
  apply app_inj_tail in Heq. destruct Heq as [Hpre <-].
  destruct mid as [|e'' mid'].
  - cbn in Hlast. injection Hlast as -> _. rewrite app_nil_r in Hpre.
    subst tr. exact He.
  - cbn in Hlast. injection Hlast as <- Hpost.
    apply (Htr pre e' mid'). exact Hpre.
Qed.

Lemma each_prefix_app R tr evs :
  each_prefix R tr ->
  (forall pre e, In e evs -> R pre e) ->
  each_prefix R (tr ++ evs).
Proof.
  revert tr. induction evs as [|e evs IH]; intros tr Htr Hevs.
  - rewrite app_nil_r. exact Htr.
  - change (tr ++ e :: evs) with (tr ++ [e] ++ evs). rewrite app_assoc.
    apply IH.
    + apply each_prefix_snoc; [exact Htr|]. apply Hevs. left. reflexivity.
    + intros pre e' He'. apply Hevs. right. exact He'.
Qed.

Lemma last_run_ok_snoc cmd tr e :
  is_exec_of cmd e = false ->
  last_run_ok cmd tr -> last_run_ok cmd (tr ++ [e]).
Proof.
  unfold last_run_ok. intros He H. rewrite last_code_snoc.
  destruct e as [c k| | | | |]; try exact H.
  cbn [is_exec_of] in He. rewrite He. exact H.
Qed.

Lemma dropped_is_discarded env argv g cmd :
  In (g, cmd) (dropped_steps env argv) -> In cmd (discarded env).
Proof.
  unfold dropped_steps, discarded. cbn [In]. intros H.
  repeat (destruct H as [H|H];
          [injection H as <- <-; repeat first [left; reflexivity | right]|]).
  contradiction.
Qed.

Lemma sleep10_discarded env : In sleep10 (discarded env).
Proof. left. reflexivity. Qed.

(* ================================================================= *)
(** ** Nothing inspected runs after a failure that stands *)

Section Gate.
Variable env : Env.
Variable argv : Argv.

Let gated (s : State) : Prop := each_prefix (gate env argv) (trace s).
Let I (s : State) : Prop := gated s /\ all_ok env argv (trace s).
Let I' (cmd : string) (s : State) : Prop :=
  gated s /\ others_ok env argv cmd (trace s).

Lemma not_inspected_eqb cmd other :
  ~ In cmd (inspected env argv) -> In other (inspected env argv) ->
  String.eqb cmd other = false.
Proof.
  intros Hn Hin. destruct (String.eqb_spec cmd other) as [->|]; [|reflexivity].
  contradiction.
Qed.

Lemma gate_quiet_emit e s :
  (forall cmd k, e = EvExec cmd k -> ~ In cmd (inspected env argv)) ->
  I s -> I (emit e s).
Proof.
  intros He [Hg Hok]. split.
  - unfold gated. cbn [trace emit]. apply each_prefix_snoc; [exact Hg|].
    destruct e as [cmd k| | | | |]; try exact Logic.I.
    intros Hin. destruct (He cmd k eq_refl Hin).
  - intros cmd Hin. cbn [trace emit]. apply last_run_ok_snoc; [|apply Hok, Hin].
    destruct e as [c k| | | | |]; try reflexivity. cbn [is_exec_of].
    apply not_inspected_eqb; [apply (He c k eq_refl) | exact Hin].
Qed.

Lemma gate_quiet_emit' cmd0 e s :
  (forall cmd k, e = EvExec cmd k -> ~ In cmd (inspected env argv)) ->
  I' cmd0 s -> I' cmd0 (emit e s).
Proof.
  intros He [Hg Hok]. split.
  - unfold gated. cbn [trace emit]. apply each_prefix_snoc; [exact Hg|].
    destruct e as [cmd k| | | | |]; try exact Logic.I.
    intros Hin. destruct (He cmd k eq_refl Hin).
  - intros cmd Hin Hne. cbn [trace emit].
    apply last_run_ok_snoc; [|apply Hok; assumption].
    destruct e as [c k| | | | |]; try reflexivity. cbn [is_exec_of].
    apply not_inspected_eqb; [apply (He c k eq_refl) | exact Hin].
Qed.

Lemma gate_echoes msgs s : gated s -> gated (emit_all (map EvEcho msgs) s).
Proof.
  unfold gated. intros H. rewrite trace_emit_all.
  apply each_prefix_app; [exact H|].
  intros pre e He. apply in_map_iff in He. destruct He as (m & <- & _).
  exact Logic.I.
Qed.

(** One attempt of an inspected command, the others being well. *)
Lemma gate_attempt cmd X :
  In cmd (inspected env argv) ->
  hoare (I' cmd) (exec_code env cmd)
        (fun c s => I' cmd s /\ last_code cmd (trace s) = Some c) X.
Proof.
  intros Hin s [Hg Hok]. rewrite exec_code_eq.
  set (c := code (exec_result env (trace s) cmd)).
  split; [split|].
  - unfold gated. cbn [trace emit]. apply each_prefix_snoc; [exact Hg|].
    intros _ other Hother Hne. apply Hok; assumption.
  - intros other Hother Hne. cbn [trace emit].
    apply last_run_ok_snoc; [|apply Hok; assumption].
    cbn [is_exec_of]. apply String.eqb_neq. congruence.
  - cbn [trace emit]. rewrite last_code_snoc, String.eqb_refl. reflexivity.
Qed.

Lemma gate_weaken cmd s : I s -> I' cmd s.
Proof. intros [Hg Hok]. split; [exact Hg|]. intros other Hin _. apply Hok, Hin. Qed.

Lemma gate_passed cmd s :
  I' cmd s -> last_code cmd (trace s) = Some 0 -> I s.
Proof.
  intros [Hg Hok] Hlast. split; [exact Hg|]. intros other Hin.
  destruct (string_dec other cmd) as [->|Hne].
  - unfold last_run_ok. rewrite Hlast. reflexivity.
  - apply Hok; assumption.
Qed.

Lemma gate_failed cmd c msgs s :
  I' cmd s /\ last_code cmd (trace s) = Some c ->
  gated (with_exitCode 1 (emit_all (map EvEcho msgs) s)).
Proof. intros [[Hg _] _]. apply (gate_echoes msgs) in Hg. exact Hg. Qed.

Lemma sleep10_not_inspected : ~ In sleep10 (inspected env argv).
Proof.
  intros H. eapply inspected_not_discarded; [exact H | apply sleep10_discarded].
Qed.

Lemma gate_recovery cmd rec c X :
  In rec (recoveries env) ->
  hoare (fun s => I' cmd s /\ last_code cmd (trace s) = Some c)
        (call_opt rec) (fun _ => I' cmd) X.
Proof.
  intros Hin. unfold recoveries in Hin. cbn [In] in Hin.
  destruct Hin as [<-|[<-|[<-|[]]]]; cbn [call_opt]; intros s [Hs _].
  - exact Hs.
  - rewrite exec__eq. apply gate_quiet_emit'; [|exact Hs].
    intros c' k [= <- _]. apply sleep10_not_inspected.
  - unfold bind, rm, modify. rewrite exec__eq.
    apply gate_quiet_emit'.
    + intros c' k [= <- _]. apply sleep10_not_inspected.
    + apply gate_quiet_emit'; [|exact Hs]. intros c' k Heq. discriminate Heq.
Qed.

Lemma gate_stepwise :
  Stepwise env argv (fun _ => I) (fun _ _ => gated).
Proof.
  assert (Hquiet : forall e X,
             (forall cmd k, e = EvExec cmd k -> False) ->
             hoare I (modify (emit e)) (fun _ => I) X).
  { intros e X He. apply hoare_modify. intros s Hs.
    apply gate_quiet_emit; [|exact Hs]. intros cmd k Heq. destruct (He cmd k Heq). }
  constructor.
  - intros _ msg X. apply Hquiet. intros cmd k H. discriminate H.
  - intros _ dir X. apply Hquiet. intros cmd k H. discriminate H.
  - intros _ src dst X. apply Hquiet. intros cmd k H. discriminate H.
  - intros _ g cmd X Hin _ s Hs. rewrite exec__eq.
    apply gate_quiet_emit; [|exact Hs]. intros c' k [= <- _] Hi.
    eapply inspected_not_discarded; [exact Hi|].
    eapply dropped_is_discarded. exact Hin.
  - intros _ g cmd msgs Hin _.
    apply hoare_check
      with (R := fun c s => I' cmd s /\ last_code cmd (trace s) = Some c).
    + eapply hoare_conseq;
        [apply gate_attempt; eapply checked_inspected; exact Hin
        | intros s Hs; apply gate_weaken; exact Hs
        | intros c s Hs; exact Hs
        | intros e s Hs; exact Hs].
    + intros c s Hs _. eapply gate_failed. exact Hs.
    + intros s [Hs Hlast]. eapply gate_passed; [exact Hs | exact Hlast].
  - intros _ g cmd rec msgs Hin _.
    apply hoare_check
      with (R := fun c s => I' cmd s /\ last_code cmd (trace s) = Some c).
    + eapply hoare_conseq with (P' := I' cmd);
        [ | intros s Hs; apply gate_weaken; exact Hs
        | intros c s Hs; exact Hs
        | intros e s Hs; exact Hs].
      apply hoare_tryExecNTimes with (I := I' cmd).
      * apply gate_attempt. eapply retried_inspected. exact Hin.
      * intros c _. apply gate_recovery. eapply retried_recovery. exact Hin.
    + intros c s Hs _. eapply gate_failed. exact Hs.
    + intros s [Hs Hlast]. eapply gate_passed; [exact Hs | exact Hlast].
  - intros _ g args X _ _ s Hs.
    unfold bind, spawn, set_APPIUM_PID, modify.
    apply (gate_quiet_emit
             (EvSpawn "node" args (spawn_pid env (trace s) "node" args)) s);
      [intros cmd k H; discriminate H | exact Hs].
  - intros _ g args X _ _ s Hs.
    unfold bind, spawn, set_SERVER_PID, modify.
    apply (gate_quiet_emit
             (EvSpawn "yarn" args (spawn_pid env (trace s) "yarn" args)) s);
      [intros cmd k H; discriminate H | exact Hs].
  - intros _ X. apply hoare_modify. intros s Hs. exact Hs.
Qed.

Lemma gate_start : I (try_start env).
Proof.
  split.
  - unfold gated, try_start. cbn [trace emit initial_state app].
    apply (each_prefix_snoc _ [] _ (each_prefix_nil _)).
    intros Hin. destruct (inspected_not_mktemp env argv _ Hin eq_refl).
  - intros cmd Hin. unfold try_start. cbn [trace emit initial_state app].
    unfold last_run_ok, last_code. cbn [fold_left].
    rewrite not_inspected_eqb; [exact Logic.I | | exact Hin].
    intros H. destruct (inspected_not_mktemp env argv _ H eq_refl).
Qed.

Lemma gate_run : each_prefix (gate env argv) (run_trace env argv).
Proof.
  destruct (run_stepwise env argv (fun _ => I) (fun _ _ => gated)
              gate_stepwise gate_start)
    as (s1 & k1 & k2 & k3 & -> & Hend).
  assert (Hg : gated s1).
  { destruct Hend as [[[H _] _] | [(e & L1 & L2 & _ & H) _]]; exact H. }
  apply each_prefix_app; [exact Hg|].
  intros pre e He. destruct e as [cmd k| | | | |]; try exact Logic.I.
  intros Hin. exfalso.
  pose proof (not_run_finalization env argv cmd
                (last_spawn "yarn" (trace s1)) (last_spawn "node" (trace s1))
                k1 k2 k3 Hin) as Hnot.
  unfold not_run in Hnot. rewrite forallb_forall in Hnot.
  specialize (Hnot _ He). cbn [is_exec_of] in Hnot.
  rewrite String.eqb_refl in Hnot. discriminate Hnot.
Qed.

End Gate.

(** X12: a command whose exit code the script inspects is run only
    while the most recent run of every other inspected command that ran
    before it returned zero.  Only the command being retried may have
    failed before. *)
Theorem inspected_run_after_successes env argv pre cmd k post other :
  run_trace env argv = pre ++ EvExec cmd k :: post ->
  In cmd (inspected env argv) ->
  In other (inspected env argv) ->
  other <> cmd ->
  last_run_ok other pre.
Proof.
  intros Htrace Hcmd Hother Hne.
  exact (gate_run env argv pre (EvExec cmd k) post Htrace Hcmd other Hother Hne).
Qed.

Lemma inspected_run_after_successes_witness :
  last_run_ok cli_install_cmd (firstn 2 (run_trace env_ok no_flags)).
Proof.
  apply (inspected_run_after_successes env_ok no_flags
           (firstn 2 (run_trace env_ok no_flags)) pack_cmd 0
           (skipn 3 (run_trace env_ok no_flags)) cli_install_cmd).
  - vm_compute. reflexivity.
  - right. right. left. reflexivity.
  - left. reflexivity.
  - intros H. discriminate H.
Defined.

(* ================================================================= *)
(** ** Recovery actions follow a failed attempt *)

Lemma pipeline_not_sleep10 env argv g cmd :
  In (g, Run cmd) (pipeline env argv) -> cmd <> sleep10.
Proof.
  unfold pipeline. cbn [In]. intros H Heq.
  repeat (destruct H as [H|H];
          [apply pair_equal_spec in H; destruct H as [_ H];
           first [discriminate H | injection H as <-; refute_eq Heq]|]).
  contradiction.
Qed.

Section AfterFailure.
Variable env : Env.
Variable argv : Argv.

Let I (s : State) : Prop := each_prefix (after_failure env argv) (trace s).
Let attempted (cmd : string) (c : Z) (s : State) : Prop :=
  I s /\ exists s0, s = emit (EvExec cmd c) s0.

Lemma after_failure_emit e s :
  after_failure env argv (trace s) e -> I s -> I (emit e s).
Proof.
  intros He Hs. unfold I. cbn [trace emit]. apply each_prefix_snoc; assumption.
Qed.

Lemma after_failure_exec_code cmd X :
  cmd <> sleep10 ->
  hoare I (exec_code env cmd) (fun c s => attempted cmd c s) X.
Proof.
  intros Hne s Hs. rewrite exec_code_eq. split.
  - apply after_failure_emit; [|exact Hs]. intros Heq. contradiction.
  - eexists. reflexivity.
Qed.

Lemma after_failure_echoes msgs s :
  I s -> I (with_exitCode 1 (emit_all (map EvEcho msgs) s)).
Proof.
  unfold I. intros H. cbn [trace with_exitCode]. rewrite trace_emit_all.
  apply each_prefix_app; [exact H|].
  intros pre e He. apply in_map_iff in He. destruct He as (m & <- & _).
  exact Logic.I.
Qed.

Lemma after_failure_none cmd c X :
  hoare (attempted cmd c) (call_opt None) (fun _ => I) X.
Proof. cbn [call_opt]. apply hoare_ret. intros s [Hs _]. exact Hs. Qed.

Lemma after_failure_sleep cmd c X :
  In cmd (retried env argv) -> c <> 0 ->
  hoare (attempted cmd c) (call_opt (Some (exec_ env sleep10)))
        (fun _ => I) X.
Proof.
  intros Hin Hc s [Hs (s0 & ->)]. cbn [call_opt]. rewrite exec__eq.
  apply after_failure_emit; [|exact Hs].
  intros _. exists (trace s0), cmd, c.
  split; [exact Hin|]. split; [exact Hc|]. left. reflexivity.
Qed.

Lemma after_failure_rm_sleep c X :
  c <> 0 ->
  hoare (attempted (init_cmd env) c)
        (call_opt (Some (rm "-rf" "EndToEndTest" ;; exec_ env sleep10)))
        (fun _ => I) X.
Proof.
  intros Hc s [Hs (s0 & ->)]. cbn [call_opt]. unfold bind, rm, modify.
  rewrite exec__eq.
  apply after_failure_emit; [|apply after_failure_emit; [|exact Hs]].
  - intros _. exists (trace s0), (init_cmd env), c.
    split; [unfold retried; cbn [In]; tauto|]. split; [exact Hc|].
    right. cbn [trace emit]. rewrite <- app_assoc. reflexivity.
  - exists (trace s0), c. split; [reflexivity | exact Hc].
Qed.

Lemma after_failure_recovery g cmd rec msgs c X :
  In (g, cmd, rec, msgs) (retried_steps env argv) -> c <> 0 ->
  hoare (attempted cmd c) (call_opt rec) (fun _ => I) X.
Proof.
  unfold retried_steps. cbn [In]. intros H Hc.
  repeat (destruct H as [H|H];
          [injection H as <- <- <- <-;
           first [ apply after_failure_none
                 | apply after_failure_rm_sleep; exact Hc
                 | apply after_failure_sleep;
                   [unfold retried; cbn [In]; tauto | exact Hc] ]|]).
  contradiction.
Qed.

Lemma after_failure_stepwise :
  Stepwise env argv (fun _ => I) (fun _ _ => I).
Proof.
  assert (Hcheck : forall cmd (m : M State Z) msgs,
             hoare I m (fun c s => attempted cmd c s) (fun _ => I) ->
             hoare I (check m msgs) (fun _ => I) (fun _ => I)).
  { intros cmd m msgs Hm. eapply hoare_check; [exact Hm | |].
    - intros c s [Hs _] _. apply after_failure_echoes. exact Hs.
    - intros s [Hs _]. exact Hs. }
  constructor.
  - intros _ msg X. apply hoare_modify. intros s Hs.
    apply after_failure_emit; [exact Logic.I | exact Hs].
  - intros _ dir X. apply hoare_modify. intros s Hs.
    apply after_failure_emit; [exact Logic.I | exact Hs].
  - intros _ src dst X. apply hoare_modify. intros s Hs.
    apply after_failure_emit; [exact Logic.I | exact Hs].
  - intros _ g cmd X Hin _ s Hs. rewrite exec__eq.
    apply after_failure_emit; [|exact Hs]. intros Heq.
    apply dropped_in_pipeline, pipeline_not_sleep10 in Hin. contradiction.
  - intros _ g cmd msgs Hin _. apply (Hcheck cmd).
    apply after_failure_exec_code.
    eapply pipeline_not_sleep10, checked_in_pipeline. exact Hin.
  - intros _ g cmd rec msgs Hin _. apply (Hcheck cmd).
    apply hoare_tryExecNTimes with (I := I).
    + apply after_failure_exec_code.
      eapply pipeline_not_sleep10, retried_in_pipeline. exact Hin.
    + intros c Hc. eapply after_failure_recovery; [exact Hin | exact Hc].
  - intros _ g args X _ _ s Hs.
    unfold bind, spawn, set_APPIUM_PID, modify.
    apply (after_failure_emit
             (EvSpawn "node" args (spawn_pid env (trace s) "node" args)) s);
      [exact Logic.I | exact Hs].
  - intros _ g args X _ _ s Hs.
    unfold bind, spawn, set_SERVER_PID, modify.
    apply (after_failure_emit
             (EvSpawn "yarn" args (spawn_pid env (trace s) "yarn" args)) s);
      [exact Logic.I | exact Hs].
  - intros _ X. apply hoare_modify. intros s Hs. exact Hs.
Qed.

Lemma after_failure_run :
  each_prefix (after_failure env argv) (run_trace env argv).
Proof.
  destruct (run_stepwise env argv (fun _ => I) (fun _ _ => I)
              after_failure_stepwise)
    as (s1 & k1 & k2 & k3 & -> & Hend).
  - unfold I, try_start. cbn [trace emit initial_state app].
    apply (each_prefix_snoc _ [] _ (each_prefix_nil _)).
    intros Heq. refute_eq Heq.
  - assert (Hs : I s1).
    { destruct Hend as [[H _] | [(e & L1 & L2 & _ & H) _]]; exact H. }
    apply each_prefix_app; [exact Hs|].
    intros pre e He. destruct e as [cmd k| | | |opts path|]; try exact Logic.I.
    + intros Heq. exfalso. apply finalization_commands in He.
      destruct He as [->|(pid & ->)]; refute_eq Heq.
    + apply finalization_no_rm in He. contradiction.
Qed.

End AfterFailure.

(** X13: recovery actions are taken only after a failed attempt.  The
    project directory is removed only right after a run of
    [react-native init] that returned non-zero; [sleep 10s] is run only
    right after a failed attempt of a command run through the Retrier, or
    right after that removal. *)
Theorem recovery_only_after_failure env argv :
  (forall pre opts path post,
     run_trace env argv = pre ++ EvRm opts path :: post ->
     exists pre' k, pre = pre' ++ [EvExec (init_cmd env) k] /\ k <> 0)
  /\ (forall pre k post,
        run_trace env argv = pre ++ EvExec sleep10 k :: post ->
        exists pre' c k',
          In c (retried env argv) /\ k' <> 0
          /\ (pre = pre' ++ [EvExec c k']
              \/ pre = pre' ++ [EvExec c k'; EvRm "-rf" "EndToEndTest"])).
Proof.
  split.
  - intros pre opts path post H.
    exact (after_failure_run env argv pre (EvRm opts path) post H).
  - intros pre k post H.
    exact (after_failure_run env argv pre (EvExec sleep10 k) post H eq_refl).
Qed.

(* ================================================================= *)
(** ** Finalization and the handles that were created *)

(** C2, where the script breaks it.  With both [--android] and [--ios]
    the Android branch creates a packager handle (pid 129) and the
    iOS/tvOS branch assigns the same variable again.  When every [spawn]
    returns a pid, Finalization kills the second packager (135), sweeps
    the port and kills appium (125): the handle 129, which was created, is
    never killed by process identifier.  When the second [spawn] returns
    no pid, the variable is [undefined] at line 311 and Finalization
    neither kills a packager nor sweeps the port, although the packager
    129 was created.  Both runs end with status 0. *)
Theorem finalization_misses_created_packager :
  (let tr := run_trace env_ok argv_android_ios in
   In (EvSpawn "yarn" ["start"; "--max-workers 1"] (Some 129)) tr
   /\ last_events 5 tr
      = [EvEcho "Killing packager 135";
         EvExec "kill -9 135" 0;
         EvExec "lsof -i tcp:8081 | awk 'NR!=1 {print $2}' | xargs kill" 0;
         EvEcho "Killing appium 125";
         EvExec "kill -9 125" 0]
   /\ filter termination_call tr
      = [EvExec "kill -9 135" 0;
         EvExec "lsof -i tcp:8081 | awk 'NR!=1 {print $2}' | xargs kill" 0;
         EvExec "kill -9 125" 0]
   /\ exit_status env_ok argv_android_ios = 0)
  /\ (let tr := run_trace env_packager_pid_lost argv_android_ios in
      filter is_spawn tr
      = [EvSpawn "node" ["./node_modules/.bin/appium"] (Some 125);
         EvSpawn "yarn" ["start"; "--max-workers 1"] (Some 129);
         EvSpawn "yarn" ["start"] None]
      /\ last_events 2 tr
         = [EvEcho "Killing appium 125"; EvExec "kill -9 125" 0]
      /\ filter termination_call tr = [EvExec "kill -9 125" 0]
      /\ exit_status env_packager_pid_lost argv_android_ios = 0).
Proof.
  vm_compute. repeat split. repeat first [left; reflexivity | right].
Qed.

(* ================================================================= *)
(** ** Counting the steps of a run *)

Lemma times_app a l l' : times a (l ++ l') = (times a l + times a l')%nat.
Proof. unfold times. rewrite filter_app, length_app. reflexivity. Qed.

Lemma times_other a b : action_eqb a b = false -> times a [b] = 0%nat.
Proof. unfold times. cbn [filter]. intros ->. reflexivity. Qed.

Lemma actions_emit e s :
  actions (trace (emit e s)) = actions (trace s) ++ action_of e.
Proof.
  cbn [trace emit]. rewrite actions_app. cbn [actions flat_map].
  rewrite app_nil_r. reflexivity.
Qed.

Lemma actions_echoes msgs : actions (map EvEcho msgs) = [].
Proof. induction msgs as [|m ms IH]; [reflexivity | exact IH]. Qed.

Lemma tvos_test_cmd_built : xcodebuild_cmd true "tvOS" = tvos_test_cmd.
Proof. reflexivity. Qed.

Lemma prefix_through A (x : A) X :
  forall Y L1 L2,
    L1 ++ L2 = X ++ x :: Y -> In x L1 -> ~ In x X ->
    exists Z, L1 = X ++ x :: Z.
Proof.
  induction X as [|x0 X IH]; intros Y L1 L2 Heq Hin Hnot.
  - destruct L1 as [|y L1']; [destruct Hin|].
    cbn in Heq. injection Heq as -> _. exists L1'. reflexivity.
  - destruct L1 as [|y L1']; [destruct Hin|].
    cbn in Heq. injection Heq as -> Heq.
    destruct Hin as [->|Hin]; [exfalso; apply Hnot; left; reflexivity|].
    destruct (IH Y L1' L2 Heq Hin) as [Z ->].
    + intros H. apply Hnot. right. exact H.
    + exists Z. reflexivity.
Qed.

Lemma executed_last_code cmd tr :
  executed cmd tr -> exists k, last_code cmd tr = Some k.
Proof.
  induction tr as [|e tr IH] using rev_ind; intros [k Hk]; [destruct Hk|].
  rewrite last_code_snoc. apply in_app_or in Hk. destruct Hk as [Hk|[->|[]]].
  - destruct (IH (ex_intro _ k Hk)) as [k' Hk'].
    destruct e as [c k0| | | | |]; eauto.
    destruct (String.eqb c cmd); eauto.
  - rewrite String.eqb_refl. eauto.
Qed.

Lemma Stepwise_and env argv P P' E E' :
  Stepwise env argv P E ->
  Stepwise env argv P' E' ->
  Stepwise env argv (fun L s => P L s /\ P' L s)
           (fun L e s => E L e s /\ E' L e s).
Proof.
  intros W W'.
  assert (Hboth : forall A (m : M State A) (Q Q' : State -> Prop) I I' X,
             (forall Y, hoare I m (fun _ => Q) Y) ->
             (forall Y, hoare I' m (fun _ => Q') Y) ->
             hoare (fun s => I s /\ I' s) m (fun _ s => Q s /\ Q' s) X).
  { intros A m Q Q' I I' X H H'.
    eapply hoare_conseq;
      [apply (hoare_and _ _ _ _ _ _ _ _ (H X) (H' X))
      | intros s Hs; exact Hs | intros b s Hs; exact Hs
      | intros e s [He _]; exact He]. }
  constructor.
  - intros L msg X. apply Hboth; intros Y; [apply (step_echo W) | apply (step_echo W')].
  - intros L dir X. apply Hboth; intros Y; [apply (step_cd W) | apply (step_cd W')].
  - intros L src dst X.
    apply Hboth; intros Y; [apply (step_cp W) | apply (step_cp W')].
  - intros L g cmd X Hin Hg.
    apply Hboth; intros Y;
      [eapply (step_drop W) | eapply (step_drop W')]; eassumption.
  - intros L g cmd msgs Hin Hg.
    apply hoare_and; [eapply (step_check W) | eapply (step_check W')];
      eassumption.
  - intros L g cmd rec msgs Hin Hg.
    apply hoare_and; [eapply (step_retry W) | eapply (step_retry W')];
      eassumption.
  - intros L g args X Hin Hg.
    apply Hboth; intros Y;
      [eapply (step_appium W) | eapply (step_appium W')]; eassumption.
  - intros L g args X Hin Hg.
    apply Hboth; intros Y;
      [eapply (step_server W) | eapply (step_server W')]; eassumption.
  - intros L X. apply Hboth; intros Y; [apply (step_exit W) | apply (step_exit W')].
Qed.

(** Steps other than a retried command and the recovery actions are done
    as many times as they are reached. *)
Section Counted.
Variable env : Env.
Variable argv : Argv.
Variable a : Action.

Hypothesis a_sleep : action_eqb a (Run sleep10) = false.
Hypothesis a_rm : forall opts path, action_eqb a (Remove opts path) = false.
Hypothesis a_retried :
  forall g cmd rec msgs,
    In (g, cmd, rec, msgs) (retried_steps env argv) ->
    action_eqb a (Run cmd) = false.

Lemma counted_step L e s :
  counted a L s -> counted a (L ++ action_of e) (emit e s).
Proof.
  unfold counted. intros H. rewrite actions_emit, !times_app, H. reflexivity.
Qed.

Lemma counted_kept L e s :
  times a (action_of e) = 0%nat -> counted a L s -> counted a L (emit e s).
Proof.
  unfold counted. intros He H. rewrite actions_emit, times_app, H, He.
  apply Nat.add_0_r.
Qed.

Lemma counted_more L b s :
  action_eqb a b = false -> counted a L s -> counted a (L ++ [b]) s.
Proof.
  unfold counted. intros Hb H. rewrite times_app, H, (times_other _ _ Hb).
  symmetry. apply Nat.add_0_r.
Qed.

Lemma counted_echoes L msgs s :
  counted a L s -> counted a L (with_exitCode 1 (emit_all (map EvEcho msgs) s)).
Proof.
  unfold counted. cbn [trace with_exitCode]. intros H.
  rewrite trace_emit_all, actions_app, actions_echoes, app_nil_r. exact H.
Qed.

Lemma counted_recovery L rec X :
  In rec (recoveries env) ->
  hoare (counted a L) (call_opt rec) (fun _ => counted a L) X.
Proof.
  intros Hin. unfold recoveries in Hin. cbn [In] in Hin.
  destruct Hin as [<-|[<-|[<-|[]]]]; cbn [call_opt]; intros s Hs.
  - exact Hs.
  - rewrite exec__eq. apply counted_kept; [|exact Hs].
    apply times_other. exact a_sleep.
  - unfold bind, rm, modify. rewrite exec__eq.
    apply counted_kept; [apply times_other; exact a_sleep|].
    apply counted_kept; [apply times_other; apply a_rm | exact Hs].
Qed.

Lemma counted_stepwise :
  Stepwise env argv (counted a) (fun L _ s => counted a L s).
Proof.
  constructor.
  - intros L msg X. apply hoare_modify. intros s Hs.
    apply counted_kept; [reflexivity | exact Hs].
  - intros L dir X. apply hoare_modify. intros s Hs.
    apply (counted_step L (EvCd dir)). exact Hs.
  - intros L src dst X. apply hoare_modify. intros s Hs.
    apply (counted_step L (EvCp src dst)). exact Hs.
  - intros L g cmd X _ _ s Hs. rewrite exec__eq.
    apply (counted_step L (EvExec cmd _)). exact Hs.
  - intros L g cmd msgs _ _.
    apply hoare_check with (R := fun _ => counted a (L ++ [Run cmd])).
    + intros s Hs. rewrite exec_code_eq.
      apply (counted_step L (EvExec cmd _)). exact Hs.
    + intros c s Hs _. apply counted_echoes. exact Hs.
    + intros s Hs. exact Hs.
  - intros L g cmd rec msgs Hin _.
    pose proof (a_retried g cmd rec msgs Hin) as Hother.
    apply hoare_check with (R := fun _ => counted a (L ++ [Run cmd])).
    + eapply hoare_conseq with (P' := counted a (L ++ [Run cmd]));
        [ | intros s Hs; apply counted_more; assumption
        | intros c s Hs; exact Hs
        | intros e s Hs; exact Hs].
      apply hoare_tryExecNTimes with (I := counted a (L ++ [Run cmd])).
      * intros s Hs. rewrite exec_code_eq.
        apply counted_kept; [apply times_other; exact Hother | exact Hs].
      * intros c _. apply counted_recovery. eapply retried_recovery. exact Hin.
    + intros c s Hs _. apply counted_echoes. exact Hs.
    + intros s Hs. exact Hs.
  - intros L g args X _ _ s Hs.
    unfold bind, spawn, set_APPIUM_PID, modify.
    apply (counted_step L
             (EvSpawn "node" args (spawn_pid env (trace s) "node" args)) s).
    exact Hs.
  - intros L g args X _ _ s Hs.
    unfold bind, spawn, set_SERVER_PID, modify.
    apply (counted_step L
             (EvSpawn "yarn" args (spawn_pid env (trace s) "yarn" args)) s).
    exact Hs.
  - intros L X. apply hoare_modify. intros s Hs. exact Hs.
Qed.

End Counted.

(** What was done is among the steps reached. *)
Section Accounted.
Variable env : Env.
Variable argv : Argv.
Variable b : Action.

Hypothesis b_sleep : b <> Run sleep10.
Hypothesis b_rm : forall opts path, b <> Remove opts path.

Lemma accounted_step L e s :
  accounted b L s -> accounted b (L ++ action_of e) (emit e s).
Proof.
  unfold accounted. intros H Hb. rewrite actions_emit in Hb.
  apply in_app_or in Hb. apply in_or_app. destruct Hb as [Hb|Hb].
  - left. apply H. exact Hb.
  - right. exact Hb.
Qed.

Lemma accounted_kept L e s :
  ~ In b (action_of e) -> accounted b L s -> accounted b L (emit e s).
Proof.
  unfold accounted. intros He H Hb. rewrite actions_emit in Hb.
  apply in_app_or in Hb. destruct Hb as [Hb|Hb]; [apply H; exact Hb|].
  destruct (He Hb).
Qed.

Lemma accounted_more L L' s : accounted b L s -> accounted b (L ++ L') s.
Proof. intros H Hb. apply in_or_app. left. apply H. exact Hb. Qed.

Lemma accounted_attempt L c k s :
  accounted b (L ++ [Run c]) s ->
  accounted b (L ++ [Run c]) (emit (EvExec c k) s).
Proof.
  unfold accounted. intros H Hb. rewrite actions_emit in Hb.
  apply in_app_or in Hb. destruct Hb as [Hb|Hb]; [apply H; exact Hb|].
  apply in_or_app. right. exact Hb.
Qed.

Lemma accounted_echoes L msgs s :
  accounted b L s ->
  accounted b L (with_exitCode 1 (emit_all (map EvEcho msgs) s)).
Proof.
  unfold accounted. cbn [trace with_exitCode]. intros H Hb.
  rewrite trace_emit_all, actions_app, actions_echoes, app_nil_r in Hb.
  apply H. exact Hb.
Qed.

Lemma accounted_recovery L rec X :
  In rec (recoveries env) ->
  hoare (accounted b L) (call_opt rec) (fun _ => accounted b L) X.
Proof.
  assert (Hsleep : forall k, ~ In b (action_of (EvExec sleep10 k))).
  { intros k [H|[]]. apply b_sleep. symmetry. exact H. }
  intros Hin. unfold recoveries in Hin. cbn [In] in Hin.
  destruct Hin as [<-|[<-|[<-|[]]]]; cbn [call_opt]; intros s Hs.
  - exact Hs.
  - rewrite exec__eq. apply accounted_kept; [apply Hsleep | exact Hs].
  - unfold bind, rm, modify. rewrite exec__eq.
    apply accounted_kept; [apply Hsleep|].
    apply accounted_kept; [|exact Hs].
    intros [H|[]]. apply (b_rm "-rf" "EndToEndTest"). symmetry. exact H.
Qed.

Lemma accounted_stepwise :
  Stepwise env argv (accounted b) (fun L _ s => accounted b L s).
Proof.
  constructor.
  - intros L msg X. apply hoare_modify. intros s Hs.
    apply accounted_kept; [intros [] | exact Hs].
  - intros L dir X. apply hoare_modify. intros s Hs.
    apply (accounted_step L (EvCd dir)). exact Hs.
  - intros L src dst X. apply hoare_modify. intros s Hs.
    apply (accounted_step L (EvCp src dst)). exact Hs.
  - intros L g c X _ _ s Hs. rewrite exec__eq.
    apply (accounted_step L (EvExec c _)). exact Hs.
  - intros L g c msgs _ _.
    apply hoare_check with (R := fun _ => accounted b (L ++ [Run c])).
    + intros s Hs. rewrite exec_code_eq.
      apply (accounted_step L (EvExec c _)). exact Hs.
    + intros k s Hs _. apply accounted_echoes. exact Hs.
    + intros s Hs. exact Hs.
  - intros L g c rec msgs Hin _.
    apply hoare_check with (R := fun _ => accounted b (L ++ [Run c])).
    + eapply hoare_conseq with (P' := accounted b (L ++ [Run c]));
        [ | intros s Hs; apply accounted_more; exact Hs
        | intros k s Hs; exact Hs
        | intros e s Hs; exact Hs].
      apply hoare_tryExecNTimes with (I := accounted b (L ++ [Run c])).
      * intros s Hs. rewrite exec_code_eq. apply accounted_attempt. exact Hs.
      * intros k _. apply accounted_recovery. eapply retried_recovery. exact Hin.
    + intros k s Hs _. apply accounted_echoes. exact Hs.
    + intros s Hs. exact Hs.
  - intros L g args X _ _ s Hs.
    unfold bind, spawn, set_APPIUM_PID, modify.
    apply (accounted_step L
             (EvSpawn "node" args (spawn_pid env (trace s) "node" args)) s).
    exact Hs.
  - intros L g args X _ _ s Hs.
    unfold bind, spawn, set_SERVER_PID, modify.
    apply (accounted_step L
             (EvSpawn "yarn" args (spawn_pid env (trace s) "yarn" args)) s).
    exact Hs.
  - intros L X. apply hoare_modify. intros s Hs. exact Hs.
Qed.

End Accounted.

(** Every step reached was done, also when the run throws; and it throws
    out of an inspected step. *)
Lemma done_all_echoes L msgs s :
  done_all L s -> done_all L (with_exitCode 1 (emit_all (map EvEcho msgs) s)).
Proof.
  unfold done_all. cbn [trace with_exitCode]. intros H x Hx.
  rewrite trace_emit_all, actions_app. apply in_or_app. left. apply H. exact Hx.
Qed.

Lemma done_all_thrown env argv :
  Stepwise env argv done_all
           (fun L _ s => done_all L s /\ ends_inspected env argv L).
Proof.
  assert (Hexec : forall L cmd X,
             hoare (done_all L) (exec_code env cmd)
                   (fun _ => done_all (L ++ [Run cmd])) X).
  { intros L cmd X s Hs. rewrite exec_code_eq.
    apply (done_all_emit L (EvExec cmd _)). exact Hs. }
  pose proof (done_all_stepwise env argv) as W.
  constructor.
  - apply (step_echo W).
  - apply (step_cd W).
  - apply (step_cp W).
  - apply (step_drop W).
  - intros L g cmd msgs Hin _.
    apply hoare_check with (R := fun _ => done_all (L ++ [Run cmd]));
      [apply Hexec | | intros s Hs; exact Hs].
    intros c s Hs _. split; [apply done_all_echoes; exact Hs|].
    exists L, cmd. split; [reflexivity|]. eapply checked_inspected. exact Hin.
  - intros L g cmd rec msgs Hin _.
    apply hoare_check with (R := fun _ => done_all (L ++ [Run cmd]));
      [ | | intros s Hs; exact Hs].
    + apply hoare_tryExecNTimes with (I := done_all L); [apply Hexec|].
      intros c _. apply retried_recovery in Hin.
      unfold recoveries in Hin. cbn [In] in Hin.
      destruct Hin as [<-|[<-|[<-|[]]]]; cbn [call_opt].
      * apply hoare_ret. intros s Hs. eapply done_all_less. exact Hs.
      * intros s Hs. rewrite exec__eq. apply done_all_kept.
        eapply done_all_less. exact Hs.
      * intros s Hs. unfold bind, rm, modify. rewrite exec__eq.
        apply done_all_kept, done_all_kept. eapply done_all_less. exact Hs.
    + intros c s Hs _. split; [apply done_all_echoes; exact Hs|].
      exists L, cmd. split; [reflexivity|]. eapply retried_inspected. exact Hin.
  - apply (step_appium W).
  - apply (step_server W).
  - apply (step_exit W).
Qed.

(** The whole run: it does a prefix of the selected pipeline, and what
    was counted and accounted for in the body is not changed by
    Finalization. *)
Section RunCounted.
Variable env : Env.
Variable argv : Argv.
Variable a : Action.
Variable b : Action.

Hypothesis a_mktemp : action_eqb a (Run mktemp_cmd) = false.
Hypothesis a_sleep : action_eqb a (Run sleep10) = false.
Hypothesis a_rm : forall opts path, action_eqb a (Remove opts path) = false.
Hypothesis a_retried :
  forall g c rec msgs,
    In (g, c, rec, msgs) (retried_steps env argv) ->
    action_eqb a (Run c) = false.
Hypothesis a_kill : forall pid, action_eqb a (Run (kill_cmd pid)) = false.
Hypothesis a_sweep : action_eqb a (Run sweep_cmd) = false.
Hypothesis b_mktemp : b <> Run mktemp_cmd.
Hypothesis b_sleep : b <> Run sleep10.
Hypothesis b_rm : forall opts path, b <> Remove opts path.
Hypothesis b_kill : forall pid, b <> Run (kill_cmd pid).
Hypothesis b_sweep : b <> Run sweep_cmd.

Lemma times_finalization server appium k1 k2 k3 :
  times a (actions (finalization_events server appium k1 k2 k3)) = 0%nat.
Proof.
  unfold finalization_events.
  destruct (truthy_opt server), (truthy_opt appium);
    cbn [app actions flat_map action_of]; unfold times; cbn [filter];
    rewrite ?a_kill, ?a_sweep; reflexivity.
Qed.

Lemma accounted_finalization server appium k1 k2 k3 :
  ~ In b (actions (finalization_events server appium k1 k2 k3)).
Proof.
  unfold finalization_events.
  destruct (truthy_opt server), (truthy_opt appium);
    cbn [app actions flat_map action_of In]; intros H;
    repeat (destruct H as [H|H];
            [first [apply (b_kill _ (eq_sym H)) | apply (b_sweep (eq_sym H))]|]);
    exact H.
Qed.

Lemma run_prefix :
  exists L1 L2,
    selected (pipeline env argv) = L1 ++ L2
    /\ times a (actions (run_trace env argv)) = times a L1
    /\ (In b (actions (run_trace env argv)) -> In b L1)
    /\ (forall x, In x L1 -> In x (actions (run_trace env argv)))
    /\ ((L2 = [] /\ exit_status env argv = 0)
        \/ (ends_inspected env argv L1 /\ exit_status env argv = 1)).
Proof.
  destruct (run_stepwise env argv _ _
              (Stepwise_and env argv _ _ _ _
                 (Stepwise_and env argv _ _ _ _
                    (counted_stepwise env argv a a_sleep a_rm a_retried)
                    (accounted_stepwise env argv b b_sleep b_rm))
                 (done_all_thrown env argv)))
    as (s1 & k1 & k2 & k3 & Htrace & Hend).
  - split; [split|].
    + unfold counted, try_start. cbn [trace emit initial_state app].
      apply times_other. exact a_mktemp.
    + intros [H|[]]. apply b_mktemp. symmetry. exact H.
    + intros x [].
  - assert (Hwhole : forall L,
               counted a L s1 -> accounted b L s1 -> done_all L s1 ->
               times a (actions (run_trace env argv)) = times a L
               /\ (In b (actions (run_trace env argv)) -> In b L)
               /\ (forall x, In x L -> In x (actions (run_trace env argv)))).
    { intros L Hc Ha Hd. rewrite Htrace, actions_app. split; [|split].
      - rewrite times_app, times_finalization, Nat.add_0_r. exact Hc.
      - intros Hb. apply in_app_or in Hb. destruct Hb as [Hb|Hb].
        + apply Ha. exact Hb.
        + destruct (accounted_finalization _ _ _ _ _ Hb).
      - intros x Hx. apply in_or_app. left. apply Hd. exact Hx. }
    destruct Hend as [[[[Hc Ha] Hd] Hzero]
                     | [(e & L1 & L2 & Hsplit & [Hc Ha] & Hd & Hlast) Hone]].
    + exists (selected (pipeline env argv)), [].
      split; [symmetry; apply app_nil_r|].
      destruct (Hwhole _ Hc Ha Hd) as (H1 & H2 & H3).
      repeat (split; [assumption|]). left. split; [reflexivity | exact Hzero].
    + exists L1, L2. split; [exact Hsplit|].
      destruct (Hwhole _ Hc Ha Hd) as (H1 & H2 & H3).
      repeat (split; [assumption|]). right. split; assumption.
Qed.

End RunCounted.

(* ================================================================= *)
(** ** The iOS/tvOS branch when [--tvos] is set *)

Lemma ios_once_selected env argv a :
  tvos argv = true ->
  In a ios_once ->
  times a (selected (pipeline env argv)) = 1%nat.
Proof.
  intros Htvos Hin. unfold pipeline, selected, iosTestType.
  rewrite Htvos, orb_true_r. unfold ios_once in Hin. cbn [In] in Hin.
  destruct (skip_cli_install argv), (android argv), (js argv);
    repeat (destruct Hin as [<-|Hin]; [vm_compute; reflexivity|]);
    contradiction.
Qed.

Ltac not_in_steps H :=
  cbn [flat_map under fst snd app negb In] in H;
  repeat (destruct H as [H|H];
          [first [ discriminate H
                 | injection H as H; refute_eq H
                 | injection H as H _; refute_eq H
                 | injection H as _ H; discriminate H ]|]);
  exact H.

(** The selected pipeline around the branch: its packager, the settling
    delay, the warm-up, the pods and the tvOS test follow one another; the
    packager of the branch is not started before, and the test is not run
    before, where each step of [ios_once] occurs once. *)
Lemma branch_in_pipeline env argv :
  tvos argv = true ->
  exists X Y,
    selected (pipeline env argv)
    = X ++ Start "yarn" ["start"] :: Run sleep15 :: Run curl_cmd
          :: Run pod_install_cmd :: Run tvos_test_cmd :: Y
    /\ ~ In (Start "yarn" ["start"]) X.
Proof.
  intros Htvos.
  exists (selected (firstn 24 (pipeline env argv))),
         (selected (skipn 29 (pipeline env argv))).
  unfold pipeline, selected, iosTestType. rewrite Htvos, orb_true_r.
  cbn [firstn skipn].
  destruct (skip_cli_install argv), (android argv), (js argv);
    (split; [reflexivity|]); intros H; not_in_steps H.
Qed.

Lemma before_tvos_test env argv :
  tvos argv = true ->
  exists X Y,
    selected (pipeline env argv) = X ++ Run tvos_test_cmd :: Y
    /\ ~ In (Run tvos_test_cmd) X
    /\ (forall a, In a ios_once -> times a X = 1%nat).
Proof.
  intros Htvos.
  exists (selected (firstn 28 (pipeline env argv))),
         (selected (skipn 29 (pipeline env argv))).
  unfold pipeline, selected, iosTestType. rewrite Htvos, orb_true_r.
  cbn [firstn skipn].
  destruct (skip_cli_install argv), (android argv), (js argv);
    (split; [reflexivity|]); split.
  all: try (intros H; not_in_steps H).
  all: intros a Hin; unfold ios_once in Hin; cbn [In] in Hin;
    repeat (destruct Hin as [<-|Hin]; [vm_compute; reflexivity|]);
    contradiction.
Qed.

Lemma tvos_test_inspected env argv :
  tvos argv = true -> In tvos_test_cmd (inspected env argv).
Proof.
  intros Htvos. unfold inspected, retried, iosTestType. rewrite Htvos.
  apply in_or_app. right. cbn [In]. do 5 right. left. reflexivity.
Qed.

Ltac not_retried :=
  let Hin := fresh "Hin" in
  intros ? ? ? ? Hin; unfold retried_steps in Hin; cbn [In] in Hin;
  repeat (destruct Hin as [Hin|Hin];
          [injection Hin as <- <- <- <-; vm_compute; reflexivity|]);
  contradiction.

(** The side conditions of [run_prefix] for the steps of the branch. *)
Ltac branch_step :=
  first
    [ not_retried
    | intros; vm_compute; reflexivity
    | intros; discriminate
    | intros;
      match goal with
      | H : Run _ = Run _ |- _ => injection H as H; refute_eq H
      end ].

Lemma branch_prefix env argv a b :
  In a ios_once ->
  b = Start "yarn" ["start"] \/ b = Run tvos_test_cmd ->
  exists L1 L2,
    selected (pipeline env argv) = L1 ++ L2
    /\ times a (actions (run_trace env argv)) = times a L1
    /\ (In b (actions (run_trace env argv)) -> In b L1)
    /\ (forall x, In x L1 -> In x (actions (run_trace env argv)))
    /\ ((L2 = [] /\ exit_status env argv = 0)
        \/ (ends_inspected env argv L1 /\ exit_status env argv = 1)).
Proof.
  intros Hin Hb. unfold ios_once in Hin. cbn [In] in Hin.
  destruct Hb as [->| ->];
    repeat (destruct Hin as [<-|Hin]; [apply run_prefix; branch_step|]);
    contradiction.
Qed.

Lemma not_inspected_last env argv X Z c before cmd :
  In c (discarded env) ->
  X ++ Z ++ [Run c] = before ++ [Run cmd] ->
  In cmd (inspected env argv) -> False.
Proof.
  intros Hc Heq Hin. rewrite app_assoc in Heq.
  apply app_inj_tail in Heq. destruct Heq as [_ Heq]. injection Heq as ->.
  eapply inspected_not_discarded; [exact Hin | exact Hc].
Qed.

(** A run that starts the packager of the branch gets to the test: no
    step between them can end the run. *)
Lemma entered_runs_test env argv :
  tvos argv = true ->
  In (Start "yarn" ["start"]) (actions (run_trace env argv)) ->
  executed tvos_test_cmd (run_trace env argv).
Proof.
  intros Htvos Hent.
  destruct (branch_prefix env argv (Start "yarn" ["start"])
              (Start "yarn" ["start"]))
    as (L1 & L2 & Hsplit & _ & Hacc & Hdone & Hend);
    [left; reflexivity | left; reflexivity |].
  apply actions_Run, Hdone.
  destruct (branch_in_pipeline env argv Htvos) as (X & Y & Hpipe & Hnot).
  rewrite Hpipe in Hsplit. symmetry in Hsplit.
  destruct (prefix_through _ _ _ _ _ _ Hsplit (Hacc Hent) Hnot) as [Z ->].
  rewrite <- app_assoc in Hsplit. apply app_inv_head in Hsplit.
  cbn [app] in Hsplit. injection Hsplit as Hsplit.
  destruct Hend as [[-> _] | [(before & cmd & HL1 & Hcmd) _]].
  - rewrite app_nil_r in Hsplit. subst Z. apply in_or_app. right.
    cbn [In]. tauto.
  - destruct Z as [|z1 [|z2 [|z3 [|z4 Z]]]]; cbn [app] in Hsplit.
    + exfalso. apply app_inj_tail in HL1. destruct HL1 as [_ HL1].
      discriminate HL1.
    + exfalso. injection Hsplit as -> _.
      apply (not_inspected_last env argv X [Start "yarn" ["start"]]
               sleep15 before cmd); [| rewrite <- HL1 | exact Hcmd].
      * unfold discarded. cbn [In]. tauto.
      * reflexivity.
    + exfalso. injection Hsplit as -> -> _.
      apply (not_inspected_last env argv X
               [Start "yarn" ["start"]; Run sleep15]
               curl_cmd before cmd); [| rewrite <- HL1 | exact Hcmd].
      * unfold discarded. cbn [In]. tauto.
      * reflexivity.
    + exfalso. injection Hsplit as -> -> -> _.
      apply (not_inspected_last env argv X
               [Start "yarn" ["start"]; Run sleep15; Run curl_cmd]
               pod_install_cmd before cmd); [| rewrite <- HL1 | exact Hcmd].
      * unfold discarded. cbn [In]. tauto.
      * reflexivity.
    + injection Hsplit as -> -> -> -> _. apply in_or_app. right.
      cbn [In]. tauto.
Qed.

Lemma success_runs_tvos_test env argv :
  tvos argv = true ->
  exit_status env argv = 0 ->
  executed tvos_test_cmd (run_trace env argv).
Proof.
  intros Htvos Hzero.
  destruct (branch_prefix env argv (Start "yarn" ["start"]) (Run tvos_test_cmd))
    as (L1 & L2 & Hsplit & _ & _ & Hdone & Hend);
    [left; reflexivity | right; reflexivity |].
  destruct Hend as [[-> _] | [_ Hone]];
    [|rewrite Hzero in Hone; discriminate Hone].
  rewrite app_nil_r in Hsplit. apply actions_Run, Hdone. rewrite <- Hsplit.
  destruct (before_tvos_test env argv Htvos) as (X & Y & -> & _).
  apply in_or_app. right. left. reflexivity.
Qed.


